(** * Sector flow model: regime classifiers and series synthesis

    A shallow embedding of [sector_flow_model.py]: the series algebra
    ([atr], [resync_index], [normalize_ohlc], [ohlc_divide]), the index
    synthesizers ([ew_index_from_members], [build_yahoo_composite]) and the
    regime classifiers ([classify_regime], [classify_weekly_regime],
    [classify_daily_regime], [classify_session_regimes]).

    Prices are exact rationals; a pandas float cell is an [option Q] whose
    [None] is NaN, so that every comparison with a missing value is false,
    as in the source.  Rounding is not modelled. *)

From Stdlib Require Import String Ascii.
From Stdlib Require Import Reals Lra.
From Stdlib Require Lqa.
From Stdlib Require Import List Sorted ZArith QArith Qminmax Qabs Bool Lia Arith.
Import ListNotations.

Set Implicit Arguments.

(* ------------------------------------------------------------------ *)
(** ** Float cells *)

Module Float.

(** A float64 cell: [None] is NaN, and a number is held as an exact
    rational.  Rounding and overflow are left out of the model.  The
    statements of this development are therefore kept to what does not
    depend on exactness: which tests are made, in which order and on which
    operands, which operation gives a cell, and facts of order and
    membership, which rounding to nearest preserves. *)
Definition float := option Q.

Definition nan : float := None.

Definition Qltb (a b : Q) : bool := negb (Qle_bool b a).

Definition lift2 (f : Q -> Q -> Q) (a b : float) : float :=
  match a, b with
  | Some x, Some y => Some (f x y)
  | _, _ => None
  end.

Definition cmp2 (f : Q -> Q -> bool) (a b : float) : bool :=
  match a, b with
  | Some x, Some y => f x y
  | _, _ => false
  end.

Definition add := lift2 Qplus.
Definition sub := lift2 Qminus.
Definition div := lift2 Qdiv.

(** [a < b], [a > b], [a <= b]: false as soon as one side is NaN. *)
Definition lt := cmp2 Qltb.
Definition gt (a b : float) := lt b a.
Definition le := cmp2 Qle_bool.

Definition isna (a : float) : bool :=
  match a with None => true | Some _ => false end.

End Float.

Import Float.

(* ------------------------------------------------------------------ *)
(** ** OHLC frames *)

(** One bar of an OHLC frame over a value type [V]. *)
Record Bar (V : Type) : Type := mkBar
  { Open : V; High : V; Low : V; Close : V }.

Arguments mkBar {V} _ _ _ _.
Arguments Open {V} _.
Arguments High {V} _.
Arguments Low {V} _.
Arguments Close {V} _.

Definition map_bar {V W : Type} (f : V -> W) (b : Bar V) : Bar W :=
  mkBar (f (Open b)) (f (High b)) (f (Low b)) (f (Close b)).

(** A frame: rows in index order, each with its timestamp label.  The data
    model keeps timestamps strictly ascending and unique. *)
Definition Frame (V : Type) : Type := list (Z * Bar V).

Definition index {V : Type} (df : Frame V) : list Z := List.map fst df.

Definition bars {V : Type} (df : Frame V) : list (Bar V) := List.map snd df.

(** [df.empty] *)
Definition empty {A : Type} (l : list A) : bool :=
  match l with [] => true | _ :: _ => false end.

(** [df[col]] for an OHLC frame *)
Definition column {V : Type} (col : Bar V -> V) (df : Frame V) : list V :=
  List.map (fun r => col (snd r)) df.

(* ------------------------------------------------------------------ *)
(** ** Rolling windows *)

(** Parameters of the module. *)
Definition YEARLY_RANGE_DAYS : nat := 28.
Definition ATR_PERIOD : nat := 20.
Definition NEAR_THRESH_ATR : Q := 1 # 2.
Definition FAST_LEN : nat := 5.
Definition SLOW_LEN : nat := 10.

(** The [n] values ending at position [i] (inclusive). *)
Definition window {A : Type} (n i : nat) (xs : list A) : list A :=
  firstn n (skipn (i + 1 - n) xs).

Definition qmax_list (xs : list Q) : Q :=
  match xs with
  | [] => 0
  | x :: r => fold_left Qmax r x
  end.

Definition qmin_list (xs : list Q) : Q :=
  match xs with
  | [] => 0
  | x :: r => fold_left Qmin r x
  end.

Definition qsum (xs : list Q) : Q := fold_right Qplus 0 xs.

Definition qmean (xs : list Q) : Q :=
  qsum xs / inject_Z (Z.of_nat (length xs)).

(** [xs.rolling(w).agg()]: [min_periods] defaults to the window, so the
    cell is NaN until [w] observations are in. *)
Definition rolling (w : nat) (agg : list Q -> Q) (xs : list Q) : list float :=
  List.map
    (fun i => if (w <=? i + 1)%nat then Some (agg (window w i xs)) else nan)
    (seq 0 (length xs)).

(** [xs.rolling(w, min_periods=1).agg()]: a shrinking window over the first
    bars, never NaN. *)
Definition rolling_min1 (w : nat) (agg : list Q -> Q) (xs : list Q) : list float :=
  List.map
    (fun i => Some (agg (window (Nat.min w (i + 1)) i xs)))
    (seq 0 (length xs)).

(** [s.iloc[i]]; the callers below only index inside the series. *)
Definition iloc (s : list float) (i : nat) : float := nth i s nan.

(** [s.iloc[-1]]; the callers below only pass non-empty series. *)
Definition iloc_last (s : list float) : float := last s nan.

(** [df.iloc[:n]] *)
Definition iloc_upto {A : Type} (n : nat) (df : list A) : list A := firstn n df.

(* ------------------------------------------------------------------ *)
(** ** Average true range *)

(** [s.shift()]: every value moves one row down, the first row is NaN. *)
Definition shift (xs : list Q) : list float :=
  firstn (length xs) (nan :: List.map Some xs).

(** Row-wise [max(axis=1)] of the three candidate ranges; NaN candidates
    are skipped, which on the first bar leaves [|High - Low|] alone. *)
Definition true_range (b : Bar Q) (prev_close : float) : Q :=
  let high_low := Qabs (High b - Low b) in
  match prev_close with
  | None => high_low
  | Some pc =>
      let high_close := Qabs (High b - pc) in
      let low_close := Qabs (Low b - pc) in
      Qmax (Qmax high_low high_close) low_close
  end.

Definition true_ranges (df : Frame Q) : list Q :=
  List.map (fun p => true_range (fst p) (snd p))
           (combine (bars df) (shift (column Close df))).

(** Average True Range on an OHLC frame. *)
Definition atr (df : Frame Q) (period : nat) : list float :=
  if empty df then []
  else
    let tr := true_ranges df in
    rolling_min1 period qmean tr.

(* ------------------------------------------------------------------ *)
(** ** Regime models *)

Open Scope string_scope.

(** Python's [needle in hay] on strings. *)
Definition str_in (needle hay : string) : bool :=
  match String.index 0 needle hay with
  | Some _ => true
  | None => false
  end.

Definition _classify_macro (close hi lo mid : float) : string :=
  if gt close mid && gt close hi then "Strong Bull"
  else if gt close mid then "Weak Bull"
  else if lt close mid && lt close lo then "Strong Bear"
  else if lt close mid then "Weak Bear"
  else "Neutral".

Definition _classify_micro (closes : list Q) (fast_len slow_len : nat)
    (macro : string) : string :=
  let fast_ma := iloc_last (rolling fast_len qmean closes) in
  let slow_ma := iloc_last (rolling slow_len qmean closes) in
  if str_in "Bull" macro then
    (if gt fast_ma slow_ma then "Micro Bull+" else "Micro Bear")
  else if str_in "Bear" macro then
    (if lt fast_ma slow_ma then "Micro Bear" else "Micro Bull")
  else "Neutral".

Definition _classify_transition (close hi lo mid atr_val : float)
    (near_thresh_atr : Q) : string :=
  if le atr_val (Some 0%Q) then "None"
  else
    let dist_hi := div (sub hi close) atr_val in
    let dist_lo := div (sub close lo) atr_val in
    let thr := Some near_thresh_atr in
    if lt close hi && gt close mid && lt dist_hi thr then "Approaching Weak Bull"
    else if gt close hi && lt dist_hi thr then "Approaching Strong Bull"
    else if gt close lo && lt close mid && lt dist_lo thr then "Approaching Weak Bear"
    else if lt close lo && lt dist_lo thr then "Approaching Strong Bear"
    else "None".

(** One output row: the tuple (macro, micro, transition, close, hi, lo,
    mid).  A label cell holds a string or NaN. *)
Record RegimeRow : Type := mkRow
  { Macro : option string;
    Micro : option string;
    Transition : option string;
    rClose : float;
    Hi : float;
    Lo : float;
    Mid : float }.

(** The tuple of seven NaN appended while the window is not yet full. *)
Definition nan_row : RegimeRow := mkRow None None None nan nan nan nan.

Definition RegimeFrame : Type := list (Z * RegimeRow).

(** The classified tuple of bar [i]; shared by the three timeframes. *)
Definition classified_row (df : Frame Q) (hi lo mid atr_val : list float)
    (i : nat) : RegimeRow :=
  let close := iloc (List.map Some (column Close df)) i in
  let macro := _classify_macro close (iloc hi i) (iloc lo i) (iloc mid i) in
  let micro := _classify_micro (column Close (iloc_upto (i + 1) df))
                               FAST_LEN SLOW_LEN macro in
  let trans := _classify_transition close (iloc hi i) (iloc lo i) (iloc mid i)
                                    (iloc atr_val i) NEAR_THRESH_ATR in
  mkRow (Some macro) (Some micro) (Some trans) close (iloc hi i) (iloc lo i) (iloc mid i).

(** [(hi + lo) / 2] on two series of the same index. *)
Definition midline (hi lo : list float) : list float :=
  List.map (fun p => div (add (fst p) (snd p)) (Some 2%Q)) (combine hi lo).

(** The loop of [classify_regime] and [classify_weekly_regime]: bars whose
    window is not full get the NaN tuple. *)
Definition windowed_rows (w atr_len : nat) (df : Frame Q) : RegimeFrame :=
  if empty df then []
  else
    let hi := rolling w qmax_list (column High df) in
    let lo := rolling w qmin_list (column Low df) in
    let mid := midline hi lo in
    let atr_val := atr df atr_len in
    combine (index df)
      (List.map
         (fun i =>
            if isna (iloc hi i) || isna (iloc lo i) then nan_row
            else classified_row df hi lo mid atr_val i)
         (seq 0 (length df))).

(** Yearly regime using the 28-bar range; [atr_len] defaults to
    [ATR_PERIOD]. *)
Definition classify_regime (df : Frame Q) (atr_len : nat) : RegimeFrame :=
  windowed_rows YEARLY_RANGE_DAYS atr_len df.

(** Weekly regime using the 5-bar range; [atr_len] defaults to 14. *)
Definition classify_weekly_regime (df : Frame Q) (atr_len : nat) : RegimeFrame :=
  windowed_rows 5 atr_len df.

(** Daily regime using the 1-bar range: the loop has no NaN test. *)
Definition classify_daily_regime (df : Frame Q) (atr_len : nat) : RegimeFrame :=
  if empty df then []
  else
    let hi := rolling 1 qmax_list (column High df) in
    let lo := rolling 1 qmin_list (column Low df) in
    let mid := midline hi lo in
    let atr_val := atr df atr_len in
    combine (index df)
      (List.map (fun i => classified_row df hi lo mid atr_val i)
                (seq 0 (length df))).

Close Scope string_scope.

(* ------------------------------------------------------------------ *)
(** ** Index alignment *)

Definition mem (t : Z) (idx : list Z) : bool := existsb (Z.eqb t) idx.

(** [a.intersection(b)] on unique indices: the labels of [a] that occur in
    [b], in the order of [a]. *)
Definition index_intersection (a b : list Z) : list Z :=
  filter (fun t => mem t b) a.

(** A family of named frames: a dict, in insertion order. *)
Definition Family (V : Type) : Type := list (string * Frame V).

Definition non_empty {V : Type} (kv : string * Frame V) : bool :=
  negb (empty (snd kv)).

(** The common index across the non-empty frames of a family. *)
Definition resync_index {V : Type} (dfs : Family V) : list Z :=
  let indices := List.map (fun kv => index (snd kv)) (filter non_empty dfs) in
  match indices with
  | [] => []
  | first :: rest => fold_left index_intersection rest first
  end.

(** The row labelled [t], if any. *)
Definition lookup {V : Type} (t : Z) (df : Frame V) : option (Bar V) :=
  option_map snd (find (fun r => Z.eqb (fst r) t) df).

(** [df.reindex(idx)]: one row per label of [idx]; a label the frame does
    not have gives a row whose four cells are NaN, here [None]. *)
Definition reindex {V : Type} (idx : list Z) (df : Frame V)
  : list (Z * option (Bar V)) :=
  List.map (fun t => (t, lookup t df)) idx.

(** [.dropna()] after [reindex]: the NaN rows go. *)
Definition dropna_rows {V : Type} (rows : list (Z * option (Bar V))) : Frame V :=
  flat_map (fun r => match snd r with
                     | Some b => [(fst r, b)]
                     | None => []
                     end) rows.

(** [df.loc[idx, cols]]: for each label, the rows carrying it. *)
Definition loc {V : Type} (idx : list Z) (df : Frame V) : Frame V :=
  flat_map (fun t => filter (fun r => Z.eqb (fst r) t) df) idx.

(** A bar of float cells without NaN, as a bar of numbers. *)
Definition bar_value (b : Bar float) : option (Bar Q) :=
  match Open b, High b, Low b, Close b with
  | Some o, Some h, Some l, Some c => Some (mkBar o h l c)
  | _, _, _, _ => None
  end.

(** [df.dropna()]: a row goes as soon as one of its cells is NaN. *)
Definition dropna (df : Frame float) : Frame Q :=
  flat_map (fun r => match bar_value (snd r) with
                     | Some b => [(fst r, b)]
                     | None => []
                     end) df.

(** [a.equals(b)] on two indexes. *)
Fixpoint index_eqb (a b : list Z) : bool :=
  match a, b with
  | [], [] => true
  | x :: a', y :: b' => Z.eqb x y && index_eqb a' b'
  | _, _ => false
  end.

Fixpoint insert_label (t : Z) (l : list Z) : list Z :=
  match l with
  | [] => [t]
  | x :: r => if (t <=? x)%Z then t :: l else x :: insert_label t r
  end.

(** The labels in increasing order. *)
Definition sort_index (l : list Z) : list Z := fold_right insert_label [] l.

(** [pd.concat(frames, axis=1)]: the outer join of the frames on their
    index.  Two datetime indexes are joined by [a.union(b)]: the index
    itself when the two are equal or the other is empty, otherwise the
    labels of both in increasing order.  A row holds, frame by frame, the
    frame's bar for the label or NaN cells. *)
Definition index_union (a b : list Z) : list Z :=
  if index_eqb a b then a
  else if empty b then a
  else if empty a then b
  else sort_index (a ++ filter (fun t => negb (mem t a)) b).

Definition union_indexes (idxs : list (list Z)) : list Z :=
  match idxs with
  | [] => []
  | first :: rest => fold_left index_union rest first
  end.

Definition Merged (V : Type) : Type := list (Z * list (option (Bar V))).

Definition concat_columns {V : Type} (frames : list (Frame V)) : Merged V :=
  List.map (fun t => (t, List.map (lookup t) frames))
           (union_indexes (List.map index frames)).

(* ------------------------------------------------------------------ *)
(** ** Series algebra *)

(** Normalize an OHLC frame by its first close to a given base. *)
Definition normalize_ohlc (df : Frame Q) (base : Q) : Frame Q :=
  match df with
  | [] => df
  | (_, b0) :: _ =>
      let first_close := Close b0 in
      let scale := if negb (Qeq_bool first_close 0)
                   then base / first_close else 1 in
      List.map (fun r => (fst r, map_bar (fun v => v * scale) (snd r))) df
  end.

(** [.replace(0, np.nan)] *)
Definition replace_zero (v : Q) : float :=
  if Qeq_bool v 0 then nan else Some v.

Definition bar_div (n : Bar Q) (d : Bar float) : Bar float :=
  mkBar (div (Some (Open n)) (Open d)) (div (Some (High n)) (High d))
        (div (Some (Low n)) (Low d)) (div (Some (Close n)) (Close d)).

(** [n / d] for two frames carrying the same index in the same order. *)
Definition frame_div (n : Frame Q) (d : Frame float) : Frame float :=
  List.map (fun p => (fst (fst p), bar_div (snd (fst p)) (snd (snd p))))
           (combine n d).

(** Divide one OHLC series by another (ratio). *)
Definition ohlc_divide (numer denom : Frame Q) : Frame Q :=
  if empty numer || empty denom then []
  else
    let idx := index_intersection (index numer) (index denom) in
    if empty idx then []
    else
      let n := loc idx numer in
      let d := List.map (fun r => (fst r, map_bar replace_zero (snd r)))
                        (loc idx denom) in
      dropna (frame_div n d).

(* ------------------------------------------------------------------ *)
(** ** Equal-weight index *)

(** [s.mean()] with pandas' default [skipna=True]: the mean of the cells
    that are not NaN, NaN when there is none. *)
Definition present (cells : list float) : list Q :=
  flat_map (fun c => match c with Some v => [v] | None => [] end) cells.

Definition mean_skipna (cells : list float) : float :=
  let vals := present cells in
  if empty vals then nan else Some (qmean vals).

(** The cells of one merged row under the label [col], one per frame. *)
Definition row_cells (col : Bar Q -> Q) (row : list (option (Bar Q))) : list float :=
  List.map (option_map col) row.

(** [merged[cols].mean(axis=1)] where [cols] lists the labels of [merged]
    that end with [col].  The four labels repeat once per frame, so [cols]
    holds [col] once per frame, and selecting a label returns every column
    that carries it: each frame's cell enters the mean once per frame. *)
Definition ew_mean (col : Bar Q -> Q) (nframes : nat)
    (row : list (option (Bar Q))) : float :=
  let cols := repeat col nframes in
  mean_skipna (flat_map (fun c => row_cells c row) cols).

(** Equal-weight index from member OHLC frames; [base] defaults to 100. *)
Definition ew_index_from_members (ohlc_members : Family Q) (base : Q) : Frame Q :=
  let members := filter non_empty ohlc_members in
  if empty members then []
  else
    let common_idx := resync_index members in
    let frames :=
      List.map (fun kv =>
                  let df := snd kv in
                  let df := if negb (empty common_idx)
                            then dropna_rows (reindex common_idx df)
                            else df in
                  normalize_ohlc df base) members in
    if empty frames then []
    else
      let merged := concat_columns frames in
      let k := length frames in
      dropna (List.map
                (fun r => (fst r, mkBar (ew_mean Open k (snd r)) (ew_mean High k (snd r))
                                        (ew_mean Low k (snd r)) (ew_mean Close k (snd r))))
                merged).

(* ------------------------------------------------------------------ *)
(** ** Session-specific regimes *)

Open Scope string_scope.

(** What [pd.infer_freq] answers on an index: it raises when the index is
    too short to infer from, finds no regular frequency, or names one. *)
Inductive Inferred : Type :=
| InferRaises
| InferNone
| InferFreq (code : string).

(** One row of the session frame. *)
Record SessionRow : Type := mkSession
  { Session : string;
    sClose : float;
    sMacro : string;
    sMicro : string;
    sTransition : string;
    sHi : float;
    sLo : float;
    sMid : float }.

Definition sessions : list (string * (string * string)) :=
  [ ("Asia",   ("04:00", "05:00"));
    ("London", ("09:00", "10:00"));
    ("NY AM",  ("12:00", "13:00"));
    ("NY PM",  ("13:00", "14:00")) ].

(** The frequency codes the guard of the session classifier tests for. *)
Definition coarse_codes : list string := ["B"; "D"; "W"; "M"; "Q"; "A"].

Definition digit (n : Z) : string :=
  String (ascii_of_nat (48 + Z.to_nat n)) EmptyString.

Definition two_digits (n : Z) : string :=
  digit (n / 10) ++ digit (n mod 10).

(** [strftime("%H:%M")] of a minute of the day. *)
Definition strftime_HM (minute_of_day : Z) : string :=
  two_digits (minute_of_day / 60) ++ ":" ++ two_digits (minute_of_day mod 60).

Section Sessions.

(** The two services of pandas the classifier calls: frequency inference
    on an index and the offset, in minutes, of a named zone from UTC at
    an instant.  An intraday index counts minutes since the epoch. *)
Variable infer_freq : list Z -> Inferred.
Variable utc_offset : string -> Z -> Z.

(** Local wall-clock minutes of an instant after [tz_convert(tz)]; a
    naive index is first read as UTC. *)
Definition local_minutes (tz : string) (t : Z) : Z := (t + utc_offset tz t)%Z.

Definition local_day (tz : string) (t : Z) : Z := (local_minutes tz t / 1440)%Z.

Definition local_HM (tz : string) (t : Z) : string :=
  strftime_HM (local_minutes tz t mod 1440).

(** The mask of one session: [start <= "%H:%M" < end] on strings. *)
Definition in_session (tz start end_ : string) (t : Z) : bool :=
  String.leb start (local_HM tz t) && String.ltb (local_HM tz t) end_.

Definition session_frame (tz start end_ : string) (df : Frame Q) : Frame Q :=
  filter (fun r => in_session tz start end_ (fst r)) df.

(** The snapshot of one session over the bars [sess_df] selected by its
    mask; [last_atr] is the ATR of the last bar of the whole frame. *)
Definition session_row (session_name : string) (sess_df : Frame Q)
    (fast_len slow_len : nat) (last_atr : float) (near_thresh_atr : Q)
  : SessionRow :=
  let hi := Some (qmax_list (column High sess_df)) in
  let lo := Some (qmin_list (column Low sess_df)) in
  let mid := div (add hi lo) (Some 2%Q) in
  let close := iloc_last (List.map Some (column Close sess_df)) in
  let macro := _classify_macro close hi lo mid in
  let micro := _classify_micro (column Close sess_df) fast_len slow_len macro in
  let trans := _classify_transition close hi lo mid last_atr near_thresh_atr in
  mkSession session_name close macro micro trans hi lo mid.

(** Classify session-specific regimes (Asia, London, NY AM, NY PM).
    [None] is the exception of [infer_freq]. *)
Definition classify_session_regimes (df : Frame Q)
    (fast_len slow_len atr_len : nat) (near_thresh_atr : Q) (tz : string)
  : option (list SessionRow) :=
  if empty df then Some []
  else
    match infer_freq (index df) with
    | InferRaises => None
    | InferNone => Some []
    | InferFreq code =>
        if existsb (String.eqb code) coarse_codes then Some []
        else
          let ATR := atr df atr_len in
          Some (flat_map
                  (fun s =>
                     let '(session_name, (start, end_)) := s in
                     let sess_df := session_frame tz start end_ df in
                     if empty sess_df then []
                     else [session_row session_name sess_df fast_len slow_len
                                       (iloc_last ATR) near_thresh_atr])
                  sessions)
    end.

End Sessions.

Close Scope string_scope.

(* ------------------------------------------------------------------ *)
(** ** Geometric composite *)

(** The composite goes through [np.log] and [np.exp], so its cells are
    real numbers extended with the two infinities and NaN.  Here too
    rounding is left out: [exp (ln v)] is [v] in the model and only close
    to [v] in the program, and no statement below relies on it. *)
Inductive xfloat : Type :=
| XNaN
| XNegInf
| XPosInf
| XFin (r : R).

Section Geometric.

Local Open Scope R_scope.

(** [np.log]: minus infinity at zero, NaN below. *)
Definition np_log (x : xfloat) : xfloat :=
  match x with
  | XFin r =>
      if Rlt_dec 0 r then XFin (ln r)
      else if Req_dec_T r 0 then XNegInf
      else XNaN
  | XPosInf => XPosInf
  | XNegInf => XNaN
  | XNaN => XNaN
  end.

Definition np_exp (x : xfloat) : xfloat :=
  match x with
  | XFin r => XFin (exp r)
  | XNegInf => XFin 0
  | XPosInf => XPosInf
  | XNaN => XNaN
  end.

Definition xadd (a b : xfloat) : xfloat :=
  match a, b with
  | XNaN, _ | _, XNaN => XNaN
  | XFin x, XFin y => XFin (x + y)
  | XNegInf, XPosInf | XPosInf, XNegInf => XNaN
  | XNegInf, _ | _, XNegInf => XNegInf
  | XPosInf, _ | _, XPosInf => XPosInf
  end.

(** A sum divided by a positive count. *)
Definition xdiv_count (a : xfloat) (n : nat) : xfloat :=
  match a with
  | XFin x => XFin (x / INR n)
  | other => other
  end.

Definition xisna (x : xfloat) : bool :=
  match x with XNaN => true | _ => false end.

Definition xsum (xs : list xfloat) : xfloat := fold_right xadd (XFin 0) xs.

(** [mean(axis=1)] with [skipna=True] on extended cells. *)
Definition xmean_skipna (cells : list xfloat) : xfloat :=
  let vals := filter (fun c => negb (xisna c)) cells in
  if empty vals then XNaN else xdiv_count (xsum vals) (length vals).

(** [merged.xs(col, axis=1, level=1)] on one row: the cell of each keyed
    frame under [col]. *)
Definition xs_cells (col : Bar R -> R) (row : list (option (Bar R)))
  : list xfloat :=
  List.map (fun ob => match ob with
                      | Some b => XFin (col b)
                      | None => XNaN
                      end) row.

(** [np.exp(np.log(cols).mean(axis=1))] on one row. *)
Definition geo_cell (col : Bar R -> R) (row : list (option (Bar R))) : xfloat :=
  np_exp (xmean_skipna (List.map np_log (xs_cells col row))).

Definition xbar_has_nan (b : Bar xfloat) : bool :=
  xisna (Open b) || xisna (High b) || xisna (Low b) || xisna (Close b).

Definition xdropna (df : Frame xfloat) : Frame xfloat :=
  filter (fun r => negb (xbar_has_nan (snd r))) df.

Definition tickers : list string := ["^IXIC"; "^GSPC"; "^DJI"; "^RUT"]%string.
Definition fallbacks : list string := ["QQQ"; "SPY"; "DIA"; "IWM"]%string.

(** The cached fetch of one ticker, already reduced to the rows whose
    four prices are present; the period and interval are fixed. *)
Variable fetch_data : string -> Frame R.

(** The row of [merged] labelled [t], NaN cells when [merged] has no such
    label: the alignment done by the assignment [out[col] = ...]. *)
Definition merged_row (merged : Merged R) (t : Z) (nframes : nat)
  : list (option (Bar R)) :=
  match find (fun r => Z.eqb (fst r) t) merged with
  | Some r => snd r
  | None => repeat None nframes
  end.

(** The dict [data] filled by the fetch loop: a primary ticker whose
    frame is empty is replaced by its fallback, and a slot whose frame is
    still empty is left out. *)
Definition composite_data : Family R :=
  flat_map (fun p =>
              let df := fetch_data (fst p) in
              let df := if empty df then fetch_data (snd p) else df in
              if negb (empty df) then [(fst p, df)] else [])
           (combine tickers fallbacks).

(** Geometric composite of major US indices. *)
Definition build_yahoo_composite : Frame xfloat :=
  let data := composite_data in
  if empty data then []
  else
    let idx := resync_index data in
    let frames :=
      flat_map (fun kv =>
                  if negb (empty (snd kv))
                  then [dropna_rows (reindex idx (snd kv))] else [])
               data in
    let merged := concat_columns frames in
    xdropna
      (List.map
         (fun t =>
            let row := merged_row merged t (length frames) in
            (t, mkBar (geo_cell Open row) (geo_cell High row)
                      (geo_cell Low row) (geo_cell Close row)))
         idx).

End Geometric.

(* ------------------------------------------------------------------ *)
(** ** Acquisition *)

(** What one call of the provider gives: an exception, or a frame that
    may be empty, may lack one of the four price columns, and may hold
    NaN cells. *)
Inductive Download : Type :=
| DRaises
| DFrame (has_ohlc : bool) (rows : Frame float).

(** The loop [for attempt in range(retries)], with [remaining] attempts
    left; [download k] is the answer of the provider to the call number
    [k] and [slept] the seconds spent in [time.sleep] so far. *)
Fixpoint fetch_loop (download : nat -> Download) (retries delay remaining : nat)
    (slept : nat) : Frame Q * nat :=
  match remaining with
  | O => ([], slept)
  | S rest =>
      let attempt := (retries - remaining)%nat in
      match download attempt with
      | DFrame has_ohlc rows =>
          if negb (empty rows) && has_ohlc then (dropna rows, slept)
          else fetch_loop download retries delay rest slept
      | DRaises =>
          fetch_loop download retries delay rest
                     (if (attempt <? retries - 1)%nat then (slept + delay)%nat
                      else slept)
      end
  end.

(** The fetch with bounded retries: the frame returned and the seconds
    slept; [retries] defaults to 3 and [delay] to 5. *)
Definition _fetch_data_uncached (download : nat -> Download) (retries delay : nat)
  : Frame Q * nat :=
  fetch_loop download retries delay retries 0.

(* ------------------------------------------------------------------ *)
(** ** Sub-industry indices *)

Open Scope string_scope.

(** One row of the universe table; a cell of the two columns the builder
    cleans may be missing. *)
Record UniverseRow : Type := mkUniverse
  { Ticker : option string;
    Sector : string;
    SubIndustry : option string;
    SectorIndex : string }.

(** [d.get(key, pd.DataFrame())] on a dict of frames. *)
Definition dict_get {V : Type} (key : string) (d : Family V) : Frame V :=
  match find (fun kv => String.eqb (fst kv) key) d with
  | Some kv => snd kv
  | None => []
  end.

(** [s.dropna()] on a column of strings. *)
Definition dropna_strings (cells : list (option string)) : list string :=
  flat_map (fun c => match c with Some v => [v] | None => [] end) cells.

(** [s.unique()]: the values in order of first appearance. *)
Fixpoint unique (l : list string) : list string :=
  match l with
  | [] => []
  | x :: r => x :: filter (fun y => negb (String.eqb x y)) (unique r)
  end.

Fixpoint insert_key (k : string) (l : list string) : list string :=
  match l with
  | [] => [k]
  | x :: r => if String.leb k x then k :: l else x :: insert_key k r
  end.

(** The keys of [groupby]: the distinct values present, sorted. *)
Definition group_keys (cells : list (option string)) : list string :=
  fold_right insert_key [] (unique (dropna_strings cells)).

(** The chunk of one group: its rows, in the order of the table. *)
Definition group_chunk (universe : list UniverseRow) (sub : string)
  : list UniverseRow :=
  filter (fun r => match SubIndustry r with
                   | Some v => String.eqb v sub
                   | None => false
                   end) universe.

(** The dict of member frames of one sub-industry, keyed by ticker. *)
Definition sub_members (universe : list UniverseRow) (ohlc_map : Family Q)
    (sub : string) : Family Q :=
  let chunk := group_chunk universe sub in
  let tickers := unique (dropna_strings (List.map Ticker chunk)) in
  List.map (fun t => (t, dict_get t ohlc_map)) tickers.

(** Build synthetic OHLC series for each SubIndustry. *)
Definition build_subindustry_indices (universe : list UniverseRow)
    (ohlc_map : Family Q) : Family Q :=
  flat_map (fun sub =>
              let idx_df := ew_index_from_members
                              (sub_members universe ohlc_map sub) 100 in
              if negb (empty idx_df) then [(sub, idx_df)] else [])
           (group_keys (List.map SubIndustry universe)).

(* ------------------------------------------------------------------ *)
(** ** Latest labels *)

(** A value of the summary record: a string, or a float (NaN included). *)
Inductive PyValue : Type :=
| VStr (s : string)
| VFloat (x : float).

(** A label cell read out of a frame: the label, or NaN. *)
Definition label_value (l : option string) : PyValue :=
  match l with
  | Some s => VStr s
  | None => VFloat nan
  end.

(** The summary record: a dict, in insertion order. *)
Definition Summary : Type := list (string * PyValue).

(** [frame.iloc[-1]] of a regime frame that is not empty. *)
Definition last_regime_row (rf : RegimeFrame) : RegimeRow :=
  snd (last rf (0%Z, nan_row)).

(** The three label entries a timeframe adds, under its key prefix. *)
Definition timeframe_entries (prefix : string) (rf : RegimeFrame) : Summary :=
  if negb (empty rf)
  then [ (prefix ++ "Macro", label_value (Macro (last_regime_row rf)));
         (prefix ++ "Micro", label_value (Micro (last_regime_row rf)));
         (prefix ++ "Transition", label_value (Transition (last_regime_row rf))) ]
  else [].

(** Latest values across Yearly, Weekly, Daily and Session regimes.  The
    session frame is optional: [None] is the argument left out. *)
Definition compute_latest_labels (entity : string) (y w d : RegimeFrame)
    (s : option (list SessionRow)) : Summary :=
  ([("Entity", VStr entity)]
   ++ (if negb (empty y)
       then timeframe_entries "" y
            ++ [("Close", VFloat (rClose (last_regime_row y)))]
       else [])
   ++ timeframe_entries "Weekly" w
   ++ timeframe_entries "Daily" d
   ++ match s with
      | Some (r :: rs) =>
          let last_ := last (r :: rs) r in
          [ ("Session", VStr (Session last_));
            ("SessionMacro", VStr (sMacro last_));
            ("SessionMicro", VStr (sMicro last_));
            ("SessionTransition", VStr (sTransition last_)) ]
      | _ => []
      end)%list.

(** [row[key]] on the summary record. *)
Definition summary_get (key : string) (row : Summary) : option PyValue :=
  option_map snd (find (fun kv => String.eqb (fst kv) key) row).

Section RegimeTable.

Variable infer_freq : list Z -> Inferred.
Variable utc_offset : string -> Z -> Z.

(** The body of the summary loop of the dashboard for one entity: the four
    classifiers with their default arguments, then the latest labels.
    [None] is the exception of the session classifier. *)
Definition entity_labels (name : string) (df : Frame Q) : option Summary :=
  let y := classify_regime df ATR_PERIOD in
  let w := classify_weekly_regime df 14 in
  let d := classify_daily_regime df 14 in
  match classify_session_regimes infer_freq utc_offset df 5 10 14 (1 # 2)
                                 "America/New_York" with
  | Some s => Some (compute_latest_labels name y w d (Some s))
  | None => None
  end.

(** The summary loop: one record per entity whose frame is not empty, in
    the order of the dict; an exception ends the loop. *)
Fixpoint regime_rows (entities : Family Q) : option (list Summary) :=
  match entities with
  | [] => Some []
  | (name, df) :: rest =>
      if negb (empty df)
      then match entity_labels name df with
           | Some row =>
               match regime_rows rest with
               | Some rows => Some (row :: rows)
               | None => None
               end
           | None => None
           end
      else regime_rows rest
  end.

End RegimeTable.

Close Scope string_scope.

(** The composite against the VIX as the dashboard builds it: both series
    are cut to their common index before the division, and with no common
    label the result is the empty frame. *)
Definition comp_vs_vix (custom_mkt vix : Frame Q) : Frame Q :=
  let idx := index_intersection (index custom_mkt) (index vix) in
  if (0 <? length idx)%nat
  then ohlc_divide (loc idx custom_mkt) (loc idx vix)
  else [].

(* ------------------------------------------------------------------ *)
(** ** Vocabulary of the statements *)

(** The statistics of bar [i] for a trailing window of [w] bars. *)
Definition close_at (df : Frame Q) (i : nat) : Q := nth i (column Close df) 0.
Definition hi_at (w : nat) (df : Frame Q) (i : nat) : Q :=
  qmax_list (window w i (column High df)).
Definition lo_at (w : nat) (df : Frame Q) (i : nat) : Q :=
  qmin_list (window w i (column Low df)).
Definition mid_at (w : nat) (df : Frame Q) (i : nat) : Q :=
  (hi_at w df i + lo_at w df i) / 2.

(** The ATR of bar [i]: the mean true range of the last [period] bars, of
    all the bars so far when there are fewer. *)
Definition atr_at (period : nat) (df : Frame Q) (i : nat) : Q :=
  qmean (window (Nat.min period (i + 1)) i (true_ranges df)).

(** The simple moving average of the [n] closes ending at bar [i],
    undefined while fewer than [n] bars exist. *)
Definition sma (n : nat) (df : Frame Q) (i : nat) : float :=
  if (n <=? i + 1)%nat then Some (qmean (window n i (column Close df))) else nan.

(** The row a timeframe of window [w] gives to a bar whose window is full. *)
Definition expected_row (w atr_len : nat) (df : Frame Q) (i : nat) : RegimeRow :=
  let close := Some (close_at df i) in
  let hi := Some (hi_at w df i) in
  let lo := Some (lo_at w df i) in
  let mid := Some (mid_at w df i) in
  let macro := _classify_macro close hi lo mid in
  mkRow (Some macro)
        (Some (_classify_micro (column Close (iloc_upto (i + 1) df))
                               FAST_LEN SLOW_LEN macro))
        (Some (_classify_transition close hi lo mid (Some (atr_at atr_len df i))
                                    NEAR_THRESH_ATR))
        close hi lo mid.

(** A row is classified when its macro cell holds a label. *)
Definition is_classified (r : Z * RegimeRow) : bool :=
  match Macro (snd r) with Some _ => true | None => false end.

Definition classified (rf : RegimeFrame) : RegimeFrame := filter is_classified rf.

Open Scope string_scope.

(** The macro rule of the specification, read top to bottom. *)
Definition macro_rule (close hi lo mid : Q) (label : string) : Prop :=
  (mid < close -> hi < close -> label = "Strong Bull") /\
  (mid < close -> ~ hi < close -> label = "Weak Bull") /\
  (~ mid < close -> close < mid -> close < lo -> label = "Strong Bear") /\
  (~ mid < close -> close < mid -> ~ close < lo -> label = "Weak Bear") /\
  (~ mid < close -> ~ close < mid -> label = "Neutral").

(** The transition rule of the specification: rules (a) to (d) in
    priority order, [thr] being the near threshold in ATR units. *)
Definition transition_rule (close hi lo mid atr_val thr : Q) (label : string) : Prop :=
  (atr_val <= 0 -> label = "None") /\
  (0 < atr_val ->
   let dist_hi := (hi - close) / atr_val in
   let dist_lo := (close - lo) / atr_val in
   let a := close < hi /\ mid < close /\ dist_hi < thr in
   let b := hi < close /\ dist_hi < thr in
   let c := lo < close /\ close < mid /\ dist_lo < thr in
   let d := close < lo /\ dist_lo < thr in
   (a -> label = "Approaching Weak Bull") /\
   (~ a -> b -> label = "Approaching Strong Bull") /\
   (~ a -> ~ b -> c -> label = "Approaching Weak Bear") /\
   (~ a -> ~ b -> ~ c -> d -> label = "Approaching Strong Bear") /\
   (~ a -> ~ b -> ~ c -> ~ d -> label = "None")).

Definition bull_variant (macro : string) : Prop :=
  macro = "Strong Bull" \/ macro = "Weak Bull".

Definition bear_variant (macro : string) : Prop :=
  macro = "Strong Bear" \/ macro = "Weak Bear".

(** The micro rule of the specification on the two moving averages; a
    comparison with an undefined average does not hold. *)
Definition micro_rule (macro : string) (fast slow : float) (label : string) : Prop :=
  (bull_variant macro ->
   (gt fast slow = true -> label = "Micro Bull+") /\
   (gt fast slow = false -> label = "Micro Bear")) /\
  (bear_variant macro ->
   (lt fast slow = true -> label = "Micro Bear") /\
   (lt fast slow = false -> label = "Micro Bull")) /\
  (macro = "Neutral" -> label = "Neutral").

(** A frame [rf] over the bars of [df] is gated by a window of [w] bars:
    a bar before the window is full carries the NaN tuple, a bar from
    there on is classified, and so [rf] has no classified bar when [df] is
    shorter than the window. *)
Definition window_gated (w : nat) (df : Frame Q) (rf : RegimeFrame) : Prop :=
  (forall i, (i < length df)%nat ->
      exists t row,
        nth_error rf i = Some (t, row)
        /\ ((i + 1 < w)%nat -> row = nan_row /\ is_classified (t, row) = false)
        /\ ((w <= i + 1)%nat -> is_classified (t, row) = true))
  /\ length (classified rf) = (length df - (w - 1))%nat
  /\ ((length df < w)%nat -> classified rf = []).

(** No field of the bar is zero. *)
Definition nonzero_bar (b : Bar Q) : Prop :=
  ~ Open b == 0 /\ ~ High b == 0 /\ ~ Low b == 0 /\ ~ Close b == 0.

(** Every field of the bar is 1. *)
Definition unit_bar (b : Bar Q) : Prop :=
  Open b == 1 /\ High b == 1 /\ Low b == 1 /\ Close b == 1.

(** The inferred frequency is one of the daily-or-coarser codes the
    session classifier tests for. *)
Definition coarse_frequency (f : Inferred) : Prop :=
  exists code, f = InferFreq code /\ In code coarse_codes.

(** The bars of local day [d] inside one session window. *)
Definition day_session_frame (utc_offset : string -> Z -> Z)
    (tz start end_ : string) (d : Z) (df : Frame Q) : Frame Q :=
  filter (fun r => Z.eqb (local_day utc_offset tz (fst r)) d)
         (session_frame utc_offset tz start end_ df).

(** The reading "one snapshot per session window per day": each day with
    bars in a session window has a snapshot of that session whose hi and lo
    are the extremes of that day's window alone. *)
Definition snapshot_per_day (utc_offset : string -> Z -> Z) (tz : string)
    (df : Frame Q) (rows : list SessionRow) : Prop :=
  forall name start end_ d,
    In (name, (start, end_)) sessions ->
    day_session_frame utc_offset tz start end_ d df <> [] ->
    exists row,
      In row rows /\ Session row = name
      /\ sHi row = Some (qmax_list
                           (column High (day_session_frame utc_offset tz start end_ d df)))
      /\ sLo row = Some (qmin_list
                           (column Low (day_session_frame utc_offset tz start end_ d df))).

(** What the classifier does: one snapshot per session window over the
    whole series.  [sess] is every bar of the series, whatever its day,
    whose local time of day falls in the window. *)
Definition snapshot_of_session (sess : Frame Q) (row : SessionRow) : Prop :=
  sHi row = Some (qmax_list (column High sess))
  /\ sLo row = Some (qmin_list (column Low sess))
  /\ sMid row = Some ((qmax_list (column High sess) + qmin_list (column Low sess)) / 2)
  /\ sClose row = Some (last (column Close sess) 0)
  /\ (forall t b, In (t, b) sess ->
         High b <= qmax_list (column High sess)
         /\ qmin_list (column Low sess) <= Low b)
  /\ In (qmax_list (column High sess)) (column High sess)
  /\ In (qmin_list (column Low sess)) (column Low sess).

(** 48 hourly bars over two days, prices falling by one each hour. *)
Definition hourly_two_days : Frame Q :=
  List.map (fun k => let p := inject_Z (200 - Z.of_nat k) in
                     ((60 * Z.of_nat k)%Z, mkBar p (p + 1) (p - 1) p))
           (seq 0 48).

(** Sample answers of the two pandas services: an hourly frequency, and
    New York five hours behind UTC. *)
Definition infer_hourly : list Z -> Inferred := fun _ => InferFreq "h".
Definition infer_daily : list Z -> Inferred := fun _ => InferFreq "D".
Definition offset_est : string -> Z -> Z := fun _ _ => (-300)%Z.

(** The frames the equal-weight index averages when its members share
    timestamps: each non-empty member restricted to the common index, then
    normalized to the base. *)
Definition aligned_members (ms : Family Q) (base : Q) : list (Frame Q) :=
  let members := filter non_empty ms in
  List.map (fun kv => normalize_ohlc
                        (dropna_rows (reindex (resync_index members) (snd kv))) base)
           members.

(** The frames it averages when they share none: each non-empty member
    normalized on its own timestamps. *)
Definition unaligned_members (ms : Family Q) (base : Q) : list (Frame Q) :=
  List.map (fun kv => normalize_ohlc (snd kv) base) (filter non_empty ms).

(** The values the frames hold under [col] at label [t], one per frame
    that has the label. *)
Definition values_at (col : Bar Q -> Q) (t : Z) (frames : list (Frame Q)) : list Q :=
  present (row_cells col (List.map (lookup t) frames)).

(** Each field of [b] is the arithmetic mean, across the frames that have
    label [t], of their values for that field. *)
Definition mean_bar (t : Z) (frames : list (Frame Q)) (b : Bar Q) : Prop :=
  Open b == qmean (values_at Open t frames)
  /\ High b == qmean (values_at High t frames)
  /\ Low b == qmean (values_at Low t frames)
  /\ Close b == qmean (values_at Close t frames).

(** The averaging step of [ew_index_from_members] on its prepared frames. *)
Definition ew_average (frames : list (Frame Q)) : Frame Q :=
  let k := length frames in
  dropna (List.map
            (fun r => (fst r, mkBar (ew_mean Open k (snd r)) (ew_mean High k (snd r))
                                    (ew_mean Low k (snd r)) (ew_mean Close k (snd r))))
            (concat_columns frames)).

(** Two members with no timestamp in common. *)
Definition disjoint_members : Family Q :=
  [ ("a"%string, [(1%Z, mkBar 9 10 8 9); (2%Z, mkBar 12 12 8 12)]);
    ("b"%string, [(5%Z, mkBar 15 20 10 15)]) ].

(** Two members sharing the timestamp 2. *)
Definition overlapping_members : Family Q :=
  [ ("a"%string, [(1%Z, mkBar 9 10 8 9); (2%Z, mkBar 12 12 8 12)]);
    ("b"%string, [(2%Z, mkBar 15 20 10 15); (3%Z, mkBar 12 12 8 12)]) ].

(** The values the members of a family hold under [col] at label [t]. *)
Definition member_values (col : Bar R -> R) (t : Z) (data : Family R) : list R :=
  flat_map (fun kv => match lookup t (snd kv) with
                      | Some b => [col b]
                      | None => []
                      end) data.

Definition rsum (xs : list R) : R := fold_right Rplus 0%R xs.

(** The arithmetic mean of the natural logs. *)
Definition log_mean (xs : list R) : R :=
  (rsum (List.map ln xs) / INR (length xs))%R.

(** The composite cell computed from the members' values. *)
Definition geo_of (vals : list R) : xfloat :=
  np_exp (xmean_skipna (List.map np_log (List.map XFin vals))).

Definition geo_bar (t : Z) (data : Family R) : Bar xfloat :=
  mkBar (geo_of (member_values Open t data)) (geo_of (member_values High t data))
        (geo_of (member_values Low t data)) (geo_of (member_values Close t data)).

(** Each field of [b] is the exponential of the mean log of the members'
    values for that field at [t]. *)
Definition geometric_bar (t : Z) (data : Family R) (b : Bar xfloat) : Prop :=
  Open b = XFin (exp (log_mean (member_values Open t data)))
  /\ High b = XFin (exp (log_mean (member_values High t data)))
  /\ Low b = XFin (exp (log_mean (member_values Low t data)))
  /\ Close b = XFin (exp (log_mean (member_values Close t data))).

Definition positive_bar (b : Bar R) : Prop :=
  (0 < Open b /\ 0 < High b /\ 0 < Low b /\ 0 < Close b)%R.

(** A provider whose every ticker has one bar, with a zero open. *)
Definition fetch_zero_open : string -> Frame R :=
  fun _ => [(1%Z, mkBar 0%R 1%R 1%R 1%R)].

(** A provider whose every ticker has one bar of positive prices. *)
Definition fetch_positive : string -> Frame R :=
  fun _ => [(1%Z, mkBar 2%R 3%R 1%R 2%R)].

(** The three bar-count timeframes of one series, each with its window
    and its ATR period. *)
Definition timeframes (df : Frame Q) (atr_y atr_w atr_d : nat)
  : list (nat * nat * RegimeFrame) :=
  [ (YEARLY_RANGE_DAYS, atr_y, classify_regime df atr_y);
    (5%nat, atr_w, classify_weekly_regime df atr_w);
    (1%nat, atr_d, classify_daily_regime df atr_d) ].

(** The 29-bar scenario: 28 bars of range 8..10, then a bar with high 12
    closing at [c]. *)
Definition scenario_frame (c : Q) : Frame Q :=
  combine (List.map Z.of_nat (seq 0 29))
          (repeat (mkBar 9 10 8 9) 28 ++ [mkBar 11 12 8 c]).

Close Scope string_scope.

(** Every bar closes inside its own range. *)
Definition well_formed_series (df : Frame Q) : Prop :=
  forall t b, In (t, b) df -> Low b <= Close b /\ Close b <= High b.

(** Every bar has its high, low and close at the one price [c]. *)
Definition flat_series (c : Q) (df : Frame Q) : Prop :=
  forall t b, In (t, b) df -> High b = c /\ Low b = c /\ Close b = c.

(** Thirty bars at the price 7. *)
Definition flat_frame : Frame Q :=
  combine (List.map Z.of_nat (seq 0 30)) (repeat (mkBar 7 7 7 7) 30).

(** Every bar has its low at or under its high. *)
Definition ranged_series (df : Frame Q) : Prop :=
  forall t b, In (t, b) df -> Low b <= High b.

(** Two bars, two frames with equal prices field by field. *)
Definition bar_eq (a b : Bar Q) : Prop :=
  Open a == Open b /\ High a == High b /\ Low a == Low b /\ Close a == Close b.

Definition frame_eq (f g : Frame Q) : Prop :=
  Forall2 (fun r r' => fst r = fst r' /\ bar_eq (snd r) (snd r')) f g.

(** The denominator has a bar at [t] and none of its prices is zero. *)
Definition divisible (denom : Frame Q) (t : Z) : bool :=
  match lookup t denom with
  | Some b => negb (Qeq_bool (Open b) 0) && negb (Qeq_bool (High b) 0)
              && negb (Qeq_bool (Low b) 0) && negb (Qeq_bool (Close b) 0)
  | None => false
  end.

(** The field-by-field quotient of two bars. *)
Definition quotient_bar (n d : Bar Q) : Bar Q :=
  mkBar (Open n / Open d) (High n / High d) (Low n / Low d) (Close n / Close d).

(** A series and a denominator sharing two of three timestamps, one of
    them with a zero price. *)
Definition ratio_numer : Frame Q :=
  [(1%Z, mkBar 9 10 8 9); (2%Z, mkBar 12 12 8 12); (3%Z, mkBar 6 8 4 6)].
Definition ratio_denom : Frame Q :=
  [(2%Z, mkBar 3 4 2 3); (3%Z, mkBar 3 0 2 3); (4%Z, mkBar 1 1 1 1)].

(** Two members holding the same series, and one empty member. *)
Definition twin_members : Family Q :=
  [ ("a"%string, ratio_numer); ("empty"%string, []);
    ("b"%string, ratio_numer) ].

(** The row a timeframe of window [w] gives to the last bar of [df]. *)
Definition latest_row (w atr_len : nat) (df : Frame Q) : RegimeRow :=
  if (w <=? length df)%nat then expected_row w atr_len df (length df - 1)
  else nan_row.

(** The entities the summary loop classifies. *)
Definition listed (entities : Family Q) : Family Q := filter non_empty entities.

(** A table of three entities: one with no data between two with 30 flat
    bars. *)
Definition sample_entities : Family Q :=
  [ ("Composite Market"%string, flat_frame); ("Composite / VIX"%string, []);
    ("Dow / Market"%string, flat_frame) ].

(** An answer of the provider the fetch returns from: a frame that is
    not empty and has the four price columns. *)
Definition usable (d : Download) : bool :=
  match d with
  | DFrame has_ohlc rows => negb (empty rows) && has_ohlc
  | DRaises => false
  end.

Definition raised (d : Download) : bool :=
  match d with DRaises => true | DFrame _ _ => false end.

(** What the fetch returns from a usable answer. *)
Definition payload (d : Download) : Frame Q :=
  match d with DFrame _ rows => dropna rows | DRaises => [] end.

(** The number of exceptions among the first [k] calls. *)
Definition raises_before (download : nat -> Download) (k : nat) : nat :=
  length (filter (fun j => raised (download j)) (seq 0 k)).

(** A provider that raises, then answers with an empty frame, then with
    two bars of which the first lacks its low. *)
Definition flaky_download (attempt : nat) : Download :=
  match attempt with
  | O => DRaises
  | S O => DFrame true []
  | _ => DFrame true [ (1%Z, mkBar (Some 9) (Some 10) nan (Some 9));
                       (2%Z, mkBar (Some 12) (Some 12) (Some 8) (Some 12)) ]
  end.

(** A provider that raises at every call. *)
Definition failing_download (attempt : nat) : Download := DRaises.

(** The four price fields of a bar. *)
Inductive Field : Type := FOpen | FHigh | FLow | FClose.

Definition field_of {V : Type} (f : Field) (b : Bar V) : V :=
  match f with
  | FOpen => Open b
  | FHigh => High b
  | FLow => Low b
  | FClose => Close b
  end.

(** Two cells that are finite numbers, in order. *)
Definition xle (a b : xfloat) : Prop :=
  exists x y, a = XFin x /\ b = XFin y /\ (x <= y)%R.

(** A bar opens and closes inside its range. *)
Definition well_formed_bar (m : Bar R) : Prop :=
  (Low m <= Open m <= High m /\ Low m <= Close m <= High m)%R.

Definition xwell_formed_bar (b : Bar xfloat) : Prop :=
  xle (Low b) (Open b) /\ xle (Open b) (High b)
  /\ xle (Low b) (Close b) /\ xle (Close b) (High b).

(** The session a local minute of the day belongs to, if any. *)
Definition session_at (m : Z) : option string :=
  (if (240 <=? m) && (m <? 300) then Some "Asia"
   else if (540 <=? m) && (m <? 600) then Some "London"
   else if (720 <=? m) && (m <? 780) then Some "NY AM"
   else if (780 <=? m) && (m <? 840) then Some "NY PM"
   else None)%Z%string.

(** The London snapshot of the two hourly days, with the default
    arguments of the session classifier. *)
Definition london_snapshot : SessionRow :=
  session_row "London"
              (session_frame offset_est "America/New_York" "09:00" "10:00"
                             hourly_two_days)
              5 10 (iloc_last (atr hourly_two_days 14)) (1 # 2).

(** No bar of the series falls in one of the four session hours of New
    York local time. *)
Definition outside_sessions (utc_offset : string -> Z -> Z) (df : Frame Q) : Prop :=
  forall t b,
    In (t, b) df ->
    session_at (local_minutes utc_offset "America/New_York" t mod 1440) = None.

(** A series sampled daily or coarser: consecutive bars are at least a
    day, 1440 minutes, apart. *)
Fixpoint daily_or_coarser (idx : list Z) : bool :=
  match idx with
  | t :: rest =>
      match rest with
      | u :: _ => (t + 1440 <=? u)%Z && daily_or_coarser rest
      | [] => true
      end
  | [] => true
  end.

(** Four weekly bars, stamped on four Mondays in a row at 14:30 UTC, which
    is 09:30 in New York. *)
Definition weekly_mondays : Frame Q :=
  List.map (fun k => ((6630 + 10080 * Z.of_nat k)%Z,
                      mkBar 100 (101 + inject_Z (Z.of_nat k)) 99 100))
           (seq 0 4).

(** Two daily bars, stamped at midnight UTC. *)
Definition two_daily_bars : Frame Q :=
  [(0%Z, mkBar 9 10 8 9); (1440%Z, mkBar 9 11 8 10)].

(** The same with a third daily bar. *)
Definition three_daily_bars : Frame Q :=
  (two_daily_bars ++ [(2880%Z, mkBar 9 10 8 9)])%list.

Definition evenly_spaced (step : Z) (idx : list Z) : bool :=
  forallb (fun p => Z.eqb (snd p - fst p) step) (combine idx (tl idx)).

(** The day of the week of an instant, as pandas abbreviates it; the epoch
    was a Thursday. *)
Definition weekday (t : Z) : string :=
  nth (Z.to_nat ((t / 1440 + 3) mod 7))
      ["MON"; "TUE"; "WED"; "THU"; "FRI"; "SAT"; "SUN"]%string ""%string.

(** Sample answers of [pd.infer_freq], as pandas gives them: it raises
    under three timestamps; timestamps a day apart get the code D;
    timestamps a week apart get the weekly code anchored on their day of
    the week, W-MON for Mondays; the other indexes of this sample get no
    frequency. *)
Definition infer_sampled (idx : list Z) : Inferred :=
  if (length idx <? 3)%nat then InferRaises
  else if evenly_spaced 1440 idx then InferFreq "D"
  else if evenly_spaced 10080 idx then InferFreq ("W-" ++ weekday (hd 0%Z idx))
  else InferNone.

(* ================================================================== *)
(** * Properties of the classifiers *)

Section ListFacts.

Context {A : Type}.

Lemma nth_error_map_seq (f : nat -> A) (n i : nat) :
  (i < n)%nat -> nth_error (List.map f (seq 0 n)) i = Some (f i).
Proof.
  intros Hi. rewrite nth_error_map, nth_error_seq.
  destruct (Nat.ltb_spec i n) as [_ | Hge]; [reflexivity | lia].
Qed.

Lemma nth_error_labelled (f : nat -> A) (idx : list Z) (i : nat) :
  (i < length idx)%nat ->
  nth_error (combine idx (List.map f (seq 0 (length idx)))) i
  = Some (nth i idx 0%Z, f i).
Proof.
  intros Hi.
  assert (Hl : (i < length (combine idx (List.map f (seq 0 (length idx)))))%nat).
  { rewrite length_combine, length_map, length_seq. lia. }
  rewrite (nth_error_nth' _ (0%Z, f i) Hl).
  rewrite combine_nth by (rewrite length_map, length_seq; reflexivity).
  f_equal. f_equal.
  apply nth_error_nth. apply nth_error_map_seq. exact Hi.
Qed.

Lemma some_pair_inj (B : Type) (a c : B) (b d : A) :
  Some (a, b) = Some (c, d) -> a = c /\ b = d.
Proof. intros H. split; congruence. Qed.

Lemma window_prefix (n i : nat) (xs : list A) :
  (n <= i + 1)%nat ->
  window n i (firstn (i + 1) xs) = window n i xs.
Proof.
  intros Hn. unfold window.
  rewrite skipn_firstn_comm, firstn_firstn.
  f_equal. lia.
Qed.

End ListFacts.

Section RollingFacts.

Lemma length_column (V : Type) (col : Bar V -> V) (df : Frame V) :
  length (column col df) = length df.
Proof. apply length_map. Qed.

Lemma length_index (V : Type) (df : Frame V) : length (index df) = length df.
Proof. apply length_map. Qed.

Lemma iloc_rolling (w : nat) (agg : list Q -> Q) (xs : list Q) (i : nat) :
  (i < length xs)%nat ->
  iloc (rolling w agg xs) i
  = if (w <=? i + 1)%nat then Some (agg (window w i xs)) else nan.
Proof.
  intros Hi. unfold iloc, rolling. apply nth_error_nth.
  apply (nth_error_map_seq
           (fun i => if (w <=? i + 1)%nat then Some (agg (window w i xs)) else nan)).
  exact Hi.
Qed.

Lemma iloc_rolling_min1 (w : nat) (agg : list Q -> Q) (xs : list Q) (i : nat) :
  (i < length xs)%nat ->
  iloc (rolling_min1 w agg xs) i = Some (agg (window (Nat.min w (i + 1)) i xs)).
Proof.
  intros Hi. unfold iloc, rolling_min1. apply nth_error_nth.
  apply (nth_error_map_seq
           (fun i => Some (agg (window (Nat.min w (i + 1)) i xs)))).
  exact Hi.
Qed.

Lemma iloc_last_rolling (w : nat) (agg : list Q -> Q) (xs : list Q) (n : nat) :
  length xs = S n ->
  iloc_last (rolling w agg xs)
  = if (w <=? n + 1)%nat then Some (agg (window w n xs)) else nan.
Proof.
  intros Hl. unfold iloc_last, rolling.
  rewrite Hl, seq_S, map_app. simpl. apply last_last.
Qed.

Lemma iloc_some (xs : list Q) (i : nat) :
  (i < length xs)%nat -> iloc (List.map Some xs) i = Some (nth i xs 0).
Proof.
  intros Hi. unfold iloc. apply nth_error_nth.
  rewrite nth_error_map, (nth_error_nth' xs 0 Hi). reflexivity.
Qed.

Lemma iloc_midline (hi lo : list float) (i : nat) :
  length hi = length lo -> (i < length hi)%nat ->
  iloc (midline hi lo) i = div (add (iloc hi i) (iloc lo i)) (Some 2%Q).
Proof.
  intros Hl Hi. unfold iloc, midline.
  apply nth_error_nth. rewrite nth_error_map.
  assert (Hc : (i < length (combine hi lo))%nat)
    by (rewrite length_combine; lia).
  rewrite (nth_error_nth' _ (nan, nan) Hc), combine_nth by exact Hl.
  reflexivity.
Qed.

Lemma length_rolling (w : nat) (agg : list Q -> Q) (xs : list Q) :
  length (rolling w agg xs) = length xs.
Proof. unfold rolling. rewrite length_map, length_seq. reflexivity. Qed.

Lemma length_true_ranges (df : Frame Q) : length (true_ranges df) = length df.
Proof.
  unfold true_ranges, shift, bars.
  rewrite length_map, length_combine, length_map, length_firstn.
  simpl. rewrite length_map, length_column. lia.
Qed.

Lemma iloc_atr (df : Frame Q) (period i : nat) :
  (i < length df)%nat -> iloc (atr df period) i = Some (atr_at period df i).
Proof.
  intros Hi. unfold atr, atr_at.
  destruct df as [| r df']; [simpl in Hi; lia |].
  cbv beta iota delta [empty].
  apply iloc_rolling_min1. rewrite length_true_ranges. exact Hi.
Qed.

(** The row built for a bar whose window is full. *)
Lemma classified_row_expected (w atr_len : nat) (df : Frame Q) (i : nat) :
  (i < length df)%nat -> (w <= i + 1)%nat ->
  classified_row df (rolling w qmax_list (column High df))
                 (rolling w qmin_list (column Low df))
                 (midline (rolling w qmax_list (column High df))
                          (rolling w qmin_list (column Low df)))
                 (atr df atr_len) i
  = expected_row w atr_len df i.
Proof.
  intros Hi Hw. unfold classified_row, expected_row.
  rewrite iloc_midline
    by (rewrite !length_rolling, ?length_column; auto).
  rewrite !iloc_rolling by (rewrite length_column; exact Hi).
  rewrite iloc_some by (rewrite length_column; exact Hi).
  rewrite iloc_atr by exact Hi.
  apply Nat.leb_le in Hw. rewrite Hw.
  reflexivity.
Qed.

Lemma windowed_rows_nth (w atr_len : nat) (df : Frame Q) (i : nat) :
  (i < length df)%nat ->
  nth_error (windowed_rows w atr_len df) i
  = Some (nth i (index df) 0%Z,
          if (w <=? i + 1)%nat then expected_row w atr_len df i else nan_row).
Proof.
  intros Hi. unfold windowed_rows.
  destruct df as [| r df'] eqn:Edf; [simpl in Hi; lia |].
  cbv beta iota delta [empty]. rewrite <- Edf in *.
  rewrite <- (length_index df).
  rewrite nth_error_labelled by (rewrite length_index; exact Hi).
  f_equal. f_equal.
  rewrite !iloc_rolling by (rewrite length_column; exact Hi).
  destruct (w <=? i + 1)%nat eqn:Hw; [| reflexivity].
  cbv beta iota delta [isna orb].
  apply classified_row_expected; [exact Hi | apply Nat.leb_le; exact Hw].
Qed.

Lemma daily_rows_nth (atr_len : nat) (df : Frame Q) (i : nat) :
  (i < length df)%nat ->
  nth_error (classify_daily_regime df atr_len) i
  = Some (nth i (index df) 0%Z, expected_row 1 atr_len df i).
Proof.
  intros Hi. unfold classify_daily_regime.
  destruct df as [| r df'] eqn:Edf; [simpl in Hi; lia |].
  cbv beta iota delta [empty]. rewrite <- Edf in *.
  rewrite <- (length_index df).
  rewrite nth_error_labelled by (rewrite length_index; exact Hi).
  f_equal. f_equal.
  apply classified_row_expected; [exact Hi | lia].
Qed.

End RollingFacts.

Section FloatFacts.

Lemma Qltb_lt (a b : Q) : Qltb a b = true <-> a < b.
Proof.
  unfold Qltb. rewrite negb_true_iff, <- not_true_iff_false, Qle_bool_iff.
  split; [apply Qnot_le_lt | apply Qlt_not_le].
Qed.

Lemma Qltb_nlt (a b : Q) : Qltb a b = false <-> ~ a < b.
Proof. rewrite <- Qltb_lt. symmetry. apply not_true_iff_false. Qed.

Lemma lt_some (a b : Q) : lt (Some a) (Some b) = Qltb a b.
Proof. reflexivity. Qed.

Lemma gt_some (a b : Q) : gt (Some a) (Some b) = Qltb b a.
Proof. reflexivity. Qed.



End FloatFacts.

(** Decides a [Qltb] test in the goal from the order facts at hand. *)
Ltac decide_Qltb a b :=
  let H := fresh "Hcmp" in
  destruct (Qltb a b) eqn:H;
  [ apply Qltb_lt in H | apply Qltb_nlt in H ].

Section TimeframeFacts.

Lemma windowed_rows_length (w atr_len : nat) (df : Frame Q) :
  length (windowed_rows w atr_len df) = length df.
Proof.
  unfold windowed_rows. destruct df; [reflexivity |].
  cbv beta iota delta [empty].
  rewrite length_combine, length_map, length_seq, length_index. lia.
Qed.

Lemma daily_rows_length (atr_len : nat) (df : Frame Q) :
  length (classify_daily_regime df atr_len) = length df.
Proof.
  unfold classify_daily_regime. destruct df; [reflexivity |].
  cbv beta iota delta [empty].
  rewrite length_combine, length_map, length_seq, length_index. lia.
Qed.

(** Every row of a timeframe of window [w] is the NaN tuple while the
    window is not full and the expected row from there on. *)
Lemma timeframe_row (df : Frame Q) (atr_y atr_w atr_d w a : nat) (rf : RegimeFrame)
    (i : nat) (t : Z) (row : RegimeRow) :
  In (w, a, rf) (timeframes df atr_y atr_w atr_d) ->
  nth_error rf i = Some (t, row) ->
  (i < length df)%nat
  /\ row = if (w <=? i + 1)%nat then expected_row w a df i else nan_row.
Proof.
  intros Hrf Hnth.
  assert (Hi : (i < length rf)%nat)
    by (apply nth_error_Some; congruence).
  destruct Hrf as [Heq | [Heq | [Heq | []]]];
    apply pair_equal_spec in Heq; destruct Heq as [Heq <-];
    apply pair_equal_spec in Heq; destruct Heq as [<- <-].
  - unfold classify_regime in *. rewrite windowed_rows_length in Hi.
    rewrite windowed_rows_nth in Hnth by exact Hi.
    apply some_pair_inj in Hnth. destruct Hnth as [_ <-]. auto.
  - unfold classify_weekly_regime in *. rewrite windowed_rows_length in Hi.
    rewrite windowed_rows_nth in Hnth by exact Hi.
    apply some_pair_inj in Hnth. destruct Hnth as [_ <-]. auto.
  - rewrite daily_rows_length in Hi.
    rewrite daily_rows_nth in Hnth by exact Hi.
    apply some_pair_inj in Hnth. destruct Hnth as [_ <-].
    split; [exact Hi |]. destruct (Nat.leb_spec 1 (i + 1)); [reflexivity | lia].
Qed.

Lemma classified_timeframe_row (df : Frame Q) (atr_y atr_w atr_d w a : nat)
    (rf : RegimeFrame) (i : nat) (t : Z) (row : RegimeRow) :
  In (w, a, rf) (timeframes df atr_y atr_w atr_d) ->
  nth_error rf i = Some (t, row) ->
  is_classified (t, row) = true ->
  (i < length df)%nat /\ (w <= i + 1)%nat /\ row = expected_row w a df i.
Proof.
  intros Hrf Hnth Hc.
  destruct (@timeframe_row _ _ _ _ _ _ _ _ _ _ Hrf Hnth) as [Hi Hrow].
  destruct (Nat.leb_spec w (i + 1)) as [Hw | Hw].
  - auto.
  - subst row. discriminate Hc.
Qed.

End TimeframeFacts.

Section MacroFacts.

Open Scope string_scope.

Lemma classify_macro_rule (close hi lo mid : Q) :
  macro_rule close hi lo mid
             (_classify_macro (Some close) (Some hi) (Some lo) (Some mid)).
Proof.
  unfold macro_rule, _classify_macro. rewrite !gt_some, !lt_some.
  decide_Qltb mid close; decide_Qltb hi close;
    decide_Qltb close mid; decide_Qltb close lo;
    cbv beta iota delta [andb]; repeat split; intros;
    try reflexivity; contradiction.
Qed.

(** C1: the macro label of every classified bar of the yearly, weekly and
    daily frames is decided from the bar's close and the rolling-window hi,
    lo and mid = (hi+lo)/2 by the ordered rule StrongBull, WeakBull,
    StrongBear, WeakBear, Neutral; a close equal to mid is Neutral; in the
    29-bar scenario (hi = 12, lo = 8, mid = 10) a last close of 12 is
    WeakBull and one of 12.5 is StrongBull. *)
Theorem macro_decided_in_order :
  (forall close hi lo mid : Q,
      macro_rule close hi lo mid
                 (_classify_macro (Some close) (Some hi) (Some lo) (Some mid))
      /\ (close == mid ->
          _classify_macro (Some close) (Some hi) (Some lo) (Some mid) = "Neutral"))
  /\ (forall (df : Frame Q) (atr_y atr_w atr_d w a : nat) rf i t row,
         In (w, a, rf) (timeframes df atr_y atr_w atr_d) ->
         nth_error rf i = Some (t, row) ->
         is_classified (t, row) = true ->
         rClose row = Some (close_at df i)
         /\ Hi row = Some (hi_at w df i)
         /\ Lo row = Some (lo_at w df i)
         /\ Mid row = Some ((hi_at w df i + lo_at w df i) / 2)
         /\ exists label,
             Macro row = Some label
             /\ macro_rule (close_at df i) (hi_at w df i) (lo_at w df i)
                           ((hi_at w df i + lo_at w df i) / 2) label)
  /\ (forall (df : Frame Q) (atr_len : nat),
         column High df = (repeat 10 28 ++ [12])%list ->
         column Low df = repeat 8 29 ->
         exists t row,
           nth_error (classify_regime df atr_len) 28 = Some (t, row)
           /\ Hi row = Some 12 /\ Lo row = Some 8 /\ Mid row = Some ((12 + 8) / 2)
           /\ (close_at df 28 = 12 -> Macro row = Some "Weak Bull")
           /\ (close_at df 28 = 25 # 2 -> Macro row = Some "Strong Bull")).
Proof.
  split; [| split].
  - intros close hi lo mid. split; [apply classify_macro_rule |].
    intros Heq.
    destruct (classify_macro_rule close hi lo mid) as (_ & _ & _ & _ & Hn).
    apply Hn; rewrite Heq; apply Qlt_irrefl.
  - intros df atr_y atr_w atr_d w a rf i t row Hrf Hnth Hc.
    destruct (@classified_timeframe_row _ _ _ _ _ _ _ _ _ _ Hrf Hnth Hc) as (_ & _ & ->).
    unfold expected_row, mid_at. cbn [rClose Hi Lo Mid Macro].
    repeat split. eexists. split; [reflexivity | apply classify_macro_rule].
  - intros df atr_len Hhigh Hlow.
    assert (Hlen : length df = 29%nat).
    { rewrite <- (length_column High df), Hhigh. reflexivity. }
    exists (nth 28 (index df) 0%Z), (expected_row 28 atr_len df 28).
    unfold classify_regime.
    rewrite windowed_rows_nth by (rewrite Hlen; lia).
    split; [reflexivity |].
    unfold expected_row, mid_at, hi_at, lo_at. rewrite Hhigh, Hlow.
    cbn [Hi Lo Mid Macro].
    repeat split; try reflexivity; intros ->; reflexivity.
Qed.

Lemma macro_decided_in_order_witness :
  exists t row,
    nth_error (classify_regime (scenario_frame 12) ATR_PERIOD) 28 = Some (t, row)
    /\ Hi row = Some 12 /\ Lo row = Some 8 /\ Mid row = Some ((12 + 8) / 2)
    /\ (close_at (scenario_frame 12) 28 = 12 -> Macro row = Some "Weak Bull")
    /\ (close_at (scenario_frame 12) 28 = 25 # 2 -> Macro row = Some "Strong Bull").
Proof.
  apply (proj2 (proj2 macro_decided_in_order) (scenario_frame 12) ATR_PERIOD);
    reflexivity.
Defined.

End MacroFacts.

Section TransitionFacts.

Open Scope string_scope.

Lemma classify_transition_rule (close hi lo mid atr_val thr : Q) :
  transition_rule close hi lo mid atr_val thr
    (_classify_transition (Some close) (Some hi) (Some lo) (Some mid)
                          (Some atr_val) thr).
Proof.
  unfold transition_rule, _classify_transition.
  cbv beta iota delta [le cmp2 div sub lift2].
  rewrite !gt_some, !lt_some.
  destruct (Qle_bool atr_val 0) eqn:Hatr.
  - apply Qle_bool_iff in Hatr. split; [reflexivity |].
    intros Hpos. exfalso. apply (Qlt_not_le _ _ Hpos Hatr).
  - split.
    + intros Hle. apply Qle_bool_iff in Hle. congruence.
    + intros _. cbv zeta.
      set (dh := (hi - close) / atr_val). set (dl := (close - lo) / atr_val).
      assert (Ha : Qltb close hi && Qltb mid close && Qltb dh thr = true
                   <-> close < hi /\ mid < close /\ dh < thr)
        by (rewrite !andb_true_iff, !Qltb_lt; tauto).
      assert (Hb : Qltb hi close && Qltb dh thr = true
                   <-> hi < close /\ dh < thr)
        by (rewrite !andb_true_iff, !Qltb_lt; tauto).
      assert (Hc : Qltb lo close && Qltb close mid && Qltb dl thr = true
                   <-> lo < close /\ close < mid /\ dl < thr)
        by (rewrite !andb_true_iff, !Qltb_lt; tauto).
      assert (Hd : Qltb close lo && Qltb dl thr = true
                   <-> close < lo /\ dl < thr)
        by (rewrite !andb_true_iff, !Qltb_lt; tauto).
      destruct (Qltb close hi && Qltb mid close && Qltb dh thr);
        destruct (Qltb hi close && Qltb dh thr);
        destruct (Qltb lo close && Qltb close mid && Qltb dl thr);
        destruct (Qltb close lo && Qltb dl thr);
        repeat split; intros; try reflexivity; exfalso;
        intuition discriminate.
Qed.

(** C7: on every classified bar of the yearly, weekly and daily frames the
    transition label is computed from the bar's close, hi, lo, mid and ATR
    with the near threshold 1/2: None when the ATR is not positive,
    otherwise the first of the rules (a) to (d) that matches, None when
    none does. *)
Theorem transition_first_match :
  (forall close hi lo mid atr_val thr : Q,
      transition_rule close hi lo mid atr_val thr
        (_classify_transition (Some close) (Some hi) (Some lo) (Some mid)
                              (Some atr_val) thr))
  /\ (forall (df : Frame Q) (atr_y atr_w atr_d w a : nat) rf i t row,
         In (w, a, rf) (timeframes df atr_y atr_w atr_d) ->
         nth_error rf i = Some (t, row) ->
         is_classified (t, row) = true ->
         iloc (atr df a) i = Some (atr_at a df i)
         /\ exists label,
             Transition row = Some label
             /\ transition_rule (close_at df i) (hi_at w df i) (lo_at w df i)
                                (mid_at w df i) (atr_at a df i) (1 # 2) label).
Proof.
  split; [exact classify_transition_rule |].
  intros df atr_y atr_w atr_d w a rf i t row Hrf Hnth Hc.
  destruct (@classified_timeframe_row _ _ _ _ _ _ _ _ _ _ Hrf Hnth Hc) as (Hi & _ & ->).
  split; [apply iloc_atr; exact Hi |].
  eexists. split; [reflexivity | apply classify_transition_rule].
Qed.

Lemma transition_first_match_witness :
  iloc (atr (scenario_frame 12) ATR_PERIOD) 28
  = Some (atr_at ATR_PERIOD (scenario_frame 12) 28)
  /\ exists label,
      Transition (expected_row 28 ATR_PERIOD (scenario_frame 12) 28) = Some label
      /\ transition_rule (close_at (scenario_frame 12) 28)
                         (hi_at 28 (scenario_frame 12) 28)
                         (lo_at 28 (scenario_frame 12) 28)
                         (mid_at 28 (scenario_frame 12) 28)
                         (atr_at ATR_PERIOD (scenario_frame 12) 28) (1 # 2) label.
Proof.
  apply (proj2 transition_first_match (scenario_frame 12) ATR_PERIOD 14%nat 14%nat
               28%nat ATR_PERIOD (classify_regime (scenario_frame 12) ATR_PERIOD)
               28%nat 28%Z).
  - left. reflexivity.
  - reflexivity.
  - reflexivity.
Defined.

End TransitionFacts.

(** Evaluates the substring tests on literal labels. *)
Ltac eval_str_in :=
  repeat match goal with
         | |- context [str_in ?a ?b] =>
             let v := eval vm_compute in (str_in a b) in
             change (str_in a b) with v
         end;
  cbv beta iota.

Section MicroFacts.

Open Scope string_scope.

(** The moving average read by the micro classifier on the prefix ending
    at bar [i] is the trailing average of the whole series at [i]. *)
Lemma prefix_rolling_mean (n : nat) (df : Frame Q) (i : nat) :
  (i < length df)%nat ->
  iloc_last (rolling n qmean (column Close (iloc_upto (i + 1) df))) = sma n df i.
Proof.
  intros Hi. unfold iloc_upto, column, sma.
  rewrite <- firstn_map.
  rewrite (@iloc_last_rolling n qmean _ i).
  - destruct (n <=? i + 1)%nat eqn:Hn; [| reflexivity].
    apply Nat.leb_le in Hn. rewrite window_prefix by exact Hn. reflexivity.
  - rewrite length_firstn, length_map. lia.
Qed.

Lemma classify_micro_rule (closes : list Q) (fast_len slow_len : nat)
    (macro : string) :
  micro_rule macro (iloc_last (rolling fast_len qmean closes))
             (iloc_last (rolling slow_len qmean closes))
             (_classify_micro closes fast_len slow_len macro).
Proof.
  unfold micro_rule, _classify_micro, bull_variant, bear_variant.
  split; [| split].
  - intros [-> | ->]; eval_str_in; split; intros Hgt; rewrite Hgt; reflexivity.
  - intros [-> | ->]; eval_str_in; split; intros Hlt; rewrite Hlt; reflexivity.
  - intros ->. reflexivity.
Qed.

Lemma expected_row_micro (w atr_len : nat) (df : Frame Q) (i : nat) (macro : string) :
  (i < length df)%nat ->
  Macro (expected_row w atr_len df i) = Some macro ->
  exists micro,
    Micro (expected_row w atr_len df i) = Some micro
    /\ micro_rule macro (sma 5 df i) (sma 10 df i) micro.
Proof.
  intros Hi Hm. unfold expected_row in *. cbn [Macro Micro] in *.
  injection Hm as <-. eexists. split; [reflexivity |].
  rewrite <- !prefix_rolling_mean by exact Hi.
  apply classify_micro_rule.
Qed.

(** C8: on every classified bar [i] of the yearly, weekly and daily
    frames the micro label follows from the macro label and the 5-bar and
    10-bar simple moving averages of the closes up to and including [i]:
    Bull variant, MicroBullPlus when fast > slow and MicroBear otherwise;
    Bear variant, MicroBear when fast < slow and MicroBull otherwise;
    Neutral, Neutral.  From the tenth bar on both averages are defined, so
    on every classified bar of the yearly frame. *)
Theorem micro_from_moving_averages (df : Frame Q) (atr_y atr_w atr_d : nat) :
  (forall w a rf i t row macro,
      In (w, a, rf) (timeframes df atr_y atr_w atr_d) ->
      nth_error rf i = Some (t, row) ->
      Macro row = Some macro ->
      exists micro,
        Micro row = Some micro
        /\ micro_rule macro (sma 5 df i) (sma 10 df i) micro)
  /\ (forall i, (10 <= i + 1)%nat ->
         sma 5 df i = Some (qmean (window 5 i (column Close df)))
         /\ sma 10 df i = Some (qmean (window 10 i (column Close df))))
  /\ (forall i t row,
         nth_error (classify_regime df atr_y) i = Some (t, row) ->
         is_classified (t, row) = true -> (10 <= i + 1)%nat).
Proof.
  split; [| split].
  - intros w a rf i t row macro Hrf Hnth Hm.
    assert (Hc : is_classified (t, row) = true)
      by (unfold is_classified; cbn [snd]; rewrite Hm; reflexivity).
    destruct (@classified_timeframe_row _ _ _ _ _ _ _ _ _ _ Hrf Hnth Hc) as (Hi & _ & ->).
    apply expected_row_micro; assumption.
  - intros i Hi. unfold sma.
    destruct (Nat.leb_spec 5 (i + 1)); [| lia].
    destruct (Nat.leb_spec 10 (i + 1)); [| lia].
    split; reflexivity.
  - intros i t row Hnth Hc.
    assert (Hrf : In (YEARLY_RANGE_DAYS, atr_y, classify_regime df atr_y)
                     (timeframes df atr_y atr_w atr_d))
      by (left; reflexivity).
    destruct (@classified_timeframe_row _ _ _ _ _ _ _ _ _ _ Hrf Hnth Hc) as (_ & Hw & _).
    unfold YEARLY_RANGE_DAYS in Hw. lia.
Qed.

Lemma micro_from_moving_averages_witness :
  exists micro,
    Micro (expected_row 28 ATR_PERIOD (scenario_frame 12) 28) = Some micro
    /\ micro_rule "Weak Bull" (sma 5 (scenario_frame 12) 28)
                  (sma 10 (scenario_frame 12) 28) micro.
Proof.
  apply (proj1 (micro_from_moving_averages (scenario_frame 12) ATR_PERIOD 14 14)
               28%nat ATR_PERIOD
               (classify_regime (scenario_frame 12) ATR_PERIOD) 28%nat 28%Z).
  - left. reflexivity.
  - reflexivity.
  - reflexivity.
Defined.




End MicroFacts.

Section HistoryFacts.

(** The rows of a windowed timeframe, bar by bar. *)
Lemma windowed_rows_eq (w atr_len : nat) (df : Frame Q) :
  windowed_rows w atr_len df
  = combine (index df)
            (List.map (fun i => if (w <=? i + 1)%nat
                                then expected_row w atr_len df i else nan_row)
                      (seq 0 (length df))).
Proof.
  unfold windowed_rows. destruct df as [| r df'] eqn:Edf; [reflexivity |].
  cbv beta iota delta [empty]. rewrite <- Edf. f_equal.
  apply map_ext_in. intros i Hin. apply in_seq in Hin.
  rewrite !iloc_rolling by (rewrite length_column; lia).
  destruct (w <=? i + 1)%nat eqn:Hw; [| reflexivity].
  cbv beta iota delta [isna orb].
  apply classified_row_expected; [lia | apply Nat.leb_le; exact Hw].
Qed.

Lemma daily_rows_eq (atr_len : nat) (df : Frame Q) :
  classify_daily_regime df atr_len
  = combine (index df)
            (List.map (fun i => expected_row 1 atr_len df i) (seq 0 (length df))).
Proof.
  unfold classify_daily_regime. destruct df as [| r df'] eqn:Edf; [reflexivity |].
  cbv beta iota delta [empty]. rewrite <- Edf. f_equal.
  apply map_ext_in. intros i Hin. apply in_seq in Hin.
  apply classified_row_expected; lia.
Qed.

(** Counting the classified rows of a labelled run of bars starting at
    bar [k]. *)
Lemma count_classified (w atr_len : nat) (df : Frame Q) (idx : list Z) :
  forall k,
    length (classified
              (combine idx
                 (List.map (fun i => if (w <=? i + 1)%nat
                                     then expected_row w atr_len df i else nan_row)
                           (seq k (length idx)))))
    = (length idx - (w - 1 - k))%nat.
Proof.
  induction idx as [| t idx IH]; intros k; [reflexivity |].
  cbn [length seq List.map combine classified filter].
  fold (classified
          (combine idx
             (List.map (fun i => if (w <=? i + 1)%nat
                                 then expected_row w atr_len df i else nan_row)
                       (seq (S k) (length idx))))).
  destruct (Nat.leb_spec w (k + 1)) as [Hw | Hw].
  - cbn [is_classified snd expected_row Macro length]. rewrite IH. lia.
  - cbn [is_classified snd nan_row Macro]. rewrite IH. lia.
Qed.

Lemma windowed_classified_count (w atr_len : nat) (df : Frame Q) :
  length (classified (windowed_rows w atr_len df)) = (length df - (w - 1))%nat.
Proof.
  rewrite windowed_rows_eq, <- (length_index df), count_classified. lia.
Qed.

Lemma daily_classified_count (atr_len : nat) (df : Frame Q) :
  length (classified (classify_daily_regime df atr_len)) = length df.
Proof.
  assert (Hrun : forall (idx : list Z) (k : nat),
             length (classified
                       (combine idx
                          (List.map (fun i => expected_row 1 atr_len df i)
                                    (seq k (length idx)))))
             = length idx).
  { induction idx as [| t idx IH]; intros k; [reflexivity |].
    cbn [length seq List.map combine classified filter is_classified snd
         expected_row Macro].
    f_equal. apply IH. }
  rewrite daily_rows_eq, <- (length_index df). apply Hrun.
Qed.

(** C2: in the yearly (28 bars) and weekly (5 bars) frames a bar is
    classified only once its rolling window is full; an earlier bar
    carries the tuple of seven NaN, no label and no number.  A series
    shorter than the window has no classified bar in that timeframe, and
    each timeframe counts its classified bars from its own window alone:
    with 5 to 27 bars the yearly frame has none while the weekly and
    daily frames have theirs. *)
Theorem classified_once_window_full (df : Frame Q) (atr_y atr_w atr_d : nat) :
  window_gated 28 df (classify_regime df atr_y)
  /\ window_gated 5 df (classify_weekly_regime df atr_w)
  /\ length (classified (classify_daily_regime df atr_d)) = length df
  /\ ((5 <= length df < 28)%nat ->
      classified (classify_regime df atr_y) = []
      /\ length (classified (classify_weekly_regime df atr_w))
         = (length df - 4)%nat
      /\ classified (classify_weekly_regime df atr_w) <> []).
Proof.
  assert (Hgen : forall w a, window_gated w df (windowed_rows w a df)).
  { intros w a. split; [| split].
    - intros i Hi. rewrite windowed_rows_nth by exact Hi.
      do 2 eexists. split; [reflexivity |].
      destruct (Nat.leb_spec w (i + 1)); split; intros; try lia; auto.
    - apply windowed_classified_count.
    - intros Hshort. apply length_zero_iff_nil.
      rewrite windowed_classified_count. lia. }
  split; [apply Hgen |]. split; [apply Hgen |].
  split; [apply daily_classified_count |].
  intros Hlen. split; [| split].
  - apply (proj2 (proj2 (Hgen 28%nat atr_y))). lia.
  - unfold classify_weekly_regime. rewrite windowed_classified_count. lia.
  - intros Hnil. apply (f_equal (@length _)) in Hnil.
    unfold classify_weekly_regime in Hnil.
    rewrite windowed_classified_count in Hnil. simpl in Hnil. lia.
Qed.

Lemma classified_once_window_full_witness :
  classified (classify_regime (firstn 7 (scenario_frame 12)) 20) = []
  /\ length (classified (classify_weekly_regime (firstn 7 (scenario_frame 12)) 14))
     = (length (firstn 7 (scenario_frame 12)) - 4)%nat
  /\ classified (classify_weekly_regime (firstn 7 (scenario_frame 12)) 14) <> [].
Proof.
  apply (proj2 (proj2 (proj2
           (classified_once_window_full (firstn 7 (scenario_frame 12)) 20 14 14)))).
  vm_compute. lia.
Defined.

End HistoryFacts.

Section AlignmentFacts.

Context {V : Type}.

Lemma mem_In (t : Z) (idx : list Z) : mem t idx = true <-> In t idx.
Proof.
  unfold mem. rewrite existsb_exists. split.
  - intros (x & Hin & Heq). apply Z.eqb_eq in Heq. subst. exact Hin.
  - intros Hin. exists t. split; [exact Hin | apply Z.eqb_refl].
Qed.

Lemma index_intersection_self (idx : list Z) : index_intersection idx idx = idx.
Proof.
  unfold index_intersection.
  rewrite (filter_ext_in _ (fun _ => true)); [apply filter_true |].
  intros t Hin. apply mem_In. exact Hin.
Qed.

Lemma flat_map_ext_in (A B : Type) (f g : A -> list B) (l : list A) :
  (forall a, In a l -> f a = g a) -> flat_map f l = flat_map g l.
Proof.
  induction l as [| a l IH]; intros Hfg; [reflexivity |].
  simpl. rewrite Hfg by (left; reflexivity).
  rewrite IH; [reflexivity |]. intros b Hb. apply Hfg. right. exact Hb.
Qed.

Lemma rows_of_absent_label (t : Z) (df : Frame V) :
  ~ In t (index df) -> filter (fun r => Z.eqb (fst r) t) df = [].
Proof.
  induction df as [| r df IH]; intros Hnin; [reflexivity |].
  simpl in *. destruct (Z.eqb_spec (fst r) t) as [Heq | Hne].
  - exfalso. apply Hnin. left. exact Heq.
  - apply IH. intros Hin. apply Hnin. right. exact Hin.
Qed.

(** Selecting a frame with unique labels by its own index gives it back. *)
Lemma loc_self (df : Frame V) : NoDup (index df) -> loc (index df) df = df.
Proof.
  induction df as [| r df IH]; intros Hnd; [reflexivity |].
  simpl in Hnd. inversion Hnd as [| t idx Hnin Hnd' ]; subst.
  unfold loc in *. cbn [index List.map flat_map filter].
  rewrite Z.eqb_refl, rows_of_absent_label by exact Hnin.
  simpl. f_equal.
  rewrite <- (IH Hnd') at 2. apply flat_map_ext_in.
  intros t Hin. cbn [filter].
  destruct (Z.eqb_spec (fst r) t) as [Heq | Hne]; [| reflexivity].
  exfalso. apply Hnin. rewrite Heq. exact Hin.
Qed.

Lemma combine_map_r (A B : Type) (f : A -> B) (l : list A) :
  combine l (List.map f l) = List.map (fun x => (x, f x)) l.
Proof. induction l as [| a l IH]; [reflexivity |]. simpl. rewrite IH. reflexivity. Qed.

End AlignmentFacts.

Section DivideFacts.

Lemma cell_self_ratio (v : Q) :
  ~ v == 0 -> div (Some v) (replace_zero v) = Some (v / v).
Proof.
  intros Hv. unfold replace_zero.
  destruct (Qeq_bool v 0) eqn:Hz; [| reflexivity].
  apply Qeq_bool_iff in Hz. contradiction.
Qed.

Lemma self_ratio_one (v : Q) : ~ v == 0 -> v / v == 1.
Proof. intros Hv. field. exact Hv. Qed.

(** The ratio of a series to itself, bar by bar. *)
Lemma ohlc_divide_self (X : Frame Q) :
  NoDup (index X) ->
  (forall t b, In (t, b) X -> nonzero_bar b) ->
  ohlc_divide X X
  = List.map (fun r => (fst r, map_bar (fun v => v / v) (snd r))) X.
Proof.
  intros Hnd Hnz. unfold ohlc_divide.
  destruct X as [| r X'] eqn:EX; [reflexivity |].
  cbv beta iota delta [empty orb]. rewrite <- EX in *.
  rewrite index_intersection_self.
  replace (match index X with [] => true | _ :: _ => false end) with false
    by (rewrite EX; reflexivity).
  rewrite loc_self by exact Hnd.
  unfold frame_div. rewrite combine_map_r, map_map. cbn [fst snd].
  clear EX r X' Hnd.
  induction X as [| [t b] X IH]; [reflexivity |].
  cbn [List.map dropna flat_map fst snd].
  destruct (Hnz t b (or_introl eq_refl)) as (Ho & Hh & Hl & Hc).
  unfold bar_div, map_bar at 1 2 3 4. cbn [Open High Low Close].
  rewrite !cell_self_ratio by assumption.
  cbn [bar_value Open High Low Close app]. f_equal.
  apply IH. intros t' b' Hin. apply (Hnz t' b'). right. exact Hin.
Qed.

(** C6: for a series [X] with unique timestamps and no zero among its
    open, high, low and close values, [ohlc_divide X X] keeps the whole
    index of [X] and every field of every bar equals 1. *)
Theorem divide_by_itself_is_one (X : Frame Q) :
  NoDup (index X) ->
  (forall t b, In (t, b) X -> nonzero_bar b) ->
  index (ohlc_divide X X) = index X
  /\ (forall t b, In (t, b) (ohlc_divide X X) -> unit_bar b).
Proof.
  intros Hnd Hnz. rewrite ohlc_divide_self by assumption. split.
  - unfold index. rewrite map_map. reflexivity.
  - intros t b Hin. apply in_map_iff in Hin.
    destruct Hin as ([t' b'] & Heq & Hin). cbn [fst snd] in Heq.
    injection Heq as <- <-.
    destruct (Hnz t' b' Hin) as (Ho & Hh & Hl & Hc).
    unfold unit_bar, map_bar. cbn [Open High Low Close].
    repeat split; apply self_ratio_one; assumption.
Qed.

Lemma divide_by_itself_is_one_witness :
  index (ohlc_divide (scenario_frame 12) (scenario_frame 12))
  = index (scenario_frame 12)
  /\ (forall t b,
         In (t, b) (ohlc_divide (scenario_frame 12) (scenario_frame 12)) ->
         unit_bar b).
Proof.
  apply (divide_by_itself_is_one (scenario_frame 12)).
  - vm_compute. repeat constructor; simpl; intuition discriminate.
  - intros t b Hin. vm_compute in Hin.
    repeat (destruct Hin as [Heq | Hin];
            [ injection Heq as <- <-; repeat split; intros H; discriminate H |]).
    destruct Hin.
Defined.

End DivideFacts.

Section ExtremeFacts.

Lemma Qmax_choice (x y : Q) : Qmax x y = x \/ Qmax x y = y.
Proof. unfold Qmax, GenericMinMax.gmax. destruct (x ?= y); auto. Qed.

Lemma Qmin_choice (x y : Q) : Qmin x y = x \/ Qmin x y = y.
Proof. unfold Qmin, GenericMinMax.gmin. destruct (x ?= y); auto. Qed.

Lemma fold_Qmax_spec (r : list Q) :
  forall x,
    x <= fold_left Qmax r x
    /\ (forall y, In y r -> y <= fold_left Qmax r x)
    /\ In (fold_left Qmax r x) (x :: r).
Proof.
  induction r as [| z r IH]; intros x.
  - simpl. split; [apply Qle_refl |]. split; [intros y [] | left; reflexivity].
  - cbn [fold_left]. destruct (IH (Qmax x z)) as (Hx & Hr & Hin).
    split; [| split].
    + eapply Qle_trans; [apply Q.le_max_l | exact Hx].
    + intros y [<- | Hy].
      * eapply Qle_trans; [apply Q.le_max_r | exact Hx].
      * apply Hr. exact Hy.
    + destruct Hin as [Heq | Hin].
      * rewrite <- Heq.
        destruct (Qmax_choice x z) as [Hm | Hm]; rewrite Hm;
          [left | right; left]; reflexivity.
      * right. right. exact Hin.
Qed.

Lemma fold_Qmin_spec (r : list Q) :
  forall x,
    fold_left Qmin r x <= x
    /\ (forall y, In y r -> fold_left Qmin r x <= y)
    /\ In (fold_left Qmin r x) (x :: r).
Proof.
  induction r as [| z r IH]; intros x.
  - simpl. split; [apply Qle_refl |]. split; [intros y [] | left; reflexivity].
  - cbn [fold_left]. destruct (IH (Qmin x z)) as (Hx & Hr & Hin).
    split; [| split].
    + eapply Qle_trans; [exact Hx | apply Q.le_min_l].
    + intros y [<- | Hy].
      * eapply Qle_trans; [exact Hx | apply Q.le_min_r].
      * apply Hr. exact Hy.
    + destruct Hin as [Heq | Hin].
      * rewrite <- Heq.
        destruct (Qmin_choice x z) as [Hm | Hm]; rewrite Hm;
          [left | right; left]; reflexivity.
      * right. right. exact Hin.
Qed.

(** [qmax_list] is the greatest and [qmin_list] the least element. *)
Lemma qmax_list_spec (xs : list Q) :
  xs <> [] ->
  In (qmax_list xs) xs /\ (forall y, In y xs -> y <= qmax_list xs).
Proof.
  destruct xs as [| x r]; [congruence |]. intros _.
  destruct (fold_Qmax_spec r x) as (Hx & Hr & Hin).
  split; [exact Hin |]. intros y [<- | Hy]; [exact Hx | apply Hr; exact Hy].
Qed.

Lemma qmin_list_spec (xs : list Q) :
  xs <> [] ->
  In (qmin_list xs) xs /\ (forall y, In y xs -> qmin_list xs <= y).
Proof.
  destruct xs as [| x r]; [congruence |]. intros _.
  destruct (fold_Qmin_spec r x) as (Hx & Hr & Hin).
  split; [exact Hin |]. intros y [<- | Hy]; [exact Hx | apply Hr; exact Hy].
Qed.

End ExtremeFacts.

Section SessionFacts.

Open Scope string_scope.

Variable infer_freq : list Z -> Inferred.
Variable utc_offset : string -> Z -> Z.
Variables (df : Frame Q) (fast_len slow_len atr_len : nat)
          (near_thresh_atr : Q) (tz : string).

(** The bars selected by a session's mask and the snapshot made of them. *)
Let sess (start end_ : string) : Frame Q :=
  session_frame utc_offset tz start end_ df.

Let snap (s : string * (string * string)) : list SessionRow :=
  let '(session_name, (start, end_)) := s in
  if empty (sess start end_) then []
  else [session_row session_name (sess start end_) fast_len slow_len
                    (iloc_last (atr df atr_len)) near_thresh_atr].

Lemma last_some (xs : list Q) :
  xs <> [] -> iloc_last (List.map Some xs) = Some (last xs 0).
Proof.
  intros Hne. destruct (exists_last Hne) as (l & a & ->).
  unfold iloc_last. rewrite map_app. simpl. rewrite !last_last. reflexivity.
Qed.

Lemma session_row_snapshot (name : string) (sf : Frame Q) (last_atr : float) :
  sf <> [] ->
  snapshot_of_session sf (session_row name sf fast_len slow_len last_atr
                                      near_thresh_atr).
Proof.
  intros Hne. unfold snapshot_of_session, session_row.
  cbn [sHi sLo sMid sClose].
  assert (Hh : column High sf <> []) by (destruct sf; [congruence | discriminate]).
  assert (Hl : column Low sf <> []) by (destruct sf; [congruence | discriminate]).
  assert (Hc : column Close sf <> []) by (destruct sf; [congruence | discriminate]).
  destruct (qmax_list_spec Hh) as [Hmax_in Hmax].
  destruct (qmin_list_spec Hl) as [Hmin_in Hmin].
  repeat split; try reflexivity; try assumption.
  - apply last_some. exact Hc.
  - apply Hmax. unfold column. apply (in_map (fun r => High (snd r)) sf (t, b)).
    assumption.
  - apply Hmin. unfold column. apply (in_map (fun r => Low (snd r)) sf (t, b)).
    assumption.
Qed.

Lemma empty_nil (A : Type) (l : list A) : empty l = true <-> l = [].
Proof. destruct l; simpl; split; congruence. Qed.

Lemma snap_sound (ss : list (string * (string * string))) (row : SessionRow) :
  In row (flat_map snap ss) ->
  exists start end_,
    In (Session row, (start, end_)) ss
    /\ sess start end_ <> []
    /\ snapshot_of_session (sess start end_) row.
Proof.
  induction ss as [| [name [start end_]] ss IH]; [intros [] |].
  cbn [flat_map]. rewrite in_app_iff. intros [Hin | Hin].
  - unfold snap in Hin. destruct (empty (sess start end_)) eqn:He; [destruct Hin |].
    destruct Hin as [<- | []].
    assert (Hne : sess start end_ <> []).
    { intros Hnil. apply empty_nil in Hnil. congruence. }
    exists start, end_. split; [left; reflexivity |].
    split; [exact Hne | apply session_row_snapshot; exact Hne].
  - destruct (IH Hin) as (st & en & Hs & Hne & Hsnap).
    exists st, en. split; [right; exact Hs | split; assumption].
Qed.

Lemma snap_complete (ss : list (string * (string * string)))
    (name start end_ : string) :
  In (name, (start, end_)) ss ->
  sess start end_ <> [] ->
  exists row,
    In row (flat_map snap ss) /\ Session row = name
    /\ snapshot_of_session (sess start end_) row.
Proof.
  intros Hin Hne. apply in_split in Hin. destruct Hin as (l1 & l2 & ->).
  exists (session_row name (sess start end_) fast_len slow_len
                      (iloc_last (atr df atr_len)) near_thresh_atr).
  split; [| split; [reflexivity | apply session_row_snapshot; exact Hne]].
  rewrite flat_map_app. apply in_or_app. right.
  cbn [flat_map]. apply in_or_app. left.
  unfold snap. destruct (empty (sess start end_)) eqn:He.
  - apply empty_nil in He. contradiction.
  - left. reflexivity.
Qed.

Lemma snap_length (ss : list (string * (string * string))) :
  (length (flat_map snap ss) <= length ss)%nat.
Proof.
  induction ss as [| [name [start end_]] ss IH]; [apply Nat.le_refl |].
  cbn [flat_map]. rewrite length_app. unfold snap at 1.
  destruct (empty (sess start end_)); simpl; lia.
Qed.

Lemma snap_nodup (ss : list (string * (string * string))) :
  NoDup (List.map fst ss) -> NoDup (List.map Session (flat_map snap ss)).
Proof.
  induction ss as [| [name [start end_]] ss IH]; intros Hnd; [constructor |].
  inversion Hnd as [| k ks Hnin Hnd']; subst.
  cbn [flat_map]. unfold snap at 1.
  destruct (empty (sess start end_)); [apply IH; exact Hnd' |].
  cbn [app List.map Session session_row]. constructor; [| apply IH; exact Hnd'].
  intros Hin. apply in_map_iff in Hin. destruct Hin as (row & Hname & Hrow).
  destruct (@snap_sound _ _ Hrow) as (st & en & Hs & _).
  apply Hnin. rewrite <- Hname.
  apply (in_map fst ss (Session row, (st, en))). exact Hs.
Qed.

Lemma unique_window (ss : list (string * (string * string)))
    (name : string) (w w' : string * string) :
  NoDup (List.map fst ss) -> In (name, w) ss -> In (name, w') ss -> w = w'.
Proof.
  induction ss as [| [k v] ss IH]; intros Hnd Hin Hin'; [destruct Hin |].
  inversion Hnd as [| k0 ks Hnin Hnd']; subst.
  destruct Hin as [Heq | Hin], Hin' as [Heq' | Hin'].
  - congruence.
  - injection Heq as -> ->. exfalso. apply Hnin.
    apply (in_map fst ss (name, w')). exact Hin'.
  - injection Heq' as -> ->. exfalso. apply Hnin.
    apply (in_map fst ss (name, w)). exact Hin.
  - apply IH; assumption.
Qed.

Lemma sessions_nodup : NoDup (List.map fst sessions).
Proof. cbn. repeat constructor; simpl; intuition discriminate. Qed.

Lemma guard_passes (code : string) :
  ~ In code coarse_codes -> existsb (String.eqb code) coarse_codes = false.
Proof.
  intros Hnin. apply not_true_iff_false. intros Hex.
  apply existsb_exists in Hex. destruct Hex as (c & Hin & Heq).
  apply String.eqb_eq in Heq. subst. contradiction.
Qed.

Lemma guard_fires (code : string) :
  In code coarse_codes -> existsb (String.eqb code) coarse_codes = true.
Proof.
  intros Hin. apply existsb_exists. exists code.
  split; [exact Hin | apply String.eqb_refl].
Qed.

(** The string masks of the four sessions are the minute ranges they
    spell: 04:00-05:00, 09:00-10:00, 12:00-13:00 and 13:00-14:00, each
    closed on the left and open on the right. *)
Lemma session_masks_minutes (t : Z) :
  let m := (local_minutes utc_offset tz t mod 1440)%Z in
  in_session utc_offset tz "04:00" "05:00" t = ((240 <=? m) && (m <? 300))%Z
  /\ in_session utc_offset tz "09:00" "10:00" t = ((540 <=? m) && (m <? 600))%Z
  /\ in_session utc_offset tz "12:00" "13:00" t = ((720 <=? m) && (m <? 780))%Z
  /\ in_session utc_offset tz "13:00" "14:00" t = ((780 <=? m) && (m <? 840))%Z.
Proof.
  intros m. unfold in_session, local_HM. fold m.
  assert (Hm : (0 <= m < 1440)%Z) by (apply Z.mod_pos_bound; lia).
  assert (Hall :
            forallb
              (fun k =>
                 let hm := strftime_HM (Z.of_nat k) in
                 let z := Z.of_nat k in
                 Bool.eqb (String.leb "04:00" hm && String.ltb hm "05:00")
                          ((240 <=? z) && (z <? 300))%Z
                 && Bool.eqb (String.leb "09:00" hm && String.ltb hm "10:00")
                             ((540 <=? z) && (z <? 600))%Z
                 && Bool.eqb (String.leb "12:00" hm && String.ltb hm "13:00")
                             ((720 <=? z) && (z <? 780))%Z
                 && Bool.eqb (String.leb "13:00" hm && String.ltb hm "14:00")
                             ((780 <=? z) && (z <? 840))%Z)
              (seq 0 1440) = true)
    by (vm_compute; reflexivity).
  rewrite forallb_forall in Hall.
  specialize (Hall (Z.to_nat m)).
  rewrite Z2Nat.id in Hall by lia.
  assert (Hin : In (Z.to_nat m) (seq 0 1440)) by (apply in_seq; lia).
  specialize (Hall Hin). cbv zeta in Hall.
  rewrite !andb_true_iff in Hall.
  destruct Hall as [[[H1 H2] H3] H4].
  apply eqb_prop in H1, H2, H3, H4. auto.
Qed.

Lemma classify_session_intraday (code : string) :
  df <> [] ->
  infer_freq (index df) = InferFreq code ->
  ~ In code coarse_codes ->
  classify_session_regimes infer_freq utc_offset df fast_len slow_len atr_len
                           near_thresh_atr tz
  = Some (flat_map snap sessions).
Proof.
  intros Hne Hfreq Hcode. unfold classify_session_regimes.
  destruct df as [| r df']; [congruence |].
  cbv beta iota delta [empty]. rewrite Hfreq, (guard_passes Hcode).
  reflexivity.
Qed.

(** C3, as the code has it: on an intraday series that passes the
    frequency guard the classifier gives at most one snapshot per named
    session window for the whole series, at most four in all and none for
    a session without bars; the hi and lo of a snapshot are the greatest
    high and the least low over every bar of the series, whatever its
    day, whose local time of day falls in the window, and its close is the
    close of the last such bar. *)
Theorem session_one_snapshot_per_window (code : string) :
  df <> [] ->
  infer_freq (index df) = InferFreq code ->
  ~ In code coarse_codes ->
  exists rows,
    classify_session_regimes infer_freq utc_offset df fast_len slow_len atr_len
                             near_thresh_atr tz = Some rows
    /\ (length rows <= 4)%nat
    /\ NoDup (List.map Session rows)
    /\ (forall name start end_,
           In (name, (start, end_)) sessions ->
           (session_frame utc_offset tz start end_ df = [] ->
            forall row, In row rows -> Session row <> name)
           /\ (session_frame utc_offset tz start end_ df <> [] ->
               exists row,
                 In row rows /\ Session row = name
                 /\ snapshot_of_session
                      (session_frame utc_offset tz start end_ df) row)).
Proof.
  intros Hne Hfreq Hcode. exists (flat_map snap sessions).
  split; [apply (classify_session_intraday Hne Hfreq Hcode) |].
  split; [apply (snap_length sessions) |].
  split; [apply snap_nodup, sessions_nodup |].
  intros name start end_ Hin. split.
  - intros Hnil row Hrow Hname.
    destruct (@snap_sound _ _ Hrow) as (st & en & Hs & Hsne & _).
    rewrite Hname in Hs.
    assert (Heq : (st, en) = (start, end_))
      by (apply (@unique_window _ _ _ _ sessions_nodup Hs Hin)).
    injection Heq as -> ->. apply Hsne. exact Hnil.
  - intros Hsne. apply (@snap_complete _ _ _ _ Hin Hsne).
Qed.

(** The guard as it is written: when the inferred frequency of the index
    is one of the six codes the classifier tests for, or no frequency can
    be inferred, session classification gives the empty frame, whatever
    the bars hold. *)
Lemma guard_gives_empty_frame :
  coarse_frequency (infer_freq (index df))
  \/ infer_freq (index df) = InferNone ->
  classify_session_regimes infer_freq utc_offset df fast_len slow_len atr_len
                           near_thresh_atr tz = Some [].
Proof.
  intros Hfreq. unfold classify_session_regimes.
  destruct (empty df); [reflexivity |].
  destruct Hfreq as [(code & -> & Hin) | ->]; [| reflexivity].
  rewrite (guard_fires Hin). reflexivity.
Qed.

(** Whatever the frequency code, a series with no bar inside any of the
    four windows (daily or weekly bars stamped at midnight, say) gets no
    snapshot either. *)
Lemma session_empty_outside_windows (code : string) :
  infer_freq (index df) = InferFreq code ->
  (forall name start end_,
      In (name, (start, end_)) sessions ->
      session_frame utc_offset tz start end_ df = []) ->
  classify_session_regimes infer_freq utc_offset df fast_len slow_len atr_len
                           near_thresh_atr tz = Some [].
Proof.
  intros Hfreq Hout. unfold classify_session_regimes.
  destruct (empty df); [reflexivity |]. rewrite Hfreq.
  destruct (existsb (String.eqb code) coarse_codes); [reflexivity |].
  change (Some (flat_map snap sessions) = Some []).
  destruct (flat_map snap sessions) as [| row rows] eqn:Erows; [reflexivity |].
  exfalso.
  assert (Hrow : In row (flat_map snap sessions))
    by (rewrite Erows; left; reflexivity).
  destruct (@snap_sound _ _ Hrow) as (st & en & Hs & Hne & _).
  apply Hne. apply (Hout _ _ _ Hs).
Qed.

End SessionFacts.

Section SessionExamples.

Open Scope string_scope.

Lemma session_one_snapshot_per_window_witness :
  exists rows,
    classify_session_regimes infer_hourly offset_est hourly_two_days 5 10 14
                             (1 # 2) "America/New_York" = Some rows
    /\ (length rows <= 4)%nat
    /\ NoDup (List.map Session rows)
    /\ (forall name start end_,
           In (name, (start, end_)) sessions ->
           (session_frame offset_est "America/New_York" start end_
                          hourly_two_days = [] ->
            forall row, In row rows -> Session row <> name)
           /\ (session_frame offset_est "America/New_York" start end_
                             hourly_two_days <> [] ->
               exists row,
                 In row rows /\ Session row = name
                 /\ snapshot_of_session
                      (session_frame offset_est "America/New_York" start end_
                                     hourly_two_days) row)).
Proof.
  apply (@session_one_snapshot_per_window infer_hourly offset_est hourly_two_days
           5 10 14 (1 # 2) "America/New_York" "h").
  - discriminate.
  - reflexivity.
  - simpl. intuition discriminate.
Defined.

(** C9: the claim fails on the code. The guard tests the answer of the
    frequency inference against six literal codes. A weekly series is
    answered with an anchored code, W-MON for bars stamped on Mondays,
    which is none of the six: the series passes the guard and, its bars
    falling in the London hour, gets a London snapshot. A daily series of
    two bars is too short for the inference, which raises: no frame is
    returned at all. A daily series of three bars is answered D and gets
    the empty frame, as the claim says. *)
Theorem session_guard_misses_coarse_series :
  (daily_or_coarser (index weekly_mondays) = true
   /\ infer_sampled (index weekly_mondays) = InferFreq "W-MON"
   /\ exists row,
        classify_session_regimes infer_sampled offset_est weekly_mondays 5 10 14
                                 (1 # 2) "America/New_York" = Some [row]
        /\ Session row = "London")
  /\ (daily_or_coarser (index two_daily_bars) = true
      /\ classify_session_regimes infer_sampled offset_est two_daily_bars 5 10 14
                                  (1 # 2) "America/New_York" = None)
  /\ (daily_or_coarser (index three_daily_bars) = true
      /\ classify_session_regimes infer_sampled offset_est three_daily_bars
                                  5 10 14 (1 # 2) "America/New_York" = Some []).
Proof.
  split; [| split].
  - split; [reflexivity |]. split; [reflexivity |].
    eexists. split; [vm_compute; reflexivity | reflexivity].
  - split; reflexivity.
  - split; reflexivity.
Qed.

(** C3, as stated, fails: over two days of hourly bars the classifier
    gives one London snapshot, whose hi comes from the first day and whose
    lo from the second, so no day has its own snapshot. *)
Lemma session_snapshot_not_per_day :
  exists rows,
    classify_session_regimes infer_hourly offset_est hourly_two_days 5 10 14
                             (1 # 2) "America/New_York" = Some rows
    /\ length (filter (fun r => String.eqb (Session r) "London") rows) = 1%nat
    /\ day_session_frame offset_est "America/New_York" "09:00" "10:00" 0
                         hourly_two_days <> []
    /\ day_session_frame offset_est "America/New_York" "09:00" "10:00" 1
                         hourly_two_days <> []
    /\ ~ snapshot_per_day offset_est "America/New_York" hourly_two_days rows.
Proof.
  eexists. split; [vm_compute; reflexivity |].
  split; [reflexivity |].
  split; [vm_compute; discriminate |].
  split; [vm_compute; discriminate |].
  intros Hclaim.
  destruct (Hclaim "London" "09:00" "10:00" 0%Z) as (row & Hin & _ & _ & Hlo).
  - simpl. auto.
  - vm_compute. discriminate.
  - vm_compute in Hlo.
    simpl in Hin. destruct Hin as [<- | [<- | [<- | [<- | []]]]];
      vm_compute in Hlo; discriminate Hlo.
Qed.

End SessionExamples.

Section ResyncFacts.

Context {V : Type}.

Lemma in_index_intersection (t : Z) (a b : list Z) :
  In t (index_intersection a b) <-> In t a /\ In t b.
Proof. unfold index_intersection. rewrite filter_In, mem_In. reflexivity. Qed.

Lemma in_fold_intersection (t : Z) (rest : list (list Z)) :
  forall first,
    In t (fold_left index_intersection rest first)
    <-> In t first /\ (forall idx, In idx rest -> In t idx).
Proof.
  induction rest as [| idx rest IH]; intros first; cbn [fold_left].
  - split; [intros H; split; [exact H | intros idx []] | intros [H _]; exact H].
  - rewrite IH, in_index_intersection. split.
    + intros [[H1 H2] H3]. split; [exact H1 |].
      intros idx' [<- | Hin]; [exact H2 | apply H3; exact Hin].
    + intros [H1 H2]. split; [split; [exact H1 | apply H2; left; reflexivity] |].
      intros idx' Hin. apply H2. right. exact Hin.
Qed.

(** A common label is a label of every non-empty frame of the family. *)
Lemma resync_index_common (dfs : Family V) (t : Z) :
  In t (resync_index dfs) ->
  forall kv, In kv dfs -> non_empty kv = true -> In t (index (snd kv)).
Proof.
  unfold resync_index. intros Hin kv Hkv Hne.
  assert (Hidx : In (index (snd kv))
                    (List.map (fun kv => index (snd kv)) (filter non_empty dfs))).
  { apply (in_map (fun kv => index (snd kv))). apply filter_In. split; assumption. }
  destruct (List.map (fun kv => index (snd kv)) (filter non_empty dfs))
    as [| first rest]; [destruct Hidx |].
  apply in_fold_intersection in Hin. destruct Hin as [Hfirst Hrest].
  destruct Hidx as [<- | Hidx]; [exact Hfirst | apply Hrest; exact Hidx].
Qed.

Lemma lookup_index (t : Z) (df : Frame V) :
  In t (index df) -> exists b, lookup t df = Some b.
Proof.
  unfold lookup. induction df as [| [t' b'] df IH]; [intros [] |].
  cbn [index List.map fst find]. intros [-> | Hin].
  - rewrite Z.eqb_refl. eexists. reflexivity.
  - destruct (Z.eqb t' t); [eexists; reflexivity | apply IH; exact Hin].
Qed.

Lemma lookup_some_index (t : Z) (b : Bar V) (df : Frame V) :
  lookup t df = Some b -> In t (index df).
Proof.
  unfold lookup. induction df as [| [t' b'] df IH]; [discriminate |].
  cbn [index List.map fst find].
  destruct (Z.eqb_spec t' t) as [-> | Hne]; [left; reflexivity |].
  intros H. right. apply IH. exact H.
Qed.

(** Restricting a frame to labels it has: [reindex] then [dropna]. *)
Lemma align_index (idx : list Z) (df : Frame V) :
  (forall t, In t idx -> In t (index df)) ->
  index (dropna_rows (reindex idx df)) = idx.
Proof.
  induction idx as [| t idx IH]; intros Hsub; [reflexivity |].
  cbn [reindex List.map dropna_rows flat_map snd fst].
  destruct (lookup_index t df (Hsub t (or_introl eq_refl))) as [b ->].
  cbn [app index List.map fst]. f_equal.
  apply IH. intros t' Hin. apply Hsub. right. exact Hin.
Qed.

Lemma align_lookup (idx : list Z) (df : Frame V) (t : Z) :
  (forall t, In t idx -> In t (index df)) ->
  In t idx ->
  lookup t (dropna_rows (reindex idx df)) = lookup t df.
Proof.
  induction idx as [| t' idx IH]; intros Hsub Hin; [destruct Hin |].
  cbn [reindex List.map dropna_rows flat_map snd fst].
  destruct (lookup_index t' df (Hsub t' (or_introl eq_refl))) as [b Hb].
  rewrite Hb. cbn [app]. unfold lookup at 1. cbn [find fst].
  destruct (Z.eqb_spec t' t) as [-> | Hne].
  - rewrite Hb. reflexivity.
  - destruct Hin as [Heq | Hin]; [contradiction |].
    apply IH; [| exact Hin]. intros t'' Hin'. apply Hsub. right. exact Hin'.
Qed.

Lemma index_eqb_refl (idx : list Z) : index_eqb idx idx = true.
Proof.
  induction idx as [| t idx IH]; [reflexivity |].
  cbn [index_eqb]. rewrite Z.eqb_refl, IH. reflexivity.
Qed.

Lemma index_eqb_eq (a b : list Z) : index_eqb a b = true -> a = b.
Proof.
  revert b. induction a as [| x a IH]; intros [| y b] Heq;
    try discriminate Heq; [reflexivity |].
  cbn [index_eqb] in Heq. apply andb_true_iff in Heq. destruct Heq as [Hxy Hab].
  apply Z.eqb_eq in Hxy. subst y. f_equal. apply IH. exact Hab.
Qed.

Lemma in_insert_label (t x : Z) (l : list Z) :
  In t (insert_label x l) <-> x = t \/ In t l.
Proof.
  induction l as [| y l IH]; [simpl; tauto |].
  cbn [insert_label]. destruct (x <=? y)%Z; cbn [In]; [tauto |].
  rewrite IH. tauto.
Qed.

Lemma in_sort_index (t : Z) (l : list Z) : In t (sort_index l) <-> In t l.
Proof.
  unfold sort_index. induction l as [| x l IH]; [reflexivity |].
  cbn [fold_right In]. rewrite in_insert_label, IH. reflexivity.
Qed.

Lemma index_union_self (idx : list Z) : index_union idx idx = idx.
Proof. unfold index_union. rewrite index_eqb_refl. reflexivity. Qed.

Lemma union_indexes_same (idx : list Z) (idxs : list (list Z)) :
  idxs <> [] -> (forall i, In i idxs -> i = idx) -> union_indexes idxs = idx.
Proof.
  destruct idxs as [| first rest]; [congruence |]. intros _ Hall.
  cbn [union_indexes]. rewrite (Hall first (or_introl eq_refl)).
  assert (Hrest : forall i, In i rest -> i = idx)
    by (intros i Hi; apply Hall; right; exact Hi).
  clear Hall. induction rest as [| i rest IH]; [reflexivity |].
  cbn [fold_left]. rewrite (Hrest i (or_introl eq_refl)), index_union_self.
  apply IH. intros j Hj. apply Hrest. right. exact Hj.
Qed.

Lemma in_index_union (t : Z) (a b : list Z) :
  In t (index_union a b) <-> In t a \/ In t b.
Proof.
  unfold index_union. destruct (index_eqb a b) eqn:Heq.
  - apply index_eqb_eq in Heq. subst b. tauto.
  - destruct b as [| y b]; [cbn [empty In]; tauto |].
    destruct a as [| x a]; [cbn [empty In]; tauto |].
    cbv beta iota delta [empty].
    rewrite in_sort_index, in_app_iff, filter_In, negb_true_iff.
    split.
    + intros [H | [H _]]; auto.
    + intros [H | H]; [left; exact H |].
      destruct (mem t (x :: a)) eqn:Hm; [left; apply mem_In; exact Hm | right; auto].
Qed.

Lemma in_union_indexes (t : Z) (idxs : list (list Z)) :
  In t (union_indexes idxs) <-> exists idx, In idx idxs /\ In t idx.
Proof.
  destruct idxs as [| first rest]; cbn [union_indexes].
  - split; [intros [] | intros (idx & [] & _)].
  - revert first. induction rest as [| i rest IH]; intros first; cbn [fold_left].
    + split.
      * intros H. exists first. split; [left; reflexivity | exact H].
      * intros (idx & [<- | []] & H). exact H.
    + rewrite IH. split.
      * intros (idx & [<- | Hin] & Ht).
        -- apply in_index_union in Ht. destruct Ht as [Ht | Ht].
           ++ exists first. split; [left; reflexivity | exact Ht].
           ++ exists i. split; [right; left; reflexivity | exact Ht].
        -- exists idx. split; [right; right; exact Hin | exact Ht].
      * intros (idx & [<- | [<- | Hin]] & Ht).
        -- exists (index_union first i). split; [left; reflexivity |].
           apply in_index_union. left. exact Ht.
        -- exists (index_union first i). split; [left; reflexivity |].
           apply in_index_union. right. exact Ht.
        -- exists idx. split; [right; exact Hin | exact Ht].
Qed.

End ResyncFacts.

Section MeanFacts.

Lemma present_app (a b : list float) : present (a ++ b) = present a ++ present b.
Proof. unfold present. apply flat_map_app. Qed.

Lemma present_repeated_columns (col : Bar Q -> Q) (row : list (option (Bar Q)))
    (k : nat) :
  present (flat_map (fun c => row_cells c row) (repeat col k))
  = concat (repeat (present (row_cells col row)) k).
Proof.
  induction k as [| k IH]; [reflexivity |].
  cbn [repeat flat_map concat]. rewrite present_app, IH. reflexivity.
Qed.

Lemma qsum_app (a b : list Q) : qsum (a ++ b) == qsum a + qsum b.
Proof.
  induction a as [| x a IH].
  - unfold qsum at 2. cbn [app fold_right]. symmetry. apply Qplus_0_l.
  - change (x + qsum (a ++ b) == x + qsum a + qsum b). rewrite IH.
    apply Qplus_assoc.
Qed.

Lemma qsum_concat_repeat (l : list Q) (k : nat) :
  qsum (concat (repeat l k)) == inject_Z (Z.of_nat k) * qsum l.
Proof.
  induction k as [| k IH].
  - cbn. ring.
  - cbn [repeat concat]. rewrite qsum_app, IH, Nat2Z.inj_succ.
    unfold Z.succ. rewrite inject_Z_plus. ring.
Qed.

Lemma length_concat_repeat (A : Type) (l : list A) (k : nat) :
  length (concat (repeat l k)) = (k * length l)%nat.
Proof.
  induction k as [| k IH]; [reflexivity |].
  cbn [repeat concat]. rewrite length_app, IH. reflexivity.
Qed.

Lemma inject_nat_nonzero (n : nat) : (0 < n)%nat -> ~ inject_Z (Z.of_nat n) == 0.
Proof. intros Hn Heq. unfold Qeq in Heq. simpl in Heq. lia. Qed.

(** Entering every value [k] times leaves the mean unchanged. *)
Lemma qmean_concat_repeat (l : list Q) (k : nat) :
  (0 < k)%nat -> l <> [] -> qmean (concat (repeat l k)) == qmean l.
Proof.
  intros Hk Hl. unfold qmean.
  rewrite length_concat_repeat, qsum_concat_repeat, Nat2Z.inj_mul, inject_Z_mult.
  assert (Hn : (0 < length l)%nat) by (destruct l; [congruence | simpl; lia]).
  field. split; apply inject_nat_nonzero; assumption.
Qed.

Lemma ew_mean_value (col : Bar Q -> Q) (k : nat) (row : list (option (Bar Q)))
    (v : Q) :
  ew_mean col k row = Some v -> v == qmean (present (row_cells col row)).
Proof.
  unfold ew_mean, mean_skipna. rewrite present_repeated_columns.
  destruct k as [| k]; [discriminate |].
  destruct (present (row_cells col row)) as [| x l] eqn:El.
  - assert (Hnil : concat (repeat (@nil Q) (S k)) = []).
    { clear. induction (S k) as [| n IH]; [reflexivity | exact IH]. }
    rewrite Hnil. discriminate.
  - set (big := concat (repeat (x :: l) (S k))).
    destruct (empty big); [discriminate |].
    intros Heq. injection Heq as <-. subst big.
    apply qmean_concat_repeat; [lia | discriminate].
Qed.

Lemma ew_mean_defined (col : Bar Q -> Q) (k : nat) (row : list (option (Bar Q)))
    (b : Bar Q) :
  (0 < k)%nat -> In (Some b) row -> exists v, ew_mean col k row = Some v.
Proof.
  intros Hk Hin. unfold ew_mean, mean_skipna. rewrite present_repeated_columns.
  assert (Hv : In (col b) (present (row_cells col row))).
  { unfold present, row_cells. apply in_flat_map. exists (Some (col b)).
    split; [| left; reflexivity].
    apply (in_map (option_map col) row (Some b)). exact Hin. }
  destruct k as [| k]; [lia |]. cbn [repeat concat].
  destruct (present (row_cells col row)) as [| x l]; [destruct Hv |].
  cbn [app empty]. eexists. reflexivity.
Qed.

End MeanFacts.

Section DropnaFacts.

Lemma in_dropna (t : Z) (b : Bar Q) (rows : Frame float) :
  In (t, b) (dropna rows) <-> exists fb, In (t, fb) rows /\ bar_value fb = Some b.
Proof.
  unfold dropna. rewrite in_flat_map. split.
  - intros ([t' fb] & Hin & Hrow). cbn [fst snd] in Hrow.
    destruct (bar_value fb) as [b' |] eqn:Hv; [| destruct Hrow].
    destruct Hrow as [Heq | []]. injection Heq as -> ->.
    exists fb. split; assumption.
  - intros (fb & Hin & Hv). exists (t, fb). split; [exact Hin |].
    cbn [fst snd]. rewrite Hv. left. reflexivity.
Qed.

Lemma dropna_keeps_all (rows : Frame float) :
  (forall r, In r rows -> bar_value (snd r) <> None) ->
  index (dropna rows) = index rows.
Proof.
  induction rows as [| r rows IH]; intros Hall; [reflexivity |].
  cbn [dropna flat_map]. fold (dropna rows).
  destruct (bar_value (snd r)) eqn:Hv.
  - cbn [app index List.map fst]. f_equal.
    apply IH. intros r' Hin. apply Hall. right. exact Hin.
  - exfalso. apply (Hall r (or_introl eq_refl)). exact Hv.
Qed.

End DropnaFacts.

Section EqualWeightFacts.

Lemma normalize_index (df : Frame Q) (base : Q) :
  index (normalize_ohlc df base) = index df.
Proof.
  unfold normalize_ohlc. destruct df as [| [t0 b0] df']; [reflexivity |].
  unfold index. rewrite map_map. reflexivity.
Qed.

Lemma ew_average_index (frames : list (Frame Q)) :
  index (ew_average frames) = union_indexes (List.map index frames).
Proof.
  unfold ew_average. rewrite dropna_keeps_all.
  - unfold index at 1, concat_columns. rewrite !map_map. cbn [fst].
    apply map_id.
  - intros r Hr. apply in_map_iff in Hr. destruct Hr as ([t row] & <- & Hin).
    unfold concat_columns in Hin. apply in_map_iff in Hin.
    destruct Hin as (t' & Heq & Hunion). injection Heq as -> <-.
    apply in_union_indexes in Hunion. destruct Hunion as (idx & Hidx & Ht).
    apply in_map_iff in Hidx. destruct Hidx as (f & <- & Hf).
    destruct (lookup_index t f Ht) as [b Hb].
    assert (Hrow : In (Some b) (List.map (lookup t) frames)).
    { rewrite <- Hb. apply (in_map (lookup t)). exact Hf. }
    assert (Hk : (0 < length frames)%nat)
      by (destruct frames; [destruct Hf | simpl; lia]).
    cbn [fst snd].
    destruct (@ew_mean_defined Open _ _ _ Hk Hrow) as [vo Ho].
    destruct (@ew_mean_defined High _ _ _ Hk Hrow) as [vh Hh].
    destruct (@ew_mean_defined Low _ _ _ Hk Hrow) as [vl Hl].
    destruct (@ew_mean_defined Close _ _ _ Hk Hrow) as [vc Hc].
    unfold bar_value. cbn [Open High Low Close].
    rewrite Ho, Hh, Hl, Hc. discriminate.
Qed.

Lemma ew_average_values (frames : list (Frame Q)) (t : Z) (b : Bar Q) :
  In (t, b) (ew_average frames) -> mean_bar t frames b.
Proof.
  unfold ew_average. intros Hin. apply in_dropna in Hin.
  destruct Hin as (fb & Hin & Hv).
  apply in_map_iff in Hin. destruct Hin as ([t' row] & Heq & Hin).
  cbn [fst snd] in Heq. injection Heq as -> <-.
  unfold concat_columns in Hin. apply in_map_iff in Hin.
  destruct Hin as (t' & Heq & _). injection Heq as -> <-.
  unfold bar_value in Hv. cbn [Open High Low Close] in Hv.
  destruct (ew_mean Open _ _) as [vo |] eqn:Ho; [| discriminate].
  destruct (ew_mean High _ _) as [vh |] eqn:Hh; [| discriminate].
  destruct (ew_mean Low _ _) as [vl |] eqn:Hl; [| discriminate].
  destruct (ew_mean Close _ _) as [vc |] eqn:Hc; [| discriminate].
  injection Hv as <-. unfold mean_bar, values_at. cbn [Open High Low Close].
  repeat split; eapply ew_mean_value; eassumption.
Qed.

(** The function is the averaging step on the aligned members, or on the
    unaligned ones when there is no common timestamp. *)
Lemma ew_index_unfold (ms : Family Q) (base : Q) :
  filter non_empty ms <> [] ->
  ew_index_from_members ms base
  = ew_average (if empty (resync_index (filter non_empty ms))
                then unaligned_members ms base
                else aligned_members ms base).
Proof.
  intros Hne. unfold ew_index_from_members, aligned_members, unaligned_members.
  fold (ew_average
          (List.map
             (fun kv =>
                normalize_ohlc
                  (if negb (empty (resync_index (filter non_empty ms)))
                   then dropna_rows (reindex (resync_index (filter non_empty ms)) (snd kv))
                   else snd kv) base)
             (filter non_empty ms))).
  destruct (filter non_empty ms) as [| m members] eqn:Em; [congruence |].
  cbv beta iota delta [empty]. cbn [List.map].
  destruct (resync_index (m :: members)); reflexivity.
Qed.

Lemma aligned_member_index (ms : Family Q) (base : Q) (f : Frame Q) :
  In f (aligned_members ms base) ->
  index f = resync_index (filter non_empty ms).
Proof.
  unfold aligned_members. intros Hin. apply in_map_iff in Hin.
  destruct Hin as (kv & <- & Hkv). rewrite normalize_index.
  apply align_index. intros t Ht.
  apply (@resync_index_common _ _ _ Ht kv Hkv).
  apply filter_In in Hkv. apply Hkv.
Qed.

Lemma values_of_all (col : Bar Q -> Q) (t : Z) (frames : list (Frame Q)) :
  (forall f, In f frames -> In t (index f)) ->
  length (values_at col t frames) = length frames.
Proof.
  unfold values_at, present, row_cells.
  induction frames as [| f frames IH]; intros Hall; [reflexivity |].
  cbn [List.map flat_map].
  destruct (lookup_index t f (Hall f (or_introl eq_refl))) as [b ->].
  cbn [option_map app length]. f_equal.
  apply IH. intros f' Hf'. apply Hall. right. exact Hf'.
Qed.

(** C4, as the code has it: the equal-weight composite is the empty series
    when no member is non-empty.  When the non-empty members share
    timestamps it is built on their intersection: each member is restricted
    to it and normalized to the base on its own, and each field of each bar
    is the arithmetic mean of the members' values.  When they share none the
    members are normalized on their own timestamps and the composite covers
    the union of those, each bar averaging the members that have it: the
    composite is then not empty. *)
Theorem equal_weight_composite (ms : Family Q) (base : Q) :
  (filter non_empty ms = [] -> ew_index_from_members ms base = [])
  /\ (resync_index (filter non_empty ms) <> [] ->
      index (ew_index_from_members ms base) = resync_index (filter non_empty ms)
      /\ (forall t b,
             In (t, b) (ew_index_from_members ms base) ->
             mean_bar t (aligned_members ms base) b
             /\ (forall col, length (values_at col t (aligned_members ms base))
                             = length (filter non_empty ms))))
  /\ (filter non_empty ms <> [] ->
      resync_index (filter non_empty ms) = [] ->
      (forall t, In t (index (ew_index_from_members ms base))
                 <-> exists f, In f (unaligned_members ms base) /\ In t (index f))
      /\ ew_index_from_members ms base <> []
      /\ (forall t b,
             In (t, b) (ew_index_from_members ms base) ->
             mean_bar t (unaligned_members ms base) b)).
Proof.
  split; [| split].
  - intros Hnil. unfold ew_index_from_members. rewrite Hnil. reflexivity.
  - intros Hcommon.
    assert (Hne : filter non_empty ms <> []).
    { intros Hnil. apply Hcommon. rewrite Hnil. reflexivity. }
    rewrite (@ew_index_unfold ms base Hne).
    destruct (resync_index (filter non_empty ms)) as [| t0 common] eqn:Ec;
      [congruence |].
    cbv beta iota delta [empty]. rewrite <- Ec in *.
    assert (Hidx : index (ew_average (aligned_members ms base))
                   = resync_index (filter non_empty ms)).
    { rewrite ew_average_index. apply union_indexes_same.
      - unfold aligned_members.
        destruct (filter non_empty ms); [congruence | discriminate].
      - intros i Hi. apply in_map_iff in Hi. destruct Hi as (f & <- & Hf).
        apply (@aligned_member_index _ _ _ Hf). }
    split; [exact Hidx |].
    intros t b Hin. split; [apply ew_average_values; exact Hin |].
    intros col.
    assert (Ht : In t (resync_index (filter non_empty ms))).
    { rewrite <- Hidx. apply (in_map fst _ (t, b)). exact Hin. }
    rewrite values_of_all.
    + unfold aligned_members. apply length_map.
    + intros f Hf. rewrite (@aligned_member_index _ _ _ Hf). exact Ht.
  - intros Hne Hcommon. rewrite (@ew_index_unfold ms base Hne), Hcommon.
    cbv beta iota delta [empty].
    assert (Hidx : index (ew_average (unaligned_members ms base))
                   = union_indexes (List.map index (unaligned_members ms base)))
      by apply ew_average_index.
    split; [| split; [| intros t b; apply ew_average_values]].
    { intros t. rewrite Hidx, in_union_indexes. split.
      - intros (idx & Hin & Ht). apply in_map_iff in Hin.
        destruct Hin as (f & <- & Hf). exists f. split; assumption.
      - intros (f & Hf & Ht). exists (index f).
        split; [apply in_map; exact Hf | exact Ht]. }
    intros Hnil.
    assert (Hfirst : exists t0, In t0 (index (ew_average (unaligned_members ms base)))).
    { rewrite Hidx. unfold unaligned_members.
      destruct (filter non_empty ms) as [| [name m] members] eqn:Em; [congruence |].
      assert (Hm : non_empty (name, m) = true).
      { assert (Hin : In (name, m) (filter non_empty ms))
          by (rewrite Em; left; reflexivity).
        apply filter_In in Hin. apply Hin. }
      destruct m as [| [t0 b0] m']; [discriminate Hm |].
      exists t0. apply in_union_indexes. eexists. split; [left; reflexivity |].
      rewrite normalize_index. left. reflexivity. }
    destruct Hfirst as [t0 Ht0]. rewrite Hnil in Ht0. destruct Ht0.
Qed.

Lemma equal_weight_composite_witness :
  index (ew_index_from_members overlapping_members 100)
  = resync_index (filter non_empty overlapping_members)
  /\ (forall t b,
         In (t, b) (ew_index_from_members overlapping_members 100) ->
         mean_bar t (aligned_members overlapping_members 100) b
         /\ (forall col,
                length (values_at col t (aligned_members overlapping_members 100))
                = length (filter non_empty overlapping_members))).
Proof.
  apply (proj1 (proj2 (equal_weight_composite overlapping_members 100))).
  vm_compute. discriminate.
Defined.

(** C4, as stated, fails: two members with no timestamp in common have an
    empty intersection, yet their composite has a bar for each of their
    three timestamps. *)
Lemma disjoint_members_composite_not_empty :
  resync_index (filter non_empty disjoint_members) = []
  /\ index (ew_index_from_members disjoint_members 100) = [1%Z; 2%Z; 5%Z]
  /\ ew_index_from_members disjoint_members 100 <> [].
Proof.
  split; [reflexivity |]. split; [reflexivity |]. vm_compute. discriminate.
Qed.

End EqualWeightFacts.

Section GeometricFacts.

Local Open Scope R_scope.

Lemma np_log_positive (r : R) : 0 < r -> np_log (XFin r) = XFin (ln r).
Proof.
  intros Hr. unfold np_log. destruct (Rlt_dec 0 r); [reflexivity | contradiction].
Qed.

Lemma np_log_zero : np_log (XFin 0) = XNegInf.
Proof.
  unfold np_log. destruct (Rlt_dec 0 0) as [H | _]; [lra |].
  destruct (Req_dec_T 0 0) as [_ | H]; [reflexivity | lra].
Qed.

Lemma xsum_finite (l : list R) : xsum (List.map XFin l) = XFin (rsum l).
Proof.
  induction l as [| x l IH]; [reflexivity |].
  cbn [List.map xsum fold_right]. fold (xsum (List.map XFin l)).
  rewrite IH. reflexivity.
Qed.

Lemma filter_finite (l : list R) :
  filter (fun c => negb (xisna c)) (List.map XFin l) = List.map XFin l.
Proof. induction l as [| x l IH]; [reflexivity |]. simpl. rewrite IH. reflexivity. Qed.

(** On strictly positive values the cell is the geometric mean. *)
Lemma geo_of_positive (vals : list R) :
  vals <> [] -> (forall v, In v vals -> 0 < v) ->
  geo_of vals = XFin (exp (log_mean vals)).
Proof.
  intros Hne Hpos. unfold geo_of, log_mean.
  assert (Hlog : List.map np_log (List.map XFin vals)
                 = List.map XFin (List.map ln vals)).
  { rewrite !map_map. apply map_ext_in. intros v Hv.
    apply np_log_positive, Hpos, Hv. }
  rewrite Hlog. unfold xmean_skipna. rewrite filter_finite.
  destruct vals as [| v vals]; [congruence |].
  cbn [List.map empty]. rewrite <- !map_cons, xsum_finite.
  cbn [xdiv_count np_exp]. rewrite !length_map. reflexivity.
Qed.

End GeometricFacts.

Section CompositeFacts.

Local Open Scope R_scope.

Variable fetch_data : string -> Frame R.

Lemma composite_data_non_empty (kv : string * Frame R) :
  In kv (composite_data fetch_data) -> non_empty kv = true.
Proof.
  unfold composite_data. intros Hin. apply in_flat_map in Hin.
  destruct Hin as (p & _ & Hin). cbv zeta in Hin. revert Hin.
  match goal with
  | |- In _ (if ?c then _ else _) -> _ => destruct c eqn:He
  end; [| intros []].
  intros [<- | []]. exact He.
Qed.

Lemma aligned_frames (idx : list Z) (l : Family R) :
  (forall kv, In kv l -> non_empty kv = true) ->
  flat_map (fun kv => if negb (empty (snd kv))
                      then [dropna_rows (reindex idx (snd kv))] else []) l
  = List.map (fun kv => dropna_rows (reindex idx (snd kv))) l.
Proof.
  induction l as [| kv l IH]; intros Hall; [reflexivity |].
  cbn [flat_map List.map].
  assert (Hkv : non_empty kv = true) by (apply (Hall kv); left; reflexivity).
  unfold non_empty, Frame in *. rewrite Hkv. cbn [app]. f_equal.
  apply IH. intros kv' Hin. apply Hall. right. exact Hin.
Qed.

Lemma find_labelled (A : Type) (g : Z -> A) (t : Z) (idx : list Z) :
  In t idx ->
  find (fun r => Z.eqb (fst r) t) (List.map (fun t => (t, g t)) idx) = Some (t, g t).
Proof.
  induction idx as [| t' idx IH]; intros Hin; [destruct Hin |].
  cbn [List.map find fst]. destruct (Z.eqb_spec t' t) as [-> | Hne]; [reflexivity |].
  destruct Hin as [Heq | Hin]; [contradiction | apply IH; exact Hin].
Qed.

Lemma xs_cells_members (col : Bar R -> R) (t : Z) (idx : list Z) (l : Family R) :
  (forall kv, In kv l -> forall t', In t' idx -> In t' (index (snd kv))) ->
  In t idx ->
  xs_cells col (List.map (lookup t)
                         (List.map (fun kv => dropna_rows (reindex idx (snd kv))) l))
  = List.map XFin (member_values col t l).
Proof.
  intros Hsub Ht. induction l as [| kv l IH]; [reflexivity |].
  cbn [List.map xs_cells member_values flat_map].
  fold (member_values col t l).
  rewrite (@align_lookup _ idx (snd kv) t (Hsub kv (or_introl eq_refl)) Ht).
  destruct (lookup_index t (snd kv) (Hsub kv (or_introl eq_refl) t Ht)) as [b ->].
  cbn [app List.map]. f_equal.
  apply IH. intros kv' Hin. apply Hsub. right. exact Hin.
Qed.

(** The composite, bar by bar of the common index. *)
Lemma composite_rows :
  build_yahoo_composite fetch_data
  = xdropna (List.map (fun t => (t, geo_bar t (composite_data fetch_data)))
                      (resync_index (composite_data fetch_data))).
Proof.
  unfold build_yahoo_composite. cbv zeta.
  pose proof composite_data_non_empty as Hne.
  set (data := composite_data fetch_data) in *.
  destruct data as [| kv0 data'] eqn:Ed; [reflexivity |].
  cbv beta iota delta [empty]. rewrite <- Ed in *. clear Ed kv0 data'.
  rewrite (@aligned_frames _ _ Hne). f_equal.
  apply map_ext_in. intros t Ht.
  assert (Hsub : forall kv, In kv data ->
                 forall t', In t' (resync_index data) -> In t' (index (snd kv))).
  { intros kv Hkv t' Ht'.
    apply (@resync_index_common _ _ _ Ht' kv Hkv). apply Hne. exact Hkv. }
  assert (Hrow : merged_row
                   (concat_columns
                      (List.map (fun kv => dropna_rows (reindex (resync_index data) (snd kv)))
                                data))
                   t (length (List.map
                                (fun kv => dropna_rows (reindex (resync_index data) (snd kv)))
                                data))
                 = List.map (lookup t)
                     (List.map (fun kv => dropna_rows (reindex (resync_index data) (snd kv)))
                               data)).
  { unfold merged_row, concat_columns.
    rewrite (@union_indexes_same (resync_index data)).
    - rewrite find_labelled by exact Ht. reflexivity.
    - destruct data; [destruct Ht | discriminate].
    - intros i Hi. rewrite map_map in Hi. apply in_map_iff in Hi.
      destruct Hi as (kv & <- & Hkv). apply align_index. apply Hsub. exact Hkv. }
  rewrite Hrow. unfold geo_bar, geo_cell, geo_of.
  rewrite !(@xs_cells_members _ _ _ _ Hsub Ht). reflexivity.
Qed.

Lemma member_values_positive (col : Bar R -> R) (t : Z) (data : Family R) :
  (forall kv b, In kv data -> lookup t (snd kv) = Some b -> 0 < col b) ->
  forall v, In v (member_values col t data) -> 0 < v.
Proof.
  intros Hpos v Hv. unfold member_values in Hv. apply in_flat_map in Hv.
  destruct Hv as (kv & Hkv & Hv).
  destruct (lookup t (snd kv)) as [b |] eqn:Hb; [| destruct Hv].
  destruct Hv as [<- | []]. apply (Hpos kv b Hkv Hb).
Qed.

Lemma member_values_non_empty (col : Bar R -> R) (t : Z) (data : Family R) :
  In t (resync_index data) ->
  (forall kv, In kv data -> non_empty kv = true) ->
  member_values col t data <> [].
Proof.
  intros Ht Hne. destruct data as [| kv data]; [destruct Ht |].
  assert (Hin : In t (index (snd kv))).
  { apply (@resync_index_common _ _ _ Ht kv); [left; reflexivity |].
    apply Hne. left. reflexivity. }
  destruct (lookup_index t (snd kv) Hin) as [b Hb].
  unfold member_values. cbn [flat_map]. rewrite Hb. discriminate.
Qed.

(** C5, as the code has it: the composite is built on the common index of
    the fetched members, and a bar of that index is left out exactly when
    the result of one of its fields is NaN; no test looks at the sign of
    the members' values.  On a bar where every member value of every field
    is strictly positive the bar is kept and each field is the exponential
    of the arithmetic mean of the natural logs of the members' values. *)
Theorem geometric_composite_of_positive_bars :
  (forall t b,
      In (t, b) (build_yahoo_composite fetch_data)
      <-> In t (resync_index (composite_data fetch_data))
          /\ b = geo_bar t (composite_data fetch_data)
          /\ xbar_has_nan b = false)
  /\ (forall t,
         In t (resync_index (composite_data fetch_data)) ->
         (forall kv b, In kv (composite_data fetch_data) ->
                       lookup t (snd kv) = Some b -> positive_bar b) ->
         exists b,
           In (t, b) (build_yahoo_composite fetch_data)
           /\ geometric_bar t (composite_data fetch_data) b).
Proof.
  rewrite composite_rows.
  set (data := composite_data fetch_data) in *.
  assert (Hrows : forall t b,
             In (t, b) (xdropna (List.map (fun t => (t, geo_bar t data))
                                          (resync_index data)))
             <-> In t (resync_index data) /\ b = geo_bar t data
                 /\ xbar_has_nan b = false).
  { intros t b. unfold xdropna. rewrite filter_In, in_map_iff. cbn [snd].
    rewrite negb_true_iff. split.
    - intros [(t' & Heq & Ht) Hnan]. injection Heq as -> <-. auto.
    - intros (Ht & -> & Hnan). split; [exists t; auto | exact Hnan]. }
  split; [exact Hrows |].
  intros t Ht Hpos.
  assert (Hcell : forall col : Bar R -> R,
             (forall b, positive_bar b -> 0 < col b) ->
             geo_of (member_values col t data)
             = XFin (exp (log_mean (member_values col t data)))).
  { intros col Hcol. apply geo_of_positive.
    - apply member_values_non_empty; [exact Ht |].
      apply composite_data_non_empty.
    - apply member_values_positive. intros kv b Hkv Hb.
      apply Hcol. apply (Hpos kv b Hkv Hb). }
  assert (Ho := Hcell Open (fun b H => proj1 H)).
  assert (Hh := Hcell High (fun b H => proj1 (proj2 H))).
  assert (Hl := Hcell Low (fun b H => proj1 (proj2 (proj2 H)))).
  assert (Hc := Hcell Close (fun b H => proj2 (proj2 (proj2 H)))).
  exists (geo_bar t data). split.
  - apply Hrows. split; [exact Ht |]. split; [reflexivity |].
    unfold xbar_has_nan, geo_bar. cbn [Open High Low Close].
    rewrite Ho, Hh, Hl, Hc. reflexivity.
  - unfold geometric_bar, geo_bar. cbn [Open High Low Close].
    repeat split; assumption.
Qed.

End CompositeFacts.

Section CompositeExamples.

Local Open Scope R_scope.

Lemma geometric_composite_of_positive_bars_witness :
  exists b,
    In (1%Z, b) (build_yahoo_composite fetch_positive)
    /\ geometric_bar 1 (composite_data fetch_positive) b.
Proof.
  apply (proj2 (geometric_composite_of_positive_bars fetch_positive) 1%Z).
  - simpl. left. reflexivity.
  - intros kv b Hkv Hb. simpl in Hkv.
    destruct Hkv as [<- | [<- | [<- | [<- | []]]]];
      injection Hb as <-; unfold positive_bar; simpl; repeat split; lra.
Defined.

(** C5, as stated, fails: when every member opens a bar at zero, the bar
    is not excluded; it is emitted with an open of zero. *)
Lemma zero_value_bar_is_emitted :
  (forall kv, In kv (composite_data fetch_zero_open) ->
              lookup 1 (snd kv) = Some (mkBar 0 1 1 1))
  /\ exists b,
       In (1%Z, b) (build_yahoo_composite fetch_zero_open)
       /\ Open b = XFin 0.
Proof.
  split.
  - intros kv Hkv. simpl in Hkv.
    destruct Hkv as [<- | [<- | [<- | [<- | []]]]]; reflexivity.
  - rewrite composite_rows.
    exists (geo_bar 1 (composite_data fetch_zero_open)).
    assert (Hopen : Open (geo_bar 1 (composite_data fetch_zero_open)) = XFin 0).
    { unfold geo_bar, geo_of. cbn [Open].
      replace (member_values Open 1 (composite_data fetch_zero_open))
        with [0; 0; 0; 0] by reflexivity.
      cbn [List.map]. rewrite np_log_zero. reflexivity. }
    assert (Hone : forall col : Bar R -> R,
               member_values col 1 (composite_data fetch_zero_open)
               = [col (mkBar 0 1 1 1); col (mkBar 0 1 1 1);
                  col (mkBar 0 1 1 1); col (mkBar 0 1 1 1)])
      by (intros col; reflexivity).
    assert (Hfin : forall col : Bar R -> R,
               0 < col (mkBar 0 1 1 1) ->
               xisna (geo_of (member_values col 1 (composite_data fetch_zero_open)))
               = false).
    { intros col Hcol. rewrite geo_of_positive; [reflexivity | |].
      - rewrite Hone. discriminate.
      - rewrite Hone. intros v Hv. simpl in Hv.
        destruct Hv as [<- | [<- | [<- | [<- | []]]]]; exact Hcol. }
    split; [| exact Hopen].
    unfold xdropna. apply filter_In. split.
    + simpl. left. reflexivity.
    + unfold xbar_has_nan. cbn [snd]. rewrite Hopen.
      unfold geo_bar. cbn [Open High Low Close xisna orb].
      rewrite !Hfin by (simpl; lra). reflexivity.
Qed.

End CompositeExamples.


(* ================================================================== *)
(** * Further properties of the series algebra and the classifiers *)

Unset Implicit Arguments.

Section WindowFacts.

Lemma in_firstn (A : Type) (n : nat) (l : list A) (x : A) :
  In x (firstn n l) -> In x l.
Proof.
  intros Hin. rewrite <- (firstn_skipn n l). apply in_or_app. left. exact Hin.
Qed.

Lemma in_skipn (A : Type) (n : nat) (l : list A) (x : A) :
  In x (skipn n l) -> In x l.
Proof.
  intros Hin. rewrite <- (firstn_skipn n l). apply in_or_app. right. exact Hin.
Qed.

Lemma in_window (A : Type) (n i : nat) (l : list A) (x : A) :
  In x (window n i l) -> In x l.
Proof. unfold window. intros Hin. apply in_firstn, in_skipn in Hin. exact Hin. Qed.

(** A full window ends with the current bar. *)
Lemma window_has_current (A : Type) (w i : nat) (xs : list A) (d : A) :
  (1 <= w)%nat -> (w <= i + 1)%nat -> (i < length xs)%nat ->
  In (nth i xs d) (window w i xs).
Proof.
  intros Hw Hwi Hi. apply (nth_error_In _ (w - 1)).
  unfold window. rewrite nth_error_firstn, nth_error_skipn.
  destruct (Nat.ltb_spec (w - 1) w); [| lia].
  replace (i + 1 - w + (w - 1))%nat with i by lia.
  apply nth_error_nth'. exact Hi.
Qed.

Lemma window_non_empty (A : Type) (w i : nat) (xs : list A) :
  (1 <= w)%nat -> (w <= i + 1)%nat -> (i < length xs)%nat -> window w i xs <> [].
Proof.
  intros Hw Hwi Hi Hnil.
  destruct xs as [| x xs]; [simpl in Hi; lia |].
  pose proof (window_has_current _ w i (x :: xs) x Hw Hwi Hi) as Hin.
  rewrite Hnil in Hin. destruct Hin.
Qed.

Lemma timeframe_window (df : Frame Q) (atr_y atr_w atr_d w a : nat)
    (rf : RegimeFrame) :
  In (w, a, rf) (timeframes df atr_y atr_w atr_d) -> (1 <= w)%nat.
Proof.
  intros [Heq | [Heq | [Heq | []]]]; injection Heq as <- _ _;
    unfold YEARLY_RANGE_DAYS; lia.
Qed.

Lemma nth_column (col : Bar Q -> Q) (df : Frame Q) (i : nat) (t : Z) (b : Bar Q) :
  nth_error df i = Some (t, b) -> nth i (column col df) 0 = col b.
Proof.
  intros Hnth. apply nth_error_nth. unfold column.
  rewrite nth_error_map, Hnth. reflexivity.
Qed.

Lemma qsum_nonneg (xs : list Q) : (forall x, In x xs -> 0 <= x) -> 0 <= qsum xs.
Proof.
  induction xs as [| x xs IH]; intros Hall; [apply Qle_refl |].
  unfold qsum. cbn [fold_right]. fold (qsum xs).
  rewrite <- (Qplus_0_l 0). apply Qplus_le_compat.
  - apply Hall. left. reflexivity.
  - apply IH. intros y Hy. apply Hall. right. exact Hy.
Qed.

Lemma qmean_nonneg (xs : list Q) : (forall x, In x xs -> 0 <= x) -> 0 <= qmean xs.
Proof.
  intros Hall. unfold qmean, Qdiv. apply Qmult_le_0_compat.
  - apply qsum_nonneg. exact Hall.
  - apply Qinv_le_0_compat. unfold Qle. simpl. lia.
Qed.

Lemma true_range_nonneg (b : Bar Q) (prev : float) : 0 <= true_range b prev.
Proof.
  unfold true_range. destruct prev as [pc |]; [| apply Qabs_nonneg].
  eapply Qle_trans; [apply Qabs_nonneg |].
  eapply Qle_trans; [apply Q.le_max_l |]. apply Q.le_max_l.
Qed.

Lemma true_ranges_nonneg (df : Frame Q) (x : Q) : In x (true_ranges df) -> 0 <= x.
Proof.
  unfold true_ranges. intros Hin. apply in_map_iff in Hin.
  destruct Hin as (p & <- & _). apply true_range_nonneg.
Qed.

End WindowFacts.

Section AtrFacts.

(** X1: with a period of at least one bar the ATR has one value per bar,
    never NaN and never negative, and on the first bar, which has no
    previous close, it is the bar's own range |High - Low|. *)
Theorem atr_defined_and_nonnegative (df : Frame Q) (period : nat) :
  (1 <= period)%nat ->
  length (atr df period) = length df
  /\ (forall i, (i < length df)%nat ->
         exists v, iloc (atr df period) i = Some v /\ 0 <= v)
  /\ (forall t b rest, df = (t, b) :: rest ->
         exists v, iloc (atr df period) 0 = Some v /\ v == Qabs (High b - Low b)).
Proof.
  intros Hp. split; [| split].
  - unfold atr. destruct df as [| r df']; [reflexivity |].
    cbv beta iota delta [empty]. unfold rolling_min1.
    rewrite length_map, length_seq. apply length_true_ranges.
  - intros i Hi. exists (atr_at period df i). split; [apply iloc_atr; exact Hi |].
    unfold atr_at. apply qmean_nonneg. intros x Hx.
    apply in_window in Hx. apply (true_ranges_nonneg _ _ Hx).
  - intros t b rest ->. eexists. split.
    + apply iloc_atr. simpl. lia.
    + unfold atr_at.
      replace (Nat.min period (0 + 1)) with 1%nat by lia.
      unfold window, true_ranges, shift, bars, column.
      cbn [List.map length firstn skipn combine Nat.sub Nat.add fst snd true_range].
      unfold qmean, qsum, true_range, nan. cbn [fold_right length].
      change (inject_Z (Z.of_nat 1)) with 1. field.
Qed.

Lemma atr_defined_and_nonnegative_witness :
  length (atr (scenario_frame 12) 14) = length (scenario_frame 12)
  /\ (forall i, (i < length (scenario_frame 12))%nat ->
         exists v, iloc (atr (scenario_frame 12) 14) i = Some v /\ 0 <= v)
  /\ (forall t b rest, scenario_frame 12 = (t, b) :: rest ->
         exists v, iloc (atr (scenario_frame 12) 14) 0 = Some v
                   /\ v == Qabs (High b - Low b)).
Proof. apply (atr_defined_and_nonnegative (scenario_frame 12) 14%nat). lia. Defined.

End AtrFacts.

Section LabelFacts.

Open Scope string_scope.

Lemma macro_strong_bull_needs (close hi lo mid : float) :
  _classify_macro close hi lo mid = "Strong Bull" -> gt close hi = true.
Proof.
  unfold _classify_macro.
  destruct (gt close mid), (gt close hi), (lt close mid), (lt close lo);
    simpl; intros H; try discriminate H; reflexivity.
Qed.

Lemma macro_strong_bear_needs (close hi lo mid : float) :
  _classify_macro close hi lo mid = "Strong Bear" -> lt close lo = true.
Proof.
  unfold _classify_macro.
  destruct (gt close mid), (gt close hi), (lt close mid), (lt close lo);
    simpl; intros H; try discriminate H; reflexivity.
Qed.

Lemma transition_strong_bull_needs (close hi lo mid atr_val : float) (thr : Q) :
  _classify_transition close hi lo mid atr_val thr = "Approaching Strong Bull" ->
  gt close hi = true.
Proof.
  unfold _classify_transition. cbv zeta.
  destruct (le atr_val (Some 0)); [discriminate |].
  destruct (lt close hi && gt close mid && lt (div (sub hi close) atr_val) (Some thr));
    [discriminate |].
  destruct (gt close hi); [reflexivity |]. cbn [andb].
  destruct (gt close lo && lt close mid && lt (div (sub close lo) atr_val) (Some thr));
    [discriminate |].
  destruct (lt close lo && lt (div (sub close lo) atr_val) (Some thr)); discriminate.
Qed.

Lemma transition_strong_bear_needs (close hi lo mid atr_val : float) (thr : Q) :
  _classify_transition close hi lo mid atr_val thr = "Approaching Strong Bear" ->
  lt close lo = true.
Proof.
  unfold _classify_transition. cbv zeta.
  destruct (le atr_val (Some 0)); [discriminate |].
  destruct (lt close hi && gt close mid && lt (div (sub hi close) atr_val) (Some thr));
    [discriminate |].
  destruct (gt close hi && lt (div (sub hi close) atr_val) (Some thr));
    [discriminate |].
  destruct (gt close lo && lt close mid && lt (div (sub close lo) atr_val) (Some thr));
    [discriminate |].
  destruct (lt close lo); [reflexivity |]. cbn [andb]. discriminate.
Qed.

(** The bar of a classified row and the place of its close in the window. *)
Lemma close_within_window (df : Frame Q) (w i : nat) :
  well_formed_series df ->
  (1 <= w)%nat -> (w <= i + 1)%nat -> (i < length df)%nat ->
  lo_at w df i <= close_at df i /\ close_at df i <= hi_at w df i.
Proof.
  intros Hwf Hw Hwi Hi.
  destruct (nth_error df i) as [[t b] |] eqn:Hnth;
    [| apply nth_error_None in Hnth; lia].
  destruct (Hwf t b (nth_error_In _ _ Hnth)) as [Hlow Hhigh].
  unfold close_at, lo_at, hi_at.
  rewrite (nth_column Close df i t b Hnth).
  assert (Hh : In (High b) (window w i (column High df))).
  { rewrite <- (nth_column High df i t b Hnth).
    apply window_has_current; try assumption. rewrite length_column. exact Hi. }
  assert (Hl : In (Low b) (window w i (column Low df))).
  { rewrite <- (nth_column Low df i t b Hnth).
    apply window_has_current; try assumption. rewrite length_column. exact Hi. }
  assert (Hne_h : window w i (column High df) <> [])
    by (intros Hnil; rewrite Hnil in Hh; destruct Hh).
  assert (Hne_l : window w i (column Low df) <> [])
    by (intros Hnil; rewrite Hnil in Hl; destruct Hl).
  split.
  - eapply Qle_trans; [| exact Hlow].
    apply (proj2 (qmin_list_spec Hne_l)). exact Hl.
  - eapply Qle_trans; [exact Hhigh |].
    apply (proj2 (qmax_list_spec Hne_h)). exact Hh.
Qed.

(** X2: on a series whose bars close inside their own range, the rolling
    hi and lo include the current bar, so no classified bar of the yearly,
    weekly or daily frame is ever Strong Bull or Strong Bear, and none
    carries an Approaching Strong transition. *)
Theorem strong_labels_need_close_outside_range (df : Frame Q)
    (atr_y atr_w atr_d w a : nat) (rf : RegimeFrame) (i : nat) (t : Z)
    (row : RegimeRow) :
  well_formed_series df ->
  In (w, a, rf) (timeframes df atr_y atr_w atr_d) ->
  nth_error rf i = Some (t, row) ->
  is_classified (t, row) = true ->
  Macro row <> Some "Strong Bull"
  /\ Macro row <> Some "Strong Bear"
  /\ Transition row <> Some "Approaching Strong Bull"
  /\ Transition row <> Some "Approaching Strong Bear".
Proof.
  intros Hwf Hrf Hnth Hc.
  destruct (@classified_timeframe_row _ _ _ _ _ _ _ _ _ _ Hrf Hnth Hc)
    as (Hi & Hwi & ->).
  pose proof (timeframe_window _ _ _ _ _ _ _ Hrf) as Hw.
  destruct (close_within_window df w i Hwf Hw Hwi Hi) as [Hlo Hhi].
  assert (Hngt : gt (Some (close_at df i)) (Some (hi_at w df i)) = false).
  { rewrite gt_some. apply Qltb_nlt. apply Qle_not_lt. exact Hhi. }
  assert (Hnlt : lt (Some (close_at df i)) (Some (lo_at w df i)) = false).
  { rewrite lt_some. apply Qltb_nlt. apply Qle_not_lt. exact Hlo. }
  unfold expected_row. cbn [Macro Transition].
  repeat split; intros Heq; injection Heq as Heq.
  - apply macro_strong_bull_needs in Heq. congruence.
  - apply macro_strong_bear_needs in Heq. congruence.
  - apply transition_strong_bull_needs in Heq. congruence.
  - apply transition_strong_bear_needs in Heq. congruence.
Qed.

Lemma scenario_well_formed : well_formed_series (scenario_frame 12).
Proof.
  intros t b Hin. apply (in_combine_r _ _ _ _) in Hin.
  apply in_app_or in Hin. destruct Hin as [Hin | [<- | []]].
  - apply repeat_spec in Hin. subst b. split; discriminate.
  - split; discriminate.
Qed.

Lemma strong_labels_need_close_outside_range_witness :
  Macro (expected_row 28 ATR_PERIOD (scenario_frame 12) 28) <> Some "Strong Bull"
  /\ Macro (expected_row 28 ATR_PERIOD (scenario_frame 12) 28) <> Some "Strong Bear"
  /\ Transition (expected_row 28 ATR_PERIOD (scenario_frame 12) 28)
     <> Some "Approaching Strong Bull"
  /\ Transition (expected_row 28 ATR_PERIOD (scenario_frame 12) 28)
     <> Some "Approaching Strong Bear".
Proof.
  apply (strong_labels_need_close_outside_range (scenario_frame 12) ATR_PERIOD
           14%nat 14%nat 28%nat ATR_PERIOD
           (classify_regime (scenario_frame 12) ATR_PERIOD) 28%nat 28%Z).
  - exact scenario_well_formed.
  - left. reflexivity.
  - reflexivity.
  - reflexivity.
Defined.

End LabelFacts.

Section FlatFacts.

Open Scope string_scope.

Lemma all_equal_max (xs : list Q) (c : Q) :
  xs <> [] -> (forall x, In x xs -> x = c) -> qmax_list xs = c /\ qmin_list xs = c.
Proof.
  intros Hne Hall. split.
  - apply Hall. apply (proj1 (qmax_list_spec Hne)).
  - apply Hall. apply (proj1 (qmin_list_spec Hne)).
Qed.

Lemma flat_column (c : Q) (df : Frame Q) (col : Bar Q -> Q) (x : Q) :
  (forall t b, In (t, b) df -> col b = c) -> In x (column col df) -> x = c.
Proof.
  intros Hflat Hin. unfold column in Hin. apply in_map_iff in Hin.
  destruct Hin as ([t b] & <- & Hin). apply (Hflat t b Hin).
Qed.

Lemma flat_statistics (c : Q) (df : Frame Q) (w i : nat) :
  flat_series c df ->
  (1 <= w)%nat -> (w <= i + 1)%nat -> (i < length df)%nat ->
  close_at df i = c /\ hi_at w df i = c /\ lo_at w df i = c.
Proof.
  intros Hflat Hw Hwi Hi.
  destruct (nth_error df i) as [[t b] |] eqn:Hnth;
    [| apply nth_error_None in Hnth; lia].
  destruct (Hflat t b (nth_error_In _ _ Hnth)) as (_ & _ & Hclose).
  unfold close_at, hi_at, lo_at.
  rewrite (nth_column Close df i t b Hnth).
  split; [exact Hclose |]. split.
  - apply all_equal_max.
    + apply window_non_empty; try assumption. rewrite length_column. exact Hi.
    + intros x Hx. apply in_window in Hx.
      apply (flat_column c df High x); [| exact Hx].
      intros t' b' Hin. apply (Hflat t' b' Hin).
  - apply all_equal_max.
    + apply window_non_empty; try assumption. rewrite length_column. exact Hi.
    + intros x Hx. apply in_window in Hx.
      apply (flat_column c df Low x); [| exact Hx].
      intros t' b' Hin. apply (Hflat t' b' Hin).
Qed.

(** X3: on a series whose every bar has high, low and close at one same
    price, every classified bar of the yearly, weekly and daily frames is
    Neutral in macro and micro with the transition None, whatever the ATR
    and the opens. *)
Theorem flat_series_is_neutral (c : Q) (df : Frame Q)
    (atr_y atr_w atr_d w a : nat) (rf : RegimeFrame) (i : nat) (t : Z)
    (row : RegimeRow) :
  flat_series c df ->
  In (w, a, rf) (timeframes df atr_y atr_w atr_d) ->
  nth_error rf i = Some (t, row) ->
  is_classified (t, row) = true ->
  Macro row = Some "Neutral"
  /\ Micro row = Some "Neutral"
  /\ Transition row = Some "None"
  /\ rClose row = Some c /\ Hi row = Some c /\ Lo row = Some c.
Proof.
  intros Hflat Hrf Hnth Hc.
  destruct (@classified_timeframe_row _ _ _ _ _ _ _ _ _ _ Hrf Hnth Hc)
    as (Hidx & Hwi & ->).
  pose proof (timeframe_window _ _ _ _ _ _ _ Hrf) as Hw.
  destruct (flat_statistics c df w i Hflat Hw Hwi Hidx) as (Hcl & Hhi & Hlo).
  assert (Hmid : mid_at w df i == c).
  { unfold mid_at. rewrite Hhi, Hlo. field. }
  assert (Hmacro : _classify_macro (Some (close_at df i)) (Some (hi_at w df i))
                                   (Some (lo_at w df i)) (Some (mid_at w df i))
                   = "Neutral").
  { destruct (classify_macro_rule (close_at df i) (hi_at w df i) (lo_at w df i)
                                  (mid_at w df i)) as (_ & _ & _ & _ & Hn).
    apply Hn; rewrite Hmid, Hcl; apply Qlt_irrefl. }
  unfold expected_row. cbn [Macro Micro Transition rClose Hi Lo].
  rewrite Hmacro. split; [reflexivity |]. split; [reflexivity |].
  split; [| rewrite Hcl, Hhi, Hlo; auto].
  f_equal.
  destruct (classify_transition_rule (close_at df i) (hi_at w df i) (lo_at w df i)
                                     (mid_at w df i) (atr_at a df i) NEAR_THRESH_ATR)
    as [Hzero Hpos].
  destruct (Qlt_le_dec 0 (atr_at a df i)) as [Hatr | Hatr]; [| apply Hzero; exact Hatr].
  destruct (Hpos Hatr) as (_ & _ & _ & _ & Hnone).
  apply Hnone; rewrite ?Hmid, Hcl, ?Hhi, ?Hlo;
    intros Hrule; decompose [and] Hrule;
    match goal with H : c < c |- _ => exact (Qlt_irrefl c H) end.
Qed.

Lemma flat_frame_is_flat : flat_series 7 flat_frame.
Proof.
  intros t b Hin. apply (in_combine_r _ _ _ _) in Hin.
  apply repeat_spec in Hin. subst b. repeat split.
Qed.

Lemma flat_series_is_neutral_witness :
  Macro (expected_row 28 ATR_PERIOD flat_frame 29) = Some "Neutral"
  /\ Micro (expected_row 28 ATR_PERIOD flat_frame 29) = Some "Neutral"
  /\ Transition (expected_row 28 ATR_PERIOD flat_frame 29) = Some "None"
  /\ rClose (expected_row 28 ATR_PERIOD flat_frame 29) = Some 7
  /\ Hi (expected_row 28 ATR_PERIOD flat_frame 29) = Some 7
  /\ Lo (expected_row 28 ATR_PERIOD flat_frame 29) = Some 7.
Proof.
  apply (flat_series_is_neutral 7 flat_frame ATR_PERIOD 14%nat 14%nat 28%nat
           ATR_PERIOD (classify_regime flat_frame ATR_PERIOD) 29%nat 29%Z).
  - exact flat_frame_is_flat.
  - left. reflexivity.
  - reflexivity.
  - reflexivity.
Defined.

End FlatFacts.

Section ConsistencyFacts.

Open Scope string_scope.

Lemma transition_names_macro_of (close hi lo atr_val thr : Q) :
  lo <= hi ->
  let mid := (hi + lo) / 2 in
  let macro := _classify_macro (Some close) (Some hi) (Some lo) (Some mid) in
  let trans := _classify_transition (Some close) (Some hi) (Some lo) (Some mid)
                                    (Some atr_val) thr in
  trans = "None" \/ trans = "Approaching " ++ macro.
Proof.
  intros Hrange mid macro trans. subst macro trans.
  assert (Hmid : 2 * mid == hi + lo) by (unfold mid; field).
  clearbody mid.
  unfold _classify_transition, _classify_macro.
  cbv beta iota zeta delta [le cmp2 div sub lift2].
  rewrite !gt_some, !lt_some.
  destruct (Qle_bool atr_val 0); [left; reflexivity |].
  set (dh := (hi - close) / atr_val). set (dl := (close - lo) / atr_val).
  destruct (Qltb close hi && Qltb mid close && Qltb dh thr) eqn:Ea.
  { apply andb_true_iff in Ea. destruct Ea as [Ea _].
    apply andb_true_iff in Ea. destruct Ea as [E1 E2].
    rewrite E2. apply Qltb_lt in E1, E2. right.
    decide_Qltb hi close; [exfalso; Lqa.lra |]. reflexivity. }
  destruct (Qltb hi close && Qltb dh thr) eqn:Eb.
  { apply andb_true_iff in Eb. destruct Eb as [E1 _].
    rewrite E1. apply Qltb_lt in E1. right.
    decide_Qltb mid close; [| exfalso; Lqa.lra]. reflexivity. }
  destruct (Qltb lo close && Qltb close mid && Qltb dl thr) eqn:Ec.
  { apply andb_true_iff in Ec. destruct Ec as [Ec _].
    apply andb_true_iff in Ec. destruct Ec as [E1 E2].
    rewrite E2. apply Qltb_lt in E1, E2. right.
    decide_Qltb mid close; [exfalso; Lqa.lra |].
    decide_Qltb close lo; [exfalso; Lqa.lra |]. reflexivity. }
  destruct (Qltb close lo && Qltb dl thr) eqn:Ed.
  { apply andb_true_iff in Ed. destruct Ed as [E1 _].
    rewrite E1. apply Qltb_lt in E1. right.
    decide_Qltb mid close; [exfalso; Lqa.lra |].
    decide_Qltb close mid; [| exfalso; Lqa.lra]. reflexivity. }
  left. reflexivity.
Qed.

Lemma window_range (df : Frame Q) (w i : nat) :
  ranged_series df ->
  (1 <= w)%nat -> (w <= i + 1)%nat -> (i < length df)%nat ->
  lo_at w df i <= hi_at w df i.
Proof.
  intros Hr Hw Hwi Hi.
  destruct (nth_error df i) as [[t b] |] eqn:Hnth;
    [| apply nth_error_None in Hnth; lia].
  pose proof (Hr t b (nth_error_In _ _ Hnth)) as Hb.
  unfold lo_at, hi_at.
  assert (Hh : In (High b) (window w i (column High df))).
  { rewrite <- (nth_column High df i t b Hnth).
    apply window_has_current; try assumption. rewrite length_column. exact Hi. }
  assert (Hl : In (Low b) (window w i (column Low df))).
  { rewrite <- (nth_column Low df i t b Hnth).
    apply window_has_current; try assumption. rewrite length_column. exact Hi. }
  assert (Hne_h : window w i (column High df) <> [])
    by (intros Hnil; rewrite Hnil in Hh; destruct Hh).
  assert (Hne_l : window w i (column Low df) <> [])
    by (intros Hnil; rewrite Hnil in Hl; destruct Hl).
  eapply Qle_trans; [apply (proj2 (qmin_list_spec Hne_l)); exact Hl |].
  eapply Qle_trans; [exact Hb |].
  apply (proj2 (qmax_list_spec Hne_h)). exact Hh.
Qed.

(** X4: a transition other than None always names the macro state the bar
    is already in: its label is "Approaching " followed by the macro label
    of the same bar.  This holds for the two functions whenever lo <= hi
    and mid = (hi + lo) / 2, hence on every classified bar of the yearly,
    weekly and daily frames of a series whose bars have low <= high. *)
Theorem transition_names_current_macro :
  (forall close hi lo atr_val thr : Q,
      lo <= hi ->
      let mid := (hi + lo) / 2 in
      let macro := _classify_macro (Some close) (Some hi) (Some lo) (Some mid) in
      let trans := _classify_transition (Some close) (Some hi) (Some lo) (Some mid)
                                        (Some atr_val) thr in
      trans = "None" \/ trans = "Approaching " ++ macro)
  /\ (forall (df : Frame Q) (atr_y atr_w atr_d w a : nat) rf i t row,
         ranged_series df ->
         In (w, a, rf) (timeframes df atr_y atr_w atr_d) ->
         nth_error rf i = Some (t, row) ->
         is_classified (t, row) = true ->
         Transition row = Some "None"
         \/ exists macro,
             Macro row = Some macro
             /\ Transition row = Some ("Approaching " ++ macro)).
Proof.
  split; [exact transition_names_macro_of |].
  intros df atr_y atr_w atr_d w a rf i t row Hr Hrf Hnth Hc.
  destruct (@classified_timeframe_row _ _ _ _ _ _ _ _ _ _ Hrf Hnth Hc)
    as (Hidx & Hwi & ->).
  pose proof (timeframe_window _ _ _ _ _ _ _ Hrf) as Hw.
  pose proof (window_range df w i Hr Hw Hwi Hidx) as Hrange.
  unfold expected_row. cbn [Macro Transition].
  destruct (transition_names_macro_of (close_at df i) (hi_at w df i) (lo_at w df i)
                                      (atr_at a df i) NEAR_THRESH_ATR Hrange)
    as [Hnone | Hname].
  - left. f_equal. exact Hnone.
  - right. eexists. split; [reflexivity |]. f_equal. exact Hname.
Qed.

Lemma scenario_ranged : ranged_series (scenario_frame 12).
Proof.
  intros t b Hin. destruct (scenario_well_formed t b Hin) as [H1 H2].
  eapply Qle_trans; eassumption.
Qed.

Lemma transition_names_current_macro_witness :
  Transition (expected_row 28 ATR_PERIOD (scenario_frame 12) 28) = Some "None"
  \/ exists macro,
      Macro (expected_row 28 ATR_PERIOD (scenario_frame 12) 28) = Some macro
      /\ Transition (expected_row 28 ATR_PERIOD (scenario_frame 12) 28)
         = Some ("Approaching " ++ macro).
Proof.
  apply (proj2 transition_names_current_macro (scenario_frame 12) ATR_PERIOD
               14%nat 14%nat 28%nat ATR_PERIOD
               (classify_regime (scenario_frame 12) ATR_PERIOD) 28%nat 28%Z).
  - exact scenario_ranged.
  - left. reflexivity.
  - reflexivity.
  - reflexivity.
Defined.

(** X5: in the daily frame the window is the bar itself: the row of bar
    [i] carries the bar's own timestamp, close, high and low, and their
    half-sum as mid, so the daily macro label of a bar depends on that bar
    alone. *)
Theorem daily_row_reads_its_own_bar (df : Frame Q) (atr_len i : nat) (t : Z)
    (b : Bar Q) :
  nth_error df i = Some (t, b) ->
  exists row,
    nth_error (classify_daily_regime df atr_len) i = Some (t, row)
    /\ rClose row = Some (Close b)
    /\ Hi row = Some (High b)
    /\ Lo row = Some (Low b)
    /\ Mid row = Some ((High b + Low b) / 2)
    /\ Macro row = Some (_classify_macro (Some (Close b)) (Some (High b))
                                         (Some (Low b))
                                         (Some ((High b + Low b) / 2))).
Proof.
  intros Hnth.
  assert (Hidx : (i < length df)%nat)
    by (apply nth_error_Some; congruence).
  assert (Hone : forall xs : list Q, (i < length xs)%nat ->
                                     window 1 i xs = [nth i xs 0]).
  { intros xs Hi. unfold window. replace (i + 1 - 1)%nat with i by lia.
    clear -Hi. revert i Hi. induction xs as [| x xs IH]; intros i Hi.
    - simpl in Hi. lia.
    - destruct i as [| i]; [reflexivity |].
      cbn [skipn nth]. apply IH. simpl in Hi. lia. }
  assert (Hhi : hi_at 1 df i = High b).
  { unfold hi_at. rewrite Hone by (rewrite length_column; exact Hidx).
    apply (nth_column High df i t b Hnth). }
  assert (Hlo : lo_at 1 df i = Low b).
  { unfold lo_at. rewrite Hone by (rewrite length_column; exact Hidx).
    apply (nth_column Low df i t b Hnth). }
  assert (Hcl : close_at df i = Close b)
    by (apply (nth_column Close df i t b Hnth)).
  assert (Ht : nth i (index df) 0%Z = t).
  { apply nth_error_nth. unfold index. rewrite nth_error_map, Hnth. reflexivity. }
  exists (expected_row 1 atr_len df i).
  rewrite daily_rows_nth by exact Hidx. rewrite Ht.
  unfold expected_row, mid_at. cbn [rClose Hi Lo Mid Macro].
  rewrite Hhi, Hlo, Hcl. repeat split.
Qed.

Lemma daily_row_reads_its_own_bar_witness :
  exists row,
    nth_error (classify_daily_regime (scenario_frame 12) 14) 28 = Some (28%Z, row)
    /\ rClose row = Some (Close (mkBar 11 12 8 12))
    /\ Hi row = Some (High (mkBar 11 12 8 12))
    /\ Lo row = Some (Low (mkBar 11 12 8 12))
    /\ Mid row = Some ((High (mkBar 11 12 8 12) + Low (mkBar 11 12 8 12)) / 2)
    /\ Macro row = Some (_classify_macro (Some (Close (mkBar 11 12 8 12)))
                                         (Some (High (mkBar 11 12 8 12)))
                                         (Some (Low (mkBar 11 12 8 12)))
                                         (Some ((High (mkBar 11 12 8 12)
                                                 + Low (mkBar 11 12 8 12)) / 2))).
Proof.
  apply (daily_row_reads_its_own_bar (scenario_frame 12) 14%nat 28%nat 28%Z
           (mkBar 11 12 8 12)).
  reflexivity.
Defined.

End ConsistencyFacts.

Section SessionLabelFacts.

Open Scope string_scope.

Variable infer_freq : list Z -> Inferred.
Variable utc_offset : string -> Z -> Z.

Lemma some_eq (A : Type) (a b : A) : Some a = Some b -> a = b.
Proof. congruence. Qed.

(** The rows of the session frame are the snapshots of the sessions whose
    mask selects some bar. *)
Lemma session_rows_are_snapshots (df : Frame Q) (fast_len slow_len atr_len : nat)
    (thr : Q) (tz : string) (rows : list SessionRow) (row : SessionRow) :
  classify_session_regimes infer_freq utc_offset df fast_len slow_len atr_len thr tz
  = Some rows ->
  In row rows ->
  exists name start end_,
    In (name, (start, end_)) sessions
    /\ session_frame utc_offset tz start end_ df <> []
    /\ row = session_row name (session_frame utc_offset tz start end_ df)
                         fast_len slow_len (iloc_last (atr df atr_len)) thr.
Proof.
  unfold classify_session_regimes. intros Hrows Hin.
  destruct (empty df); [injection Hrows as <-; destruct Hin |].
  destruct (infer_freq (index df)) as [| | code];
    [discriminate | injection Hrows as <-; destruct Hin |].
  destruct (existsb (String.eqb code) coarse_codes);
    [injection Hrows as <-; destruct Hin |].
  apply some_eq in Hrows. subst rows. apply in_flat_map in Hin.
  destruct Hin as ([name [start end_]] & Hs & Hrow).
  cbv zeta in Hrow.
  destruct (session_frame utc_offset tz start end_ df) as [| r sess] eqn:Es;
    [destruct Hrow |].
  cbv beta iota delta [empty] in Hrow. destruct Hrow as [<- | []].
  exists name, start, end_. rewrite Es.
  split; [exact Hs |]. split; [discriminate | reflexivity].
Qed.

Lemma last_close_in_range (sess : Frame Q) :
  well_formed_series sess -> sess <> [] ->
  qmin_list (column Low sess) <= last (column Close sess) 0
  /\ last (column Close sess) 0 <= qmax_list (column High sess).
Proof.
  intros Hwf Hne. destruct (exists_last Hne) as (l & [t b] & Heq).
  assert (Hin : In (t, b) sess) by (rewrite Heq; apply in_or_app; right; left; reflexivity).
  destruct (Hwf t b Hin) as [Hlow Hhigh].
  assert (Hlast : last (column Close sess) 0 = Close b).
  { rewrite Heq. unfold column. rewrite map_app. simpl. apply last_last. }
  rewrite Hlast.
  assert (Hh : In (High b) (column High sess))
    by (apply (in_map (fun r => High (snd r)) sess (t, b)); exact Hin).
  assert (Hl : In (Low b) (column Low sess))
    by (apply (in_map (fun r => Low (snd r)) sess (t, b)); exact Hin).
  assert (Hne_h : column High sess <> [])
    by (intros Hnil; rewrite Hnil in Hh; destruct Hh).
  assert (Hne_l : column Low sess <> [])
    by (intros Hnil; rewrite Hnil in Hl; destruct Hl).
  split.
  - eapply Qle_trans; [apply (proj2 (qmin_list_spec Hne_l)); exact Hl | exact Hlow].
  - eapply Qle_trans; [exact Hhigh | apply (proj2 (qmax_list_spec Hne_h)); exact Hh].
Qed.

(** X6: on a series whose bars close inside their own range a session
    snapshot is never Strong Bull or Strong Bear and never carries an
    Approaching Strong transition: its close is the close of the last bar
    of the window, which the hi and lo of the window include. *)
Theorem session_snapshot_never_strong (df : Frame Q)
    (fast_len slow_len atr_len : nat) (thr : Q) (tz : string)
    (rows : list SessionRow) (row : SessionRow) :
  well_formed_series df ->
  classify_session_regimes infer_freq utc_offset df fast_len slow_len atr_len thr tz
  = Some rows ->
  In row rows ->
  sMacro row <> "Strong Bull" /\ sMacro row <> "Strong Bear"
  /\ sTransition row <> "Approaching Strong Bull"
  /\ sTransition row <> "Approaching Strong Bear".
Proof.
  intros Hwf Hrows Hin.
  destruct (session_rows_are_snapshots _ _ _ _ _ _ _ _ Hrows Hin)
    as (name & start & end_ & _ & Hne & ->).
  set (sess := session_frame utc_offset tz start end_ df) in *.
  assert (Hsub : well_formed_series sess).
  { intros t b Hb. unfold sess, session_frame in Hb.
    apply filter_In in Hb. apply (Hwf t b (proj1 Hb)). }
  destruct (last_close_in_range sess Hsub Hne) as [Hlo Hhi].
  assert (Hc : column Close sess <> [])
    by (destruct sess; [congruence | discriminate]).
  unfold session_row. cbn [sMacro sTransition].
  rewrite (last_some Hc).
  assert (Hngt : gt (Some (last (column Close sess) 0))
                    (Some (qmax_list (column High sess))) = false).
  { rewrite gt_some. apply Qltb_nlt, Qle_not_lt. exact Hhi. }
  assert (Hnlt : lt (Some (last (column Close sess) 0))
                    (Some (qmin_list (column Low sess))) = false).
  { rewrite lt_some. apply Qltb_nlt, Qle_not_lt. exact Hlo. }
  repeat split; intros Heq.
  - apply macro_strong_bull_needs in Heq. congruence.
  - apply macro_strong_bear_needs in Heq. congruence.
  - apply transition_strong_bull_needs in Heq. congruence.
  - apply transition_strong_bear_needs in Heq. congruence.
Qed.

End SessionLabelFacts.

Section SessionLabelExamples.

Open Scope string_scope.

Lemma hourly_well_formed : well_formed_series hourly_two_days.
Proof.
  intros t b Hin. unfold hourly_two_days in Hin. apply in_map_iff in Hin.
  destruct Hin as (k & Heq & _). injection Heq as _ <-.
  cbn [Low Close High]. split; Lqa.lra.
Qed.

Lemma session_snapshot_never_strong_witness :
  sMacro london_snapshot <> "Strong Bull" /\ sMacro london_snapshot <> "Strong Bear"
  /\ sTransition london_snapshot <> "Approaching Strong Bull"
  /\ sTransition london_snapshot <> "Approaching Strong Bear".
Proof.
  apply (session_snapshot_never_strong infer_hourly offset_est hourly_two_days
           5%nat 10%nat 14%nat (1 # 2) "America/New_York"
           (flat_map
              (fun s : string * (string * string) =>
                 let '(session_name, (start, end_)) := s in
                 if empty (session_frame offset_est "America/New_York" start end_
                                         hourly_two_days)
                 then []
                 else [session_row session_name
                         (session_frame offset_est "America/New_York" start end_
                                        hourly_two_days)
                         5 10 (iloc_last (atr hourly_two_days 14)) (1 # 2)])
              sessions)
           london_snapshot).
  - exact hourly_well_formed.
  - reflexivity.
  - unfold london_snapshot. vm_compute. right. left. reflexivity.
Defined.

End SessionLabelExamples.

Section NormalizeFacts.

Lemma scale_rows_nth (k : Q) (df : Frame Q) (i : nat) (t : Z) (b : Bar Q) :
  nth_error df i = Some (t, b) ->
  nth_error (List.map (fun r => (fst r, map_bar (fun v => v * k) (snd r))) df) i
  = Some (t, map_bar (fun v => v * k) b).
Proof. intros Hnth. rewrite nth_error_map, Hnth. reflexivity. Qed.

Lemma scaled_field (k : Q) (f : Field) (b : Bar Q) :
  field_of f (map_bar (fun v => v * k) b) = field_of f b * k.
Proof. destruct f; reflexivity. Qed.

(** The one factor every price is multiplied by is not negative when the
    base and the first close are not. *)
Lemma normalize_scale_nonneg (base close0 : Q) :
  0 <= base -> 0 <= close0 ->
  0 <= (if negb (Qeq_bool close0 0) then base / close0 else 1).
Proof.
  intros Hb Hc. destruct (Qeq_bool close0 0) eqn:Hz; cbn [negb]; [discriminate |].
  apply Qeq_bool_neq in Hz.
  assert (Hpos : 0 < close0).
  { apply Qle_lt_or_eq in Hc. destruct Hc as [Hlt | Heq]; [exact Hlt |].
    exfalso. apply Hz. symmetry. exact Heq. }
  unfold Qdiv. apply Qmult_le_0_compat; [exact Hb |].
  apply Qlt_le_weak, Qinv_lt_0_compat. exact Hpos.
Qed.

(** X7: normalizing keeps the timestamps and, when neither the base nor
    the first close is negative, the order of the prices: whenever one
    price of the series is at most another, in the same bar or in two
    different bars, so are the two prices after normalizing.  A series
    whose bars close inside their range therefore still does so, and a
    series whose first close is zero is left as it is. *)
Theorem normalize_keeps_order (df : Frame Q) (base : Q) (t0 : Z)
    (b0 : Bar Q) (rest : Frame Q) :
  df = (t0, b0) :: rest ->
  0 <= base -> 0 <= Close b0 ->
  index (normalize_ohlc df base) = index df
  /\ (forall i j t u b b' (f g : Field),
         nth_error df i = Some (t, b) -> nth_error df j = Some (u, b') ->
         exists c c',
           nth_error (normalize_ohlc df base) i = Some (t, c)
           /\ nth_error (normalize_ohlc df base) j = Some (u, c')
           /\ (field_of f b <= field_of g b' -> field_of f c <= field_of g c'))
  /\ (well_formed_series df -> well_formed_series (normalize_ohlc df base))
  /\ (Close b0 == 0 -> frame_eq (normalize_ohlc df base) df).
Proof.
  intros -> Hbase Hclose. split; [apply normalize_index |].
  pose proof (normalize_scale_nonneg base (Close b0) Hbase Hclose) as Hk.
  unfold normalize_ohlc. cbv zeta.
  set (k := if negb (Qeq_bool (Close b0) 0) then base / Close b0 else 1) in *.
  split; [| split].
  - intros i j t u b b' f g Hi Hj.
    exists (map_bar (fun v => v * k) b), (map_bar (fun v => v * k) b').
    split; [apply scale_rows_nth; exact Hi |].
    split; [apply scale_rows_nth; exact Hj |].
    intros Hle. rewrite !scaled_field. apply Qmult_le_compat_r; assumption.
  - intros Hwf t c Hin. apply in_map_iff in Hin.
    destruct Hin as ([t' b] & Heq & Hin). cbn [fst snd] in Heq.
    apply pair_equal_spec in Heq. destruct Heq as [-> <-].
    destruct (Hwf t b Hin) as [Hlo Hhi]. unfold map_bar. cbn [Low Close High].
    split; apply Qmult_le_compat_r; assumption.
  - intros Hz. apply Qeq_bool_iff in Hz. subst k. rewrite Hz. cbn [negb].
    unfold frame_eq.
    induction ((t0, b0) :: rest) as [| r l IH]; [constructor |].
    cbn [List.map]. constructor; [| exact IH].
    cbn [fst snd]. split; [reflexivity |].
    unfold bar_eq, map_bar. cbn [Open High Low Close].
    repeat split; ring.
Qed.

Lemma normalize_keeps_order_witness :
  index (normalize_ohlc ratio_numer 100) = index ratio_numer
  /\ (forall i j t u b b' (f g : Field),
         nth_error ratio_numer i = Some (t, b) ->
         nth_error ratio_numer j = Some (u, b') ->
         exists c c',
           nth_error (normalize_ohlc ratio_numer 100) i = Some (t, c)
           /\ nth_error (normalize_ohlc ratio_numer 100) j = Some (u, c')
           /\ (field_of f b <= field_of g b' -> field_of f c <= field_of g c'))
  /\ (well_formed_series ratio_numer
      -> well_formed_series (normalize_ohlc ratio_numer 100))
  /\ (Close (mkBar 9 10 8 9) == 0 -> frame_eq (normalize_ohlc ratio_numer 100)
                                              ratio_numer).
Proof.
  apply (normalize_keeps_order ratio_numer 100 1%Z (mkBar 9 10 8 9)
           [(2%Z, mkBar 12 12 8 12); (3%Z, mkBar 6 8 4 6)]).
  - reflexivity.
  - discriminate.
  - discriminate.
Defined.

End NormalizeFacts.

Section CommonIndexFacts.

Context {V : Type}.

Lemma fold_intersection_nodup (rest : list (list Z)) :
  forall first, NoDup first -> NoDup (fold_left index_intersection rest first).
Proof.
  induction rest as [| idx rest IH]; intros first Hnd; [exact Hnd |].
  cbn [fold_left]. apply IH. unfold index_intersection.
  apply NoDup_filter. exact Hnd.
Qed.

(** X9: the common index holds exactly the timestamps that every
    non-empty frame of the family has; empty frames are ignored, a family
    without a non-empty frame has no common index, and the common index has
    no duplicate when the frames have none. *)
Theorem resync_index_is_the_intersection (dfs : Family V) :
  (forall t,
      In t (resync_index dfs)
      <-> (exists kv, In kv dfs /\ non_empty kv = true)
          /\ (forall kv, In kv dfs -> non_empty kv = true -> In t (index (snd kv))))
  /\ ((forall kv, In kv dfs -> NoDup (index (snd kv))) -> NoDup (resync_index dfs)).
Proof.
  split.
  - intros t. split.
    + intros Hin. split.
      * unfold resync_index in Hin.
        destruct (filter non_empty dfs) as [| kv l] eqn:Ef; [destruct Hin |].
        exists kv.
        assert (Hkv : In kv (filter non_empty dfs)) by (rewrite Ef; left; reflexivity).
        apply filter_In in Hkv. exact Hkv.
      * intros kv Hkv Hne. apply (resync_index_common dfs t Hin kv Hkv Hne).
    + intros [(kv0 & Hkv0 & Hne0) Hall]. unfold resync_index.
      assert (Hf : In kv0 (filter non_empty dfs)) by (apply filter_In; auto).
      destruct (filter non_empty dfs) as [| kv l] eqn:Ef; [destruct Hf |].
      cbn [List.map]. apply in_fold_intersection.
      assert (Hsub : forall x, In x (kv :: l) -> In t (index (snd x))).
      { intros x Hx. rewrite <- Ef in Hx. apply filter_In in Hx.
        apply Hall; apply Hx. }
      split; [apply Hsub; left; reflexivity |].
      intros idx Hidx. apply in_map_iff in Hidx. destruct Hidx as (x & <- & Hx).
      apply Hsub. right. exact Hx.
  - intros Hnd. unfold resync_index.
    destruct (filter non_empty dfs) as [| kv l] eqn:Ef; [constructor |].
    cbn [List.map]. apply fold_intersection_nodup. apply Hnd.
    assert (Hkv : In kv (filter non_empty dfs)) by (rewrite Ef; left; reflexivity).
    apply filter_In in Hkv. apply Hkv.
Qed.

End CommonIndexFacts.

Section CommonIndexExamples.

Lemma resync_index_is_the_intersection_witness :
  NoDup (resync_index overlapping_members).
Proof.
  apply (proj2 (resync_index_is_the_intersection overlapping_members)).
  intros kv Hkv. simpl in Hkv.
  destruct Hkv as [<- | [<- | []]]; cbn; repeat constructor; simpl;
    intuition discriminate.
Defined.

End CommonIndexExamples.

Section RatioFacts.

Lemma lookup_some_in (V : Type) (t : Z) (b : Bar V) (df : Frame V) :
  lookup t df = Some b -> In (t, b) df.
Proof.
  unfold lookup. destruct (find (fun r => Z.eqb (fst r) t) df) as [[t' b'] |] eqn:Hf;
    [| discriminate].
  cbn [option_map snd]. intros Heq. injection Heq as ->.
  apply find_some in Hf. destruct Hf as [Hin Ht]. cbn [fst] in Ht.
  apply Z.eqb_eq in Ht. subst. exact Hin.
Qed.

Lemma lookup_unique (V : Type) (t : Z) (b : Bar V) (df : Frame V) :
  NoDup (index df) -> In (t, b) df -> lookup t df = Some b.
Proof.
  unfold lookup. induction df as [| [t' b'] df IH]; intros Hnd Hin; [destruct Hin |].
  cbn [index List.map fst] in Hnd. inversion Hnd as [| x l Hnin Hnd']; subst.
  cbn [find fst]. destruct (Z.eqb_spec t' t) as [-> | Hne].
  - destruct Hin as [Heq | Hin]; [injection Heq as ->; reflexivity |].
    exfalso. apply Hnin. apply (in_map fst df (t, b)). exact Hin.
  - destruct Hin as [Heq | Hin]; [congruence |]. apply IH; assumption.
Qed.

(** Selecting labels out of a frame with unique labels: one row per label
    the frame has, none for the others. *)
Lemma loc_by_lookup (V : Type) (idx : list Z) (df : Frame V) :
  NoDup (index df) ->
  loc idx df = dropna_rows (reindex idx df).
Proof.
  intros Hnd. unfold loc, dropna_rows, reindex. rewrite flat_map_concat_map.
  rewrite (flat_map_concat_map _ (List.map _ idx)), map_map. f_equal.
  apply map_ext. intros t. cbn [fst snd].
  destruct (lookup t df) as [b |] eqn:Hl.
  - apply lookup_some_in in Hl.
    clear idx. induction df as [| [t' b'] df IH]; [destruct Hl |].
    cbn [index List.map fst] in Hnd. inversion Hnd as [| x l Hnin Hnd']; subst.
    cbn [filter fst]. destruct (Z.eqb_spec t' t) as [-> | Hne].
    + destruct Hl as [Heq | Hl].
      * injection Heq as ->. f_equal. apply rows_of_absent_label. exact Hnin.
      * exfalso. apply Hnin. apply (in_map fst df (t, b)). exact Hl.
    + destruct Hl as [Heq | Hl]; [congruence |]. apply IH; assumption.
  - apply rows_of_absent_label. intros Hin.
    destruct (lookup_index t df Hin) as [b Hb]. congruence.
Qed.

Lemma aligned_rows (V : Type) (idx : list Z) (df : Frame V) :
  (forall t, In t idx -> In t (index df)) ->
  forall d : Bar V,
    dropna_rows (reindex idx df)
    = List.map (fun t => (t, match lookup t df with Some b => b | None => d end)) idx.
Proof.
  intros Hsub d. induction idx as [| t idx IH]; [reflexivity |].
  cbn [reindex List.map dropna_rows flat_map fst snd].
  destruct (lookup_index t df (Hsub t (or_introl eq_refl))) as [b ->].
  cbn [app]. f_equal. apply IH. intros t' Hin. apply Hsub. right. exact Hin.
Qed.

Lemma in_intersection_both (t : Z) (a b : list Z) :
  In t (index_intersection a b) -> In t a /\ In t b.
Proof. apply in_index_intersection. Qed.

Lemma divided_cells (n d : Bar Q) :
  bar_value (bar_div n (map_bar replace_zero d))
  = if negb (Qeq_bool (Open d) 0) && negb (Qeq_bool (High d) 0)
       && negb (Qeq_bool (Low d) 0) && negb (Qeq_bool (Close d) 0)
    then Some (quotient_bar n d) else None.
Proof.
  unfold bar_div, map_bar, bar_value, replace_zero, quotient_bar.
  cbn [Open High Low Close].
  destruct (Qeq_bool (Open d) 0), (Qeq_bool (High d) 0), (Qeq_bool (Low d) 0),
    (Qeq_bool (Close d) 0); reflexivity.
Qed.

(** The ratio, label by label of the common index. *)
Lemma ohlc_divide_rows (numer denom : Frame Q) :
  NoDup (index numer) -> NoDup (index denom) ->
  ohlc_divide numer denom
  = flat_map (fun t =>
                match lookup t numer, lookup t denom with
                | Some bn, Some bd =>
                    if divisible denom t then [(t, quotient_bar bn bd)] else []
                | _, _ => []
                end)
             (index_intersection (index numer) (index denom)).
Proof.
  intros Hn Hd. unfold ohlc_divide.
  set (idx := index_intersection (index numer) (index denom)).
  assert (Hin_n : forall t, In t idx -> In t (index numer))
    by (intros t Ht; apply (in_intersection_both t _ _ Ht)).
  assert (Hin_d : forall t, In t idx -> In t (index denom))
    by (intros t Ht; apply (in_intersection_both t _ _ Ht)).
  destruct (empty numer || empty denom) eqn:He.
  - assert (Hidx : idx = []).
    { destruct idx as [| t l] eqn:Ei; [reflexivity |]. exfalso.
      pose proof (Hin_n t (or_introl eq_refl)) as Ht_n.
      pose proof (Hin_d t (or_introl eq_refl)) as Ht_d.
      apply orb_true_iff in He. destruct He as [He | He];
        apply empty_nil in He.
      - rewrite He in Ht_n. destruct Ht_n.
      - rewrite He in Ht_d. destruct Ht_d. }
    rewrite Hidx. reflexivity.
  - destruct (empty idx) eqn:Hi.
    + apply empty_nil in Hi. rewrite Hi. reflexivity.
    + rewrite !loc_by_lookup by assumption.
      rewrite (aligned_rows _ idx numer Hin_n (mkBar 0 0 0 0)).
      rewrite (aligned_rows _ idx denom Hin_d (mkBar 0 0 0 0)).
      rewrite map_map. unfold frame_div. cbn [fst snd].
      clear He Hi. induction idx as [| t idx IH]; [reflexivity |].
      cbn [List.map combine dropna flat_map fst snd].
      fold (dropna
              (List.map
                 (fun p => (fst (fst p), bar_div (snd (fst p)) (snd (snd p))))
                 (combine
                    (List.map (fun t0 => (t0, match lookup t0 numer with
                                              | Some b => b
                                              | None => mkBar 0 0 0 0
                                              end)) idx)
                    (List.map (fun x => (x, map_bar replace_zero
                                              match lookup x denom with
                                              | Some b => b
                                              | None => mkBar 0 0 0 0
                                              end)) idx)))).
      rewrite IH
        by (intros t' Ht'; first [apply Hin_n | apply Hin_d]; right; exact Ht').
      destruct (lookup_index t numer (Hin_n t (or_introl eq_refl))) as [bn Hbn].
      destruct (lookup_index t denom (Hin_d t (or_introl eq_refl))) as [bd Hbd].
      rewrite Hbn, Hbd, divided_cells. unfold divisible. rewrite Hbd.
      destruct (negb (Qeq_bool (Open bd) 0) && negb (Qeq_bool (High bd) 0)
                && negb (Qeq_bool (Low bd) 0) && negb (Qeq_bool (Close bd) 0));
        reflexivity.
Qed.

Lemma ratio_index (numer denom : Frame Q) (l : list Z) :
  (forall t, In t l -> In t (index numer)) ->
  index
    (flat_map (fun t =>
                 match lookup t numer, lookup t denom with
                 | Some bn, Some bd =>
                     if divisible denom t then [(t, quotient_bar bn bd)] else []
                 | _, _ => []
                 end)
              (filter (fun t => mem t (index denom)) l))
  = filter (fun t => mem t (index denom) && divisible denom t) l.
Proof.
  induction l as [| t l IH]; intros Hsub; [reflexivity |].
  assert (Hrest : forall t', In t' l -> In t' (index numer))
    by (intros t' Ht'; apply Hsub; right; exact Ht').
  cbn [filter]. destruct (mem t (index denom)) eqn:Hm; cbn [andb flat_map].
  - unfold index in *. rewrite map_app, (IH Hrest).
    apply mem_In in Hm.
    destruct (lookup_index t numer (Hsub t (or_introl eq_refl))) as [bn ->].
    destruct (lookup_index t denom Hm) as [bd ->].
    destruct (divisible denom t); reflexivity.
  - apply IH. exact Hrest.
Qed.

(** X10: for two series with unique timestamps, the ratio has a bar at
    timestamp [t] exactly when both series have one and no price of the
    denominator's bar is zero; the bar is then the field-by-field quotient
    of the two bars.  Bars follow the order of the numerator. *)
Theorem ohlc_divide_is_the_quotient (numer denom : Frame Q) :
  NoDup (index numer) -> NoDup (index denom) ->
  index (ohlc_divide numer denom)
  = filter (fun t => mem t (index denom) && divisible denom t) (index numer)
  /\ (forall t q,
         In (t, q) (ohlc_divide numer denom)
         <-> exists bn bd,
             In (t, bn) numer /\ In (t, bd) denom /\ nonzero_bar bd
             /\ q = quotient_bar bn bd).
Proof.
  intros Hn Hd.
  assert (Hnz : forall bd t, lookup t denom = Some bd ->
                             (divisible denom t = true <-> nonzero_bar bd)).
  { intros bd t Hl. unfold divisible, nonzero_bar. rewrite Hl.
    rewrite !andb_true_iff, !negb_true_iff.
    rewrite <- !not_true_iff_false, !Qeq_bool_iff. tauto. }
  assert (Hiff : forall t q,
             In (t, q) (ohlc_divide numer denom)
             <-> exists bn bd,
                 In (t, bn) numer /\ In (t, bd) denom /\ nonzero_bar bd
                 /\ q = quotient_bar bn bd).
  { intros t q. rewrite (ohlc_divide_rows numer denom Hn Hd), in_flat_map. split.
    - intros (t' & Ht' & Hrow).
      destruct (lookup t' numer) as [bn |] eqn:Hbn; [| destruct Hrow].
      destruct (lookup t' denom) as [bd |] eqn:Hbd; [| destruct Hrow].
      destruct (divisible denom t') eqn:Hdiv; [| destruct Hrow].
      destruct Hrow as [Heq | []]. injection Heq as -> <-.
      exists bn, bd. split; [apply lookup_some_in; exact Hbn |].
      split; [apply lookup_some_in; exact Hbd |].
      split; [apply (Hnz bd t Hbd); exact Hdiv | reflexivity].
    - intros (bn & bd & Hbn & Hbd & Hz & ->). exists t.
      split.
      + apply in_index_intersection. split.
        * apply (in_map fst numer (t, bn)). exact Hbn.
        * apply (in_map fst denom (t, bd)). exact Hbd.
      + rewrite (lookup_unique _ t bn numer Hn Hbn),
          (lookup_unique _ t bd denom Hd Hbd).
        rewrite (proj2 (Hnz bd t (lookup_unique _ t bd denom Hd Hbd)) Hz).
        left. reflexivity. }
  split; [| exact Hiff].
  rewrite (ohlc_divide_rows numer denom Hn Hd).
  unfold index_intersection. apply ratio_index. intros t Ht. exact Ht.
Qed.

Lemma ratio_frames_unique : NoDup (index ratio_numer) /\ NoDup (index ratio_denom).
Proof. split; cbn; repeat constructor; simpl; intuition discriminate. Qed.

Lemma ohlc_divide_is_the_quotient_witness :
  index (ohlc_divide ratio_numer ratio_denom)
  = filter (fun t => mem t (index ratio_denom) && divisible ratio_denom t)
           (index ratio_numer)
  /\ (forall t q,
         In (t, q) (ohlc_divide ratio_numer ratio_denom)
         <-> exists bn bd,
             In (t, bn) ratio_numer /\ In (t, bd) ratio_denom /\ nonzero_bar bd
             /\ q = quotient_bar bn bd).
Proof.
  apply (ohlc_divide_is_the_quotient ratio_numer ratio_denom).
  - exact (proj1 ratio_frames_unique).
  - exact (proj2 ratio_frames_unique).
Defined.

(** X11: the ratio of two series that share no timestamp is the empty
    series; this covers an empty numerator and an empty denominator. *)
Theorem ohlc_divide_without_overlap (numer denom : Frame Q) :
  (forall t, In t (index numer) -> ~ In t (index denom)) ->
  ohlc_divide numer denom = [].
Proof.
  intros Hdis. unfold ohlc_divide.
  destruct (empty numer || empty denom); [reflexivity |].
  assert (Hidx : index_intersection (index numer) (index denom) = []).
  { destruct (index_intersection (index numer) (index denom)) as [| t l] eqn:Ei;
      [reflexivity |].
    exfalso.
    assert (Ht : In t (index_intersection (index numer) (index denom)))
      by (rewrite Ei; left; reflexivity).
    apply in_index_intersection in Ht. apply (Hdis t); apply Ht. }
  rewrite Hidx. reflexivity.
Qed.

Lemma ohlc_divide_without_overlap_witness :
  ohlc_divide [(1%Z, mkBar 9 10 8 9)] [(5%Z, mkBar 15 20 10 15)] = [].
Proof.
  apply (ohlc_divide_without_overlap [(1%Z, mkBar 9 10 8 9)]
                                     [(5%Z, mkBar 15 20 10 15)]).
  intros t Hn Hd. simpl in Hn, Hd.
  destruct Hn as [<- | []]. destruct Hd as [Hd | []]. discriminate Hd.
Defined.

End RatioFacts.

Section TwinFacts.

Lemma reindex_self (V : Type) (df : Frame V) :
  NoDup (index df) -> dropna_rows (reindex (index df) df) = df.
Proof.
  intros Hnd. rewrite <- loc_by_lookup by exact Hnd. apply loc_self. exact Hnd.
Qed.

Lemma fold_intersection_same (idx : list Z) (rest : list (list Z)) :
  (forall i, In i rest -> i = idx) -> fold_left index_intersection rest idx = idx.
Proof.
  induction rest as [| i rest IH]; intros Hall; [reflexivity |].
  cbn [fold_left]. rewrite (Hall i (or_introl eq_refl)), index_intersection_self.
  apply IH. intros j Hj. apply Hall. right. exact Hj.
Qed.

Lemma qsum_repeat (v : Q) (k : nat) : qsum (repeat v k) == inject_Z (Z.of_nat k) * v.
Proof.
  induction k as [| k IH]; [cbn; ring |].
  cbn [repeat]. unfold qsum. cbn [fold_right]. fold (qsum (repeat v k)).
  rewrite IH, Nat2Z.inj_succ. unfold Z.succ. rewrite inject_Z_plus. ring.
Qed.

Lemma qmean_repeat (v : Q) (k : nat) : (0 < k)%nat -> qmean (repeat v k) == v.
Proof.
  intros Hk. unfold qmean. rewrite qsum_repeat, repeat_length.
  field. apply inject_nat_nonzero. exact Hk.
Qed.

Lemma values_of_twins (col : Bar Q -> Q) (t : Z) (f : Frame Q) (b : Bar Q)
    (frames : list (Frame Q)) :
  (forall g, In g frames -> g = f) ->
  lookup t f = Some b ->
  values_at col t frames = repeat (col b) (length frames).
Proof.
  intros Hall Hl. unfold values_at, present, row_cells.
  induction frames as [| g frames IH]; [reflexivity |].
  cbn [List.map flat_map length repeat].
  rewrite (Hall g (or_introl eq_refl)), Hl. cbn [option_map app]. f_equal.
  apply IH. intros g' Hg'. apply Hall. right. exact Hg'.
Qed.

(** X12: the equal-weight composite of a single constituent, or of two
    constituents holding the same series (with unique timestamps), is that
    series normalized to the base: same timestamps and, field by field,
    the same prices.  Empty members change nothing. *)
Theorem equal_weight_of_identical_members (ms : Family Q) (base : Q) (df : Frame Q) :
  NoDup (index df) ->
  filter non_empty ms <> [] ->
  (length (filter non_empty ms) <= 2)%nat ->
  (forall kv, In kv (filter non_empty ms) -> snd kv = df) ->
  index (ew_index_from_members ms base) = index df
  /\ (forall t b,
         In (t, b) (ew_index_from_members ms base) ->
         exists c, In (t, c) (normalize_ohlc df base) /\ bar_eq b c).
Proof.
  intros Hnd Hne _ Hsame.
  assert (Hcommon : resync_index (filter non_empty ms) = index df).
  { unfold resync_index. rewrite (forallb_filter_id non_empty (filter non_empty ms)).
    - destruct (filter non_empty ms) as [| kv l] eqn:Ef; [congruence |].
      cbn [List.map]. rewrite (Hsame kv (or_introl eq_refl)).
      apply fold_intersection_same. intros i Hi. apply in_map_iff in Hi.
      destruct Hi as (x & <- & Hx). f_equal. apply Hsame. right. exact Hx.
    - apply forallb_forall. intros x Hx. apply filter_In in Hx. apply Hx. }
  assert (Hdf : df <> []).
  { destruct (filter non_empty ms) as [| kv l] eqn:Ef; [congruence |].
    assert (Hkv : In kv (filter non_empty ms)) by (rewrite Ef; left; reflexivity).
    apply filter_In in Hkv. destruct Hkv as [_ Hk]. unfold non_empty in Hk.
    rewrite (Hsame kv (or_introl eq_refl)) in Hk.
    intros ->. discriminate Hk. }
  assert (Hframes : forall f, In f (aligned_members ms base) ->
                              f = normalize_ohlc df base).
  { intros f Hf. unfold aligned_members in Hf. apply in_map_iff in Hf.
    destruct Hf as (kv & <- & Hkv). rewrite Hcommon, (Hsame kv Hkv).
    rewrite reindex_self by exact Hnd. reflexivity. }
  assert (Hk : (0 < length (aligned_members ms base))%nat).
  { unfold aligned_members. rewrite length_map.
    destruct (filter non_empty ms); [congruence | simpl; lia]. }
  rewrite (@ew_index_unfold ms base Hne), Hcommon.
  replace (empty (index df)) with false
    by (destruct df; [congruence | reflexivity]).
  assert (Hidx : index (ew_average (aligned_members ms base)) = index df).
  { rewrite ew_average_index. rewrite <- (normalize_index df base).
    apply union_indexes_same.
    - destruct (aligned_members ms base); [simpl in Hk; lia | discriminate].
    - intros i Hi. apply in_map_iff in Hi. destruct Hi as (f & <- & Hf).
      rewrite (Hframes f Hf). reflexivity. }
  split; [exact Hidx |].
  intros t b Hin.
  assert (Ht : In t (index (normalize_ohlc df base))).
  { rewrite normalize_index, <- Hidx. apply (in_map fst _ (t, b)). exact Hin. }
  destruct (lookup_index t _ Ht) as [c Hc].
  exists c. split; [apply lookup_some_in; exact Hc |].
  destruct (ew_average_values _ _ _ Hin) as (Ho & Hh & Hl & Hcl).
  rewrite (values_of_twins Open t _ c _ Hframes Hc), qmean_repeat in Ho by exact Hk.
  rewrite (values_of_twins High t _ c _ Hframes Hc), qmean_repeat in Hh by exact Hk.
  rewrite (values_of_twins Low t _ c _ Hframes Hc), qmean_repeat in Hl by exact Hk.
  rewrite (values_of_twins Close t _ c _ Hframes Hc), qmean_repeat in Hcl by exact Hk.
  unfold bar_eq. auto.
Qed.

Lemma equal_weight_of_identical_members_witness :
  index (ew_index_from_members twin_members 100) = index ratio_numer
  /\ (forall t b,
         In (t, b) (ew_index_from_members twin_members 100) ->
         exists c, In (t, c) (normalize_ohlc ratio_numer 100) /\ bar_eq b c).
Proof.
  apply (equal_weight_of_identical_members twin_members 100 ratio_numer).
  - exact (proj1 ratio_frames_unique).
  - discriminate.
  - simpl. lia.
  - intros kv Hkv. simpl in Hkv.
    destruct Hkv as [<- | [<- | []]]; reflexivity.
Defined.

End TwinFacts.

Section GroupFacts.

Lemma in_dropna_strings (v : string) (cells : list (option string)) :
  In v (dropna_strings cells) <-> In (Some v) cells.
Proof.
  unfold dropna_strings. rewrite in_flat_map. split.
  - intros ([w |] & Hin & Hv); [| destruct Hv].
    destruct Hv as [<- | []]. exact Hin.
  - intros Hin. exists (Some v). split; [exact Hin | left; reflexivity].
Qed.

Lemma in_unique (x : string) (l : list string) : In x (unique l) <-> In x l.
Proof.
  induction l as [| y l IH]; [reflexivity |].
  cbn [unique In]. rewrite filter_In, IH, negb_true_iff.
  destruct (String.eqb_spec y x) as [-> | Hne]; [tauto |].
  split; [tauto |]. intros [Heq | Hin]; [auto |]. right. auto.
Qed.

Lemma unique_nodup (l : list string) : NoDup (unique l).
Proof.
  induction l as [| y l IH]; [constructor |].
  cbn [unique]. constructor.
  - rewrite filter_In, String.eqb_refl. intros [_ Hf]. discriminate Hf.
  - apply NoDup_filter. exact IH.
Qed.

Lemma in_insert_key (x k : string) (l : list string) :
  In x (insert_key k l) <-> k = x \/ In x l.
Proof.
  induction l as [| y l IH]; [simpl; tauto |].
  cbn [insert_key]. destruct (String.leb k y); cbn [In]; [tauto |].
  rewrite IH. tauto.
Qed.

Lemma insert_key_nodup (k : string) (l : list string) :
  ~ In k l -> NoDup l -> NoDup (insert_key k l).
Proof.
  induction l as [| y l IH]; intros Hk Hnd.
  - cbn. constructor; [intros [] | constructor].
  - cbn [insert_key]. destruct (String.leb k y).
    + constructor; assumption.
    + inversion Hnd as [| ? ? Hy Hl]; subst. constructor.
      * rewrite in_insert_key. intros [-> | Hin]; [| contradiction].
        apply Hk. left. reflexivity.
      * apply IH; [| exact Hl]. intros Hin. apply Hk. right. exact Hin.
Qed.

Lemma ascii_compare_trans (a b c : ascii) :
  Ascii.compare a b <> Gt -> Ascii.compare b c <> Gt -> Ascii.compare a c <> Gt.
Proof.
  unfold Ascii.compare. rewrite !N.compare_le_iff. intros; etransitivity; eassumption.
Qed.

Lemma ascii_compare_eq (a b : ascii) : Ascii.compare a b = Eq -> a = b.
Proof.
  unfold Ascii.compare. rewrite N.compare_eq_iff. intros H.
  rewrite <- (ascii_N_embedding a), <- (ascii_N_embedding b), H. reflexivity.
Qed.

Lemma ascii_compare_refl (a : ascii) : Ascii.compare a a = Eq.
Proof. unfold Ascii.compare. apply N.compare_refl. Qed.

Lemma string_compare_trans (s1 s2 s3 : string) :
  String.compare s1 s2 <> Gt -> String.compare s2 s3 <> Gt ->
  String.compare s1 s3 <> Gt.
Proof.
  revert s2 s3. induction s1 as [| a s1 IH]; intros [| b s2] [| c s3];
    cbn [String.compare]; try congruence.
  destruct (Ascii.compare a b) eqn:Eab; [| | congruence].
  - apply ascii_compare_eq in Eab. subst b.
    destruct (Ascii.compare a c) eqn:Eac; [apply IH | congruence | congruence].
  - intros _. destruct (Ascii.compare b c) eqn:Ebc; [| | congruence].
    + apply ascii_compare_eq in Ebc. subst c. rewrite Eab. congruence.
    + intros _.
      assert (H : Ascii.compare a c <> Gt)
        by (apply (ascii_compare_trans a b c); congruence).
      destruct (Ascii.compare a c) eqn:Eac; [| congruence | congruence].
      apply ascii_compare_eq in Eac. subst c.
      unfold Ascii.compare in Eab, Ebc.
      rewrite N.compare_lt_iff in Eab, Ebc. lia.
Qed.

Lemma string_leb_trans (s1 s2 s3 : string) :
  String.leb s1 s2 = true -> String.leb s2 s3 = true -> String.leb s1 s3 = true.
Proof.
  unfold String.leb. intros H12 H23.
  pose proof (string_compare_trans s1 s2 s3) as Ht.
  destruct (String.compare s1 s2); try discriminate;
    destruct (String.compare s2 s3); try discriminate;
    destruct (String.compare s1 s3); try reflexivity;
    exfalso; apply Ht; congruence.
Qed.

Lemma insert_key_sorted (k : string) (l : list string) :
  StronglySorted (fun a b => String.leb a b = true) l ->
  StronglySorted (fun a b => String.leb a b = true) (insert_key k l).
Proof.
  induction l as [| y l IH]; intros Hs.
  - cbn. constructor; constructor.
  - cbn [insert_key]. destruct (String.leb k y) eqn:Eky.
    + constructor; [exact Hs |]. constructor; [exact Eky |].
      inversion Hs as [| ? ? _ Hall]; subst.
      apply Forall_forall. intros z Hz.
      apply (string_leb_trans k y z); [exact Eky |].
      rewrite Forall_forall in Hall. apply Hall. exact Hz.
    + inversion Hs as [| ? ? Hl Hall]; subst. constructor; [apply IH; exact Hl |].
      apply Forall_forall. intros z Hz. apply in_insert_key in Hz.
      destruct Hz as [<- | Hz].
      * destruct (String.leb_total k y) as [H | H]; [congruence | exact H].
      * rewrite Forall_forall in Hall. apply Hall. exact Hz.
Qed.

Lemma group_keys_spec (cells : list (option string)) :
  (forall k, In k (group_keys cells) <-> In (Some k) cells)
  /\ NoDup (group_keys cells)
  /\ StronglySorted (fun a b => String.leb a b = true) (group_keys cells).
Proof.
  unfold group_keys.
  assert (Hgen : forall l, NoDup l ->
             (forall k, In k (fold_right insert_key [] l) <-> In k l)
             /\ NoDup (fold_right insert_key [] l)
             /\ StronglySorted (fun a b => String.leb a b = true)
                               (fold_right insert_key [] l)).
  { induction l as [| x l IH]; intros Hnd.
    - split; [reflexivity |]. split; constructor.
    - inversion Hnd as [| ? ? Hx Hl]; subst.
      destruct (IH Hl) as (Hin & Hn & Hs). cbn [fold_right]. split; [| split].
      + intros k. rewrite in_insert_key, Hin. reflexivity.
      + apply insert_key_nodup; [rewrite Hin; exact Hx | exact Hn].
      + apply insert_key_sorted. exact Hs. }
  destruct (Hgen _ (unique_nodup (dropna_strings cells))) as (Hin & Hn & Hs).
  split; [| split; assumption].
  intros k. rewrite Hin, in_unique, in_dropna_strings. reflexivity.
Qed.

Lemma strongly_sorted_filter (A : Type) (R : A -> A -> Prop) (f : A -> bool)
    (l : list A) :
  StronglySorted R l -> StronglySorted R (filter f l).
Proof.
  induction 1 as [| x l Hs IH Hall]; [constructor |].
  cbn [filter]. destruct (f x); [| exact IH].
  constructor; [exact IH |].
  apply Forall_forall. intros y Hy. apply filter_In in Hy.
  rewrite Forall_forall in Hall. apply Hall, Hy.
Qed.

Lemma ew_index_without_data (ms : Family Q) (base : Q) :
  (forall kv, In kv ms -> snd kv = []) -> ew_index_from_members ms base = [].
Proof.
  intros Hall. unfold ew_index_from_members.
  assert (Hf : filter non_empty ms = []).
  { induction ms as [| kv ms IH]; [reflexivity |].
    cbn [filter]. unfold non_empty at 1.
    rewrite (Hall kv (or_introl eq_refl)). cbn.
    apply IH. intros kv' Hin. apply Hall. right. exact Hin. }
  rewrite Hf. reflexivity.
Qed.

Lemma subindustry_keys (universe : list UniverseRow) (ohlc_map : Family Q) :
  List.map fst (build_subindustry_indices universe ohlc_map)
  = filter (fun sub =>
              negb (empty (ew_index_from_members
                             (sub_members universe ohlc_map sub) 100)))
           (group_keys (List.map SubIndustry universe)).
Proof.
  unfold build_subindustry_indices.
  induction (group_keys (List.map SubIndustry universe)) as [| sub l IH];
    [reflexivity |].
  cbn [flat_map filter]. rewrite map_app, IH.
  destruct (negb (empty (ew_index_from_members
                           (sub_members universe ohlc_map sub) 100)));
    reflexivity.
Qed.

(** X13: the sub-industry indices hold one entry per sub-industry named
    in the universe whose equal-weight index (built at base 100 from the
    distinct tickers of the group) is not empty, and nothing else.  The
    keys are distinct and sorted, rows with no sub-industry form no group,
    and a sub-industry none of whose tickers has data in the price map has
    no entry. *)
Theorem subindustry_indices_cover_groups_with_data (universe : list UniverseRow)
    (ohlc_map : Family Q) :
  (forall sub f,
      In (sub, f) (build_subindustry_indices universe ohlc_map)
      <-> In (Some sub) (List.map SubIndustry universe)
          /\ f = ew_index_from_members (sub_members universe ohlc_map sub) 100
          /\ f <> [])
  /\ NoDup (List.map fst (build_subindustry_indices universe ohlc_map))
  /\ StronglySorted (fun a b => String.leb a b = true)
                    (List.map fst (build_subindustry_indices universe ohlc_map))
  /\ (forall sub,
         (forall r t, In r universe -> SubIndustry r = Some sub ->
                      Ticker r = Some t -> dict_get t ohlc_map = []) ->
         ~ In sub (List.map fst (build_subindustry_indices universe ohlc_map))).
Proof.
  destruct (group_keys_spec (List.map SubIndustry universe)) as (Hin & Hnd & Hs).
  split; [| split; [| split]].
  - intros sub f. unfold build_subindustry_indices. rewrite in_flat_map. split.
    + intros (k & Hk & Hf). cbv zeta in Hf. revert Hf.
      match goal with
      | |- In _ (if ?c then _ else _) -> _ => destruct c eqn:He
      end; [| intros []].
      intros [Heq | []]. apply pair_equal_spec in Heq. destruct Heq as [-> <-].
      split; [apply Hin; exact Hk |]. split; [reflexivity |].
      intros Hnil. rewrite Hnil in He. discriminate He.
    + intros (Hsub & -> & Hne). exists sub. split; [apply Hin; exact Hsub |].
      cbv zeta.
      destruct (ew_index_from_members (sub_members universe ohlc_map sub) 100);
        [congruence |]. left. reflexivity.
  - rewrite subindustry_keys. apply NoDup_filter. exact Hnd.
  - rewrite subindustry_keys. apply strongly_sorted_filter. exact Hs.
  - intros sub Hdata. rewrite subindustry_keys, filter_In.
    intros [_ Hne].
    rewrite ew_index_without_data in Hne; [discriminate Hne |].
    intros kv Hkv. unfold sub_members in Hkv. apply in_map_iff in Hkv.
    destruct Hkv as (t & <- & Ht). cbn [snd].
    apply in_unique, in_dropna_strings, in_map_iff in Ht.
    destruct Ht as (r & Hr & Hin_r). unfold group_chunk in Hin_r.
    apply filter_In in Hin_r. destruct Hin_r as [Hu Hsub].
    destruct (SubIndustry r) as [v |] eqn:Ev; [| discriminate].
    apply String.eqb_eq in Hsub. subst v.
    apply (Hdata r t Hu Ev Hr).
Qed.

End GroupFacts.

Section LatestFacts.

Open Scope string_scope.

Lemma last_by_position (A : Type) (l : list A) (d x : A) :
  nth_error l (length l - 1) = Some x -> last l d = x.
Proof.
  intros Hnth. destruct l as [| a l] using rev_ind.
  - simpl in Hnth. discriminate Hnth.
  - clear IHl. rewrite last_last. rewrite length_app in Hnth. cbn [length] in Hnth.
    replace (length l + 1 - 1)%nat with (length l) in Hnth by lia.
    rewrite nth_error_app2, Nat.sub_diag in Hnth by lia.
    cbn in Hnth. congruence.
Qed.

Lemma last_windowed_row (w atr_len : nat) (df : Frame Q) :
  df <> [] -> last_regime_row (windowed_rows w atr_len df) = latest_row w atr_len df.
Proof.
  intros Hne. unfold last_regime_row, latest_row.
  assert (Hlen : (0 < length df)%nat) by (destruct df; [congruence | simpl; lia]).
  rewrite (last_by_position _ _ _
             (nth (length df - 1) (index df) 0%Z,
              if (w <=? length df - 1 + 1)%nat
              then expected_row w atr_len df (length df - 1) else nan_row)).
  - cbn [snd]. replace (length df - 1 + 1)%nat with (length df) by lia. reflexivity.
  - rewrite windowed_rows_length. apply windowed_rows_nth. lia.
Qed.

Lemma last_daily_row (atr_len : nat) (df : Frame Q) :
  df <> [] ->
  last_regime_row (classify_daily_regime df atr_len) = latest_row 1 atr_len df.
Proof.
  intros Hne. unfold last_regime_row, latest_row.
  assert (Hlen : (0 < length df)%nat) by (destruct df; [congruence | simpl; lia]).
  rewrite (last_by_position _ _ _
             (nth (length df - 1) (index df) 0%Z,
              expected_row 1 atr_len df (length df - 1))).
  - cbn [snd]. destruct (Nat.leb_spec 1 (length df)); [reflexivity | lia].
  - rewrite daily_rows_length. apply daily_rows_nth. lia.
Qed.

Lemma labels_read_last_rows (entity : string) (y w d : RegimeFrame)
    (s : option (list SessionRow)) :
  y <> [] -> w <> [] -> d <> [] ->
  let row := compute_latest_labels entity y w d s in
  (summary_get "Macro" row = Some (label_value (Macro (last_regime_row y)))
   /\ summary_get "Micro" row = Some (label_value (Micro (last_regime_row y)))
   /\ summary_get "Transition" row
      = Some (label_value (Transition (last_regime_row y)))
   /\ summary_get "Close" row = Some (VFloat (rClose (last_regime_row y))))
  /\ (summary_get "WeeklyMacro" row = Some (label_value (Macro (last_regime_row w)))
      /\ summary_get "WeeklyMicro" row
         = Some (label_value (Micro (last_regime_row w)))
      /\ summary_get "WeeklyTransition" row
         = Some (label_value (Transition (last_regime_row w))))
  /\ (summary_get "DailyMacro" row = Some (label_value (Macro (last_regime_row d)))
      /\ summary_get "DailyMicro" row
         = Some (label_value (Micro (last_regime_row d)))
      /\ summary_get "DailyTransition" row
         = Some (label_value (Transition (last_regime_row d)))).
Proof.
  intros Hy Hw Hd.
  destruct y as [| py y']; [congruence |].
  destruct w as [| pw w']; [congruence |].
  destruct d as [| pd d']; [congruence |].
  unfold compute_latest_labels, timeframe_entries. cbn [empty negb].
  generalize (last_regime_row (py :: y')) (last_regime_row (pw :: w'))
             (last_regime_row (pd :: d')).
  intros ry rw rd. repeat split; reflexivity.
Qed.

Lemma classifiers_non_empty (df : Frame Q) (atr_y atr_w atr_d : nat) :
  df <> [] ->
  classify_regime df atr_y <> [] /\ classify_weekly_regime df atr_w <> []
  /\ classify_daily_regime df atr_d <> [].
Proof.
  intros Hne.
  assert (Hlen : (0 < length df)%nat) by (destruct df; [congruence | simpl; lia]).
  split; [| split]; intros Hnil; apply (f_equal (@length _)) in Hnil.
  - unfold classify_regime in Hnil. rewrite windowed_rows_length in Hnil.
    simpl in Hnil. lia.
  - unfold classify_weekly_regime in Hnil. rewrite windowed_rows_length in Hnil.
    simpl in Hnil. lia.
  - rewrite daily_rows_length in Hnil. simpl in Hnil. lia.
Qed.

Lemma daily_entry_is_label (name : string) (df : Frame Q) (atr_y atr_w atr_d : nat)
    (s : option (list SessionRow)) :
  df <> [] ->
  exists label,
    summary_get "DailyMacro"
                (compute_latest_labels name (classify_regime df atr_y)
                                       (classify_weekly_regime df atr_w)
                                       (classify_daily_regime df atr_d) s)
    = Some (VStr label).
Proof.
  intros Hne.
  destruct (classifiers_non_empty df atr_y atr_w atr_d Hne) as (Hy & Hw & Hd).
  destruct (labels_read_last_rows name _ _ _ s Hy Hw Hd) as (_ & _ & (Hdm & _)).
  rewrite Hdm, (last_daily_row atr_d df Hne). unfold latest_row.
  assert (Hlen : (0 < length df)%nat) by (destruct df; [congruence | simpl; lia]).
  destruct (Nat.leb_spec 1 (length df)); [| lia].
  eexists. reflexivity.
Qed.

Lemma session_entries_absent (name : string) (y w d : RegimeFrame) :
  summary_get "Session" (compute_latest_labels name y w d (Some [])) = None.
Proof.
  destruct y as [| py y']; destruct w as [| pw w']; destruct d as [| pd d'];
    unfold compute_latest_labels, timeframe_entries; cbn [empty negb];
    repeat match goal with
           | |- context [last_regime_row ?l] => generalize (last_regime_row l); intro
           end;
    reflexivity.
Qed.

(** X15: the summary of a series, made from its three bar-count
    classifiers, reports for each timeframe the row of the last bar.  With
    fewer than 28 bars the yearly entries, the close included, are NaN
    although the series has a last close; from 28 bars on the close is the
    last close and the macro entry a label.  The weekly entries turn from
    NaN to labels at 5 bars, and the daily entries are labels for every
    series that is not empty. *)
Theorem latest_labels_follow_history (name : string) (df : Frame Q)
    (atr_y atr_w atr_d : nat) (s : option (list SessionRow)) :
  df <> [] ->
  let row := compute_latest_labels name (classify_regime df atr_y)
                                   (classify_weekly_regime df atr_w)
                                   (classify_daily_regime df atr_d) s in
  let n := length df in
  (summary_get "Macro" row = Some (label_value (Macro (latest_row 28 atr_y df)))
   /\ summary_get "Micro" row = Some (label_value (Micro (latest_row 28 atr_y df)))
   /\ summary_get "Transition" row
      = Some (label_value (Transition (latest_row 28 atr_y df)))
   /\ summary_get "Close" row = Some (VFloat (rClose (latest_row 28 atr_y df))))
  /\ (summary_get "WeeklyMacro" row
      = Some (label_value (Macro (latest_row 5 atr_w df)))
      /\ summary_get "WeeklyMicro" row
         = Some (label_value (Micro (latest_row 5 atr_w df)))
      /\ summary_get "WeeklyTransition" row
         = Some (label_value (Transition (latest_row 5 atr_w df))))
  /\ (summary_get "DailyMacro" row
      = Some (label_value (Macro (latest_row 1 atr_d df)))
      /\ summary_get "DailyMicro" row
         = Some (label_value (Micro (latest_row 1 atr_d df)))
      /\ summary_get "DailyTransition" row
         = Some (label_value (Transition (latest_row 1 atr_d df))))
  /\ ((n < 28)%nat ->
      summary_get "Macro" row = Some (VFloat nan)
      /\ summary_get "Micro" row = Some (VFloat nan)
      /\ summary_get "Transition" row = Some (VFloat nan)
      /\ summary_get "Close" row = Some (VFloat nan))
  /\ ((28 <= n)%nat ->
      summary_get "Close" row = Some (VFloat (Some (close_at df (n - 1))))
      /\ exists label, summary_get "Macro" row = Some (VStr label))
  /\ ((n < 5)%nat -> summary_get "WeeklyMacro" row = Some (VFloat nan))
  /\ ((5 <= n)%nat -> exists label, summary_get "WeeklyMacro" row = Some (VStr label))
  /\ (exists label, summary_get "DailyMacro" row = Some (VStr label)).
Proof.
  intros Hne row n.
  assert (Hlen : (0 < length df)%nat) by (destruct df; [congruence | simpl; lia]).
  assert (Hy : classify_regime df atr_y <> []).
  { intros Hnil. apply (f_equal (@length _)) in Hnil.
    unfold classify_regime in Hnil. rewrite windowed_rows_length in Hnil.
    simpl in Hnil. lia. }
  assert (Hw : classify_weekly_regime df atr_w <> []).
  { intros Hnil. apply (f_equal (@length _)) in Hnil.
    unfold classify_weekly_regime in Hnil. rewrite windowed_rows_length in Hnil.
    simpl in Hnil. lia. }
  assert (Hd : classify_daily_regime df atr_d <> []).
  { intros Hnil. apply (f_equal (@length _)) in Hnil.
    rewrite daily_rows_length in Hnil. simpl in Hnil. lia. }
  destruct (labels_read_last_rows name _ _ _ s Hy Hw Hd)
    as ((Hm & Hmi & Ht & Hc) & (Hwm & Hwmi & Hwt) & (Hdm & Hdmi & Hdt)).
  fold row in Hm, Hmi, Ht, Hc, Hwm, Hwmi, Hwt, Hdm, Hdmi, Hdt.
  unfold classify_regime in Hm, Hmi, Ht, Hc.
  unfold classify_weekly_regime in Hwm, Hwmi, Hwt.
  rewrite (last_windowed_row YEARLY_RANGE_DAYS atr_y df Hne) in Hm, Hmi, Ht, Hc.
  rewrite (last_windowed_row 5 atr_w df Hne) in Hwm, Hwmi, Hwt.
  rewrite (last_daily_row atr_d df Hne) in Hdm, Hdmi, Hdt.
  change YEARLY_RANGE_DAYS with 28%nat in Hm, Hmi, Ht, Hc.
  split; [auto |]. split; [auto |]. split; [auto |].
  split; [| split; [| split; [| split]]].
  - intros Hshort. rewrite Hm, Hmi, Ht, Hc. unfold latest_row.
    destruct (Nat.leb_spec 28 (length df)); [unfold n in Hshort; lia |].
    repeat split; reflexivity.
  - intros Hlong. rewrite Hm, Hc. unfold latest_row.
    destruct (Nat.leb_spec 28 (length df)); [| unfold n in Hlong; lia].
    split; [reflexivity |]. eexists. reflexivity.
  - intros Hshort. rewrite Hwm. unfold latest_row.
    destruct (Nat.leb_spec 5 (length df)); [unfold n in Hshort; lia |].
    reflexivity.
  - intros Hlong. rewrite Hwm. unfold latest_row.
    destruct (Nat.leb_spec 5 (length df)); [| unfold n in Hlong; lia].
    eexists. reflexivity.
  - rewrite Hdm. unfold latest_row.
    destruct (Nat.leb_spec 1 (length df)); [| lia].
    eexists. reflexivity.
Qed.

Lemma latest_labels_follow_history_witness :
  summary_get "Close"
              (compute_latest_labels "Composite Market"
                 (classify_regime (scenario_frame 9) ATR_PERIOD)
                 (classify_weekly_regime (scenario_frame 9) 14)
                 (classify_daily_regime (scenario_frame 9) 14) None)
  = Some (VFloat (Some (close_at (scenario_frame 9)
                                 (length (scenario_frame 9) - 1)))).
Proof.
  assert (Hne : scenario_frame 9 <> [])
    by (intros Hnil; apply (f_equal (@length _)) in Hnil; vm_compute in Hnil;
        discriminate Hnil).
  refine (proj1 (proj1 (proj2 (proj2 (proj2 (proj2
            (latest_labels_follow_history "Composite Market" (scenario_frame 9)
                                          ATR_PERIOD 14 14 None Hne))))) _)).
  vm_compute. lia.
Defined.

End LatestFacts.

Section MinuteFacts.

Open Scope string_scope.

Lemma session_at_masks (m : Z) :
  ((240 <=? m)%Z && (m <? 300)%Z = true <-> session_at m = Some "Asia")
  /\ ((540 <=? m)%Z && (m <? 600)%Z = true <-> session_at m = Some "London")
  /\ ((720 <=? m)%Z && (m <? 780)%Z = true <-> session_at m = Some "NY AM")
  /\ ((780 <=? m)%Z && (m <? 840)%Z = true <-> session_at m = Some "NY PM").
Proof.
  unfold session_at.
  assert (Hcases : (m < 240 \/ 240 <= m < 300 \/ 300 <= m < 540 \/ 540 <= m < 600
                    \/ 600 <= m < 720 \/ 720 <= m < 780 \/ 780 <= m < 840
                    \/ 840 <= m)%Z) by lia.
  destruct Hcases as [H | [H | [H | [H | [H | [H | [H | H]]]]]]];
    repeat match goal with
           | |- context [(?a <=? m)%Z] =>
               first [ rewrite (proj2 (Z.leb_le a m)) by lia
                     | rewrite (proj2 (Z.leb_gt a m)) by lia ]
           | |- context [(m <? ?a)%Z] =>
               first [ rewrite (proj2 (Z.ltb_lt m a)) by lia
                     | rewrite (proj2 (Z.ltb_ge m a)) by lia ]
           end;
    cbn [andb]; repeat split; intros Heq; try reflexivity; discriminate Heq.
Qed.

Lemma filter_none (A : Type) (f : A -> bool) (l : list A) :
  (forall x, In x l -> f x = false) -> filter f l = [].
Proof.
  induction l as [| x l IH]; intros Hall; [reflexivity |].
  cbn [filter]. rewrite (Hall x (or_introl eq_refl)).
  apply IH. intros y Hy. apply Hall. right. exact Hy.
Qed.

(** A series with no bar in a session hour has no bar under any of the
    four masks. *)
Lemma frames_outside_sessions (utc_offset : string -> Z -> Z) (df : Frame Q)
    (name start end_ : string) :
  outside_sessions utc_offset df ->
  In (name, (start, end_)) sessions ->
  session_frame utc_offset "America/New_York" start end_ df = [].
Proof.
  intros Hout Hin. unfold session_frame. apply filter_none.
  intros [t b] Hr. cbn [fst].
  destruct (session_masks_minutes utc_offset "America/New_York" t)
    as (Ha & Hl & Hn & Hp).
  cbv zeta in Ha, Hl, Hn, Hp.
  destruct (session_at_masks
              (local_minutes utc_offset "America/New_York" t mod 1440))
    as (Ma & Ml & Mn & Mp).
  pose proof (Hout t b Hr) as Hnone.
  destruct Hin as [Heq | [Heq | [Heq | [Heq | []]]]];
    apply pair_equal_spec in Heq; destruct Heq as [<- Heq];
    apply pair_equal_spec in Heq; destruct Heq as [<- <-];
    apply not_true_is_false; intros Htrue.
  - rewrite Ha, Ma, Hnone in Htrue. discriminate Htrue.
  - rewrite Hl, Ml, Hnone in Htrue. discriminate Htrue.
  - rewrite Hn, Mn, Hnone in Htrue. discriminate Htrue.
  - rewrite Hp, Mp, Hnone in Htrue. discriminate Htrue.
Qed.

End MinuteFacts.

Section TableFacts.

Open Scope string_scope.

Variable infer_freq : list Z -> Inferred.
Variable utc_offset : string -> Z -> Z.

Lemma session_outcome (df : Frame Q) :
  df <> [] ->
  (classify_session_regimes infer_freq utc_offset df 5 10 14 (1 # 2)
                            "America/New_York" = None
   <-> infer_freq (index df) = InferRaises)
  /\ (infer_freq (index df) <> InferRaises ->
      outside_sessions utc_offset df ->
      classify_session_regimes infer_freq utc_offset df 5 10 14 (1 # 2)
                               "America/New_York" = Some []).
Proof.
  intros Hne. unfold classify_session_regimes.
  replace (empty df) with false by (destruct df; [congruence | reflexivity]).
  split.
  - destruct (infer_freq (index df)) as [| | code];
      [tauto | split; discriminate |].
    destruct (existsb (String.eqb code) coarse_codes); split; discriminate.
  - intros Hraise Hout.
    destruct (infer_freq (index df)) as [| | code];
      [congruence | reflexivity |].
    destruct (existsb (String.eqb code) coarse_codes); [reflexivity |].
    cbv zeta. unfold sessions. cbn [flat_map].
    rewrite (frames_outside_sessions utc_offset df "Asia" "04:00" "05:00" Hout)
      by (unfold sessions; simpl; tauto).
    rewrite (frames_outside_sessions utc_offset df "London" "09:00" "10:00" Hout)
      by (unfold sessions; simpl; tauto).
    rewrite (frames_outside_sessions utc_offset df "NY AM" "12:00" "13:00" Hout)
      by (unfold sessions; simpl; tauto).
    rewrite (frames_outside_sessions utc_offset df "NY PM" "13:00" "14:00" Hout)
      by (unfold sessions; simpl; tauto).
    reflexivity.
Qed.

Lemma entity_labels_outcome (name : string) (df : Frame Q) :
  df <> [] ->
  (entity_labels infer_freq utc_offset name df = None
   <-> infer_freq (index df) = InferRaises)
  /\ (forall row,
         entity_labels infer_freq utc_offset name df = Some row ->
         summary_get "Entity" row = Some (VStr name)
         /\ exists label, summary_get "DailyMacro" row = Some (VStr label))
  /\ (infer_freq (index df) <> InferRaises ->
      outside_sessions utc_offset df ->
      exists row,
        entity_labels infer_freq utc_offset name df = Some row
        /\ summary_get "Session" row = None).
Proof.
  intros Hne. destruct (session_outcome df Hne) as [Hnone Hout].
  unfold entity_labels. split; [| split].
  - rewrite <- Hnone.
    destruct (classify_session_regimes infer_freq utc_offset df 5 10 14 (1 # 2)
                                       "America/New_York");
      split; congruence.
  - intros row.
    destruct (classify_session_regimes infer_freq utc_offset df 5 10 14 (1 # 2)
                                       "America/New_York") as [s |];
      [| discriminate].
    intros Hrow. apply some_eq in Hrow. subst row.
    split; [reflexivity |]. apply daily_entry_is_label. exact Hne.
  - intros Hraise Hbars. rewrite (Hout Hraise Hbars). eexists.
    split; [reflexivity |]. apply session_entries_absent.
Qed.

Lemma non_empty_frame (kv : string * Frame Q) : non_empty kv = true -> snd kv <> [].
Proof. unfold non_empty. destruct (snd kv); [discriminate | discriminate]. Qed.

(** X16: the summary loop gives one record per entity whose series is not
    empty, in the order of the entities, each under the entity's name and
    with a daily label.  It ends in the exception of the frequency
    inference exactly when the inference raises on one of these series;
    no other step of the loop can fail.  When the inference raises on
    none of them and none has a bar in one of the four session hours of
    New York local time (series stamped at midnight UTC, say), the table
    is complete and no record has session entries, whatever frequency is
    inferred. *)
Theorem regime_table_rows (entities : Family Q) :
  (regime_rows infer_freq utc_offset entities = None
   <-> exists kv, In kv (listed entities)
                  /\ infer_freq (index (snd kv)) = InferRaises)
  /\ (forall rows,
         regime_rows infer_freq utc_offset entities = Some rows ->
         List.map (summary_get "Entity") rows
         = List.map (fun kv => Some (VStr (fst kv))) (listed entities)
         /\ forall row, In row rows ->
                        exists label, summary_get "DailyMacro" row = Some (VStr label))
  /\ ((forall kv, In kv (listed entities) ->
                  infer_freq (index (snd kv)) <> InferRaises
                  /\ outside_sessions utc_offset (snd kv)) ->
      exists rows,
        regime_rows infer_freq utc_offset entities = Some rows
        /\ length rows = length (listed entities)
        /\ forall row, In row rows -> summary_get "Session" row = None).
Proof.
  unfold listed.
  induction entities as [| [name df] rest (IHnone & IHsome & IHcoarse)].
  - cbn. split; [| split].
    + split; [discriminate | intros (kv & [] & _)].
    + intros rows Hrows. apply some_eq in Hrows. subst rows.
      split; [reflexivity | intros row []].
    + intros _. exists []. split; [reflexivity |]. split; [reflexivity | intros row []].
  - cbn [regime_rows filter]. change (non_empty (name, df)) with (negb (empty df)).
    destruct (negb (empty df)) eqn:Edf.
    2:{ split; [exact IHnone | split; [exact IHsome | exact IHcoarse]]. }
    assert (Hne : df <> []) by (destruct df; [discriminate Edf | discriminate]).
    destruct (entity_labels_outcome name df Hne) as (Hnone & Hsome & Hcoarse).
    split; [| split].
    + destruct (entity_labels infer_freq utc_offset name df) as [row |] eqn:Erow.
      * destruct (regime_rows infer_freq utc_offset rest) as [rows |] eqn:Erows.
        -- split; [discriminate |]. intros (kv & [<- | Hin] & Hraise).
           ++ cbn [snd] in Hraise. apply Hnone in Hraise. discriminate Hraise.
           ++ assert (Hcontra : Some rows = None) by (apply IHnone; exists kv; auto).
              discriminate Hcontra.
        -- split; [| reflexivity]. intros _.
           destruct (proj1 IHnone eq_refl) as (kv & Hin & Hraise).
           exists kv. split; [right; exact Hin | exact Hraise].
      * split; [| reflexivity]. intros _. exists (name, df).
        split; [left; reflexivity |]. apply Hnone. reflexivity.
    + intros rows Hrows.
      destruct (entity_labels infer_freq utc_offset name df) as [row |] eqn:Erow;
        [| discriminate].
      destruct (regime_rows infer_freq utc_offset rest) as [rows' |] eqn:Erows;
        [| discriminate].
      apply some_eq in Hrows. subst rows.
      destruct (Hsome row eq_refl) as [Hentity Hdaily].
      destruct (IHsome rows' eq_refl) as [Hnames Hlabels].
      split.
      * cbn [List.map fst]. rewrite Hentity, Hnames. reflexivity.
      * intros r [<- | Hin]; [exact Hdaily | apply Hlabels; exact Hin].
    + intros Hfreq.
      destruct (Hfreq (name, df) (or_introl eq_refl)) as [Hraise Hbars].
      cbn [snd] in Hraise, Hbars.
      destruct (Hcoarse Hraise Hbars) as (row & Hrow & Hsession).
      destruct (IHcoarse (fun kv Hin => Hfreq kv (or_intror Hin)))
        as (rows & Hrows & Hlen & Hnone_s).
      exists (row :: rows). rewrite Hrow, Hrows.
      split; [reflexivity |]. split; [cbn [length]; rewrite Hlen; reflexivity |].
      intros r [<- | Hin]; [exact Hsession | apply Hnone_s; exact Hin].
Qed.

End TableFacts.

Section TableExamples.

Open Scope string_scope.

Lemma flat_frame_outside_sessions : outside_sessions offset_est flat_frame.
Proof.
  intros t b Hin. unfold flat_frame in Hin. apply in_combine_l in Hin.
  apply in_map_iff in Hin. destruct Hin as (k & <- & Hk).
  apply in_seq in Hk. unfold local_minutes, offset_est, session_at.
  replace ((Z.of_nat k + -300) mod 1440)%Z with (1140 + Z.of_nat k)%Z.
  - repeat match goal with
           | |- context [(?a <=? ?m)%Z] =>
               first [ rewrite (proj2 (Z.leb_le a m)) by lia
                     | rewrite (proj2 (Z.leb_gt a m)) by lia ]
           | |- context [(?m <? ?a)%Z] =>
               first [ rewrite (proj2 (Z.ltb_lt m a)) by lia
                     | rewrite (proj2 (Z.ltb_ge m a)) by lia ]
           end.
    reflexivity.
  - apply (Z.mod_unique_pos _ _ (-1)%Z); lia.
Qed.

Lemma regime_table_rows_witness :
  exists rows,
    regime_rows infer_hourly offset_est sample_entities = Some rows
    /\ length rows = length (listed sample_entities)
    /\ forall row, In row rows -> summary_get "Session" row = None.
Proof.
  apply (proj2 (proj2 (regime_table_rows infer_hourly offset_est sample_entities))).
  intros kv Hkv. simpl in Hkv.
  destruct Hkv as [<- | [<- | []]];
    (split; [discriminate | exact flat_frame_outside_sessions]).
Defined.

End TableExamples.

Section FetchFacts.

Variable download : nat -> Download.
Variables retries delay : nat.

Lemma fetch_loop_skips (n start slept : nat) :
  (start + n < retries)%nat ->
  (forall j, (start <= j < start + n)%nat -> usable (download j) = false) ->
  fetch_loop download retries delay (retries - start) slept
  = fetch_loop download retries delay (retries - (start + n))
               (slept + delay * length (filter (fun j => raised (download j))
                                               (seq start n))).
Proof.
  revert start slept. induction n as [| n IH]; intros start slept Hlt Hun.
  - cbn [seq filter length]. rewrite Nat.mul_0_r, !Nat.add_0_r. reflexivity.
  - replace (retries - start)%nat with (S (retries - S start)) by lia.
    cbn [fetch_loop].
    replace (retries - S (retries - S start))%nat with start by lia.
    assert (Hs : usable (download start) = false) by (apply Hun; lia).
    cbn [seq filter].
    replace (retries - (start + S n))%nat with (retries - (S start + n))%nat by lia.
    destruct (download start) as [| has_ohlc rows] eqn:Ed.
    + cbn [raised length].
      assert (Hlt' : (start <? retries - 1)%nat = true) by (apply Nat.ltb_lt; lia).
      rewrite Hlt'. rewrite IH by (try lia; intros j Hj; apply Hun; lia).
      f_equal. lia.
    + cbn [usable] in Hs. rewrite Hs. cbn [raised].
      apply IH; [lia |]. intros j Hj. apply Hun. lia.
Qed.

Lemma fetch_loop_sleep (remaining slept : nat) :
  (remaining <= retries)%nat ->
  (snd (fetch_loop download retries delay remaining slept)
   <= slept + delay * (remaining - 1))%nat.
Proof.
  revert slept. induction remaining as [| rest IH]; intros slept Hle.
  - cbn. lia.
  - cbn [fetch_loop].
    destruct (download (retries - S rest)) as [| has_ohlc rows].
    + destruct (Nat.ltb_spec (retries - S rest) (retries - 1)) as [Hlt | Hge].
      * specialize (IH (slept + delay)%nat ltac:(lia)).
        assert (Hr : (S rest - 1 = S (rest - 1))%nat) by lia.
        rewrite Hr. nia.
      * specialize (IH slept ltac:(lia)).
        assert (Hr : rest = 0%nat) by lia. subst rest. cbn in *. lia.
    + destruct (negb (empty rows) && has_ohlc).
      * cbn [snd]. lia.
      * specialize (IH slept ltac:(lia)). nia.
Qed.

(** X17: the fetch returns from the first call whose answer is a frame
    that is not empty and has the four price columns: it gives that frame
    without its rows with a missing price (so possibly no row at all) and
    makes no further call.  By then it has slept the delay once for each
    call that raised; an answer that is merely empty or incomplete costs
    no sleep. *)
Theorem fetch_returns_first_usable_answer (k : nat) :
  (k < retries)%nat ->
  usable (download k) = true ->
  (forall j, (j < k)%nat -> usable (download j) = false) ->
  _fetch_data_uncached download retries delay
  = (payload (download k), (delay * raises_before download k)%nat).
Proof.
  intros Hk Huse Hbefore. unfold _fetch_data_uncached, raises_before.
  replace retries with (retries - 0)%nat at 2 by lia.
  rewrite (fetch_loop_skips k 0 0) by (try lia; intros j Hj; apply Hbefore; lia).
  cbn [Nat.add].
  replace (retries - k)%nat with (S (retries - S k)) by lia.
  cbn [fetch_loop].
  replace (retries - S (retries - S k))%nat with k by lia.
  destruct (download k) as [| has_ohlc rows]; [discriminate Huse |].
  cbn [usable] in Huse. rewrite Huse. reflexivity.
Qed.

(** X18: when none of the [retries] calls gives a usable frame, the fetch
    returns the empty frame.  It has slept the delay after each call that
    raised except the last call. *)
Theorem fetch_gives_up_after_retries :
  (forall j, (j < retries)%nat -> usable (download j) = false) ->
  _fetch_data_uncached download retries delay
  = ([], (delay * raises_before download (retries - 1))%nat).
Proof.
  intros Hun. unfold _fetch_data_uncached, raises_before.
  destruct (Nat.eq_dec retries 0) as [Hz | Hnz].
  - rewrite Hz. cbn. rewrite Nat.mul_0_r. reflexivity.
  - replace retries with (retries - 0)%nat at 2 by lia.
    rewrite (fetch_loop_skips (retries - 1) 0 0)
      by (try lia; intros j Hj; apply Hun; lia).
    cbn [Nat.add].
    replace (retries - (retries - 1))%nat with 1%nat by lia.
    cbn [fetch_loop].
    replace (retries - 1 <? retries - 1)%nat with false
      by (symmetry; apply Nat.ltb_irrefl).
    assert (Hlast : usable (download (retries - 1)) = false) by (apply Hun; lia).
    destruct (download (retries - 1)) as [| has_ohlc rows]; [reflexivity |].
    cbn [usable] in Hlast. rewrite Hlast. reflexivity.
Qed.

(** X19: whatever the provider answers, the fetch sleeps at most
    [retries - 1] times the delay. *)
Theorem fetch_sleep_is_bounded :
  (snd (_fetch_data_uncached download retries delay) <= delay * (retries - 1))%nat.
Proof.
  unfold _fetch_data_uncached.
  pose proof (fetch_loop_sleep retries 0 (Nat.le_refl retries)) as H. lia.
Qed.

End FetchFacts.

Section FetchExamples.

Lemma fetch_returns_first_usable_answer_witness :
  _fetch_data_uncached flaky_download 3 5
  = (payload (flaky_download 2), (5 * raises_before flaky_download 2)%nat).
Proof.
  apply (fetch_returns_first_usable_answer flaky_download 3 5 2).
  - lia.
  - reflexivity.
  - intros [| [| j]] Hj; [reflexivity | reflexivity | lia].
Defined.

Lemma fetch_gives_up_after_retries_witness :
  _fetch_data_uncached failing_download 3 5
  = ([], (5 * raises_before failing_download (3 - 1))%nat).
Proof.
  apply (fetch_gives_up_after_retries failing_download 3 5).
  intros j _. reflexivity.
Defined.

End FetchExamples.

Section GeometricBounds.

Local Open Scope R_scope.

Lemma ln_le_mono (x y : R) : 0 < x -> x <= y -> ln x <= ln y.
Proof.
  intros Hx [Hlt | ->]; [| apply Rle_refl].
  left. apply ln_increasing; assumption.
Qed.

Lemma exp_le_mono (x y : R) : x <= y -> exp x <= exp y.
Proof.
  intros [Hlt | ->]; [| apply Rle_refl]. left. apply exp_increasing. exact Hlt.
Qed.

Lemma mean_le (a b : R) (n : nat) : (0 < n)%nat -> a <= b -> a / INR n <= b / INR n.
Proof.
  intros Hn Hab. unfold Rdiv. apply Rmult_le_compat_r; [| exact Hab].
  left. apply Rinv_0_lt_compat. apply lt_0_INR. exact Hn.
Qed.

Lemma log_mean_mono (c1 c2 : Bar R -> R) (t : Z) (data : Family R) :
  (forall kv m, In kv data -> lookup t (snd kv) = Some m -> 0 < c1 m <= c2 m) ->
  member_values c1 t data <> [] ->
  log_mean (member_values c1 t data) <= log_mean (member_values c2 t data).
Proof.
  intros Hall Hne.
  assert (Hboth : length (member_values c1 t data) = length (member_values c2 t data)
                  /\ rsum (List.map ln (member_values c1 t data))
                     <= rsum (List.map ln (member_values c2 t data))).
  { clear Hne. induction data as [| kv data IH]; [cbn; split; [reflexivity | lra] |].
    unfold member_values. cbn [flat_map]. fold (member_values c1 t data).
    fold (member_values c2 t data).
    destruct (IH (fun kv' m Hin => Hall kv' m (or_intror Hin))) as [Hlen Hsum].
    destruct (lookup t (snd kv)) as [m |] eqn:Hm; [| split; assumption].
    cbn [app length List.map rsum fold_right].
    fold (rsum (List.map ln (member_values c1 t data))).
    fold (rsum (List.map ln (member_values c2 t data))).
    split; [congruence |].
    pose proof (Hall kv m (or_introl eq_refl) Hm) as [Hpos Hle].
    pose proof (ln_le_mono (c1 m) (c2 m) Hpos Hle). lra. }
  destruct Hboth as [Hlen Hsum]. unfold log_mean. rewrite <- Hlen.
  apply mean_le; [| exact Hsum].
  destruct (member_values c1 t data); [congruence | simpl; lia].
Qed.

End GeometricBounds.

Section CompositeBounds.

Local Open Scope R_scope.

Variable fetch_data : string -> Frame R.

Lemma positive_fields (f : Field) (m : Bar R) : positive_bar m -> 0 < field_of f m.
Proof. intros (Ho & Hh & Hl & Hc). destruct f; assumption. Qed.

Lemma geo_bar_field (f : Field) (t : Z) (data : Family R) :
  field_of f (geo_bar t data) = geo_of (member_values (field_of f) t data).
Proof. destruct f; reflexivity. Qed.

(** A bar of the common index whose member values are all positive is in
    the composite, each field the exponential of the mean log. *)
Lemma composite_bar_of_positive (t : Z) :
  In t (resync_index (composite_data fetch_data)) ->
  (forall kv m, In kv (composite_data fetch_data) ->
                lookup t (snd kv) = Some m -> positive_bar m) ->
  In (t, geo_bar t (composite_data fetch_data)) (build_yahoo_composite fetch_data)
  /\ forall f,
       member_values (field_of f) t (composite_data fetch_data) <> []
       /\ field_of f (geo_bar t (composite_data fetch_data))
          = XFin (exp (log_mean (member_values (field_of f) t
                                               (composite_data fetch_data)))).
Proof.
  intros Ht Hpos.
  assert (Hcell : forall f,
             member_values (field_of f) t (composite_data fetch_data) <> []
             /\ field_of f (geo_bar t (composite_data fetch_data))
                = XFin (exp (log_mean (member_values (field_of f) t
                                                     (composite_data fetch_data))))).
  { intros f.
    assert (Hne : member_values (field_of f) t (composite_data fetch_data) <> []).
    { apply member_values_non_empty; [exact Ht |].
      apply composite_data_non_empty. }
    split; [exact Hne |].
    rewrite geo_bar_field. apply geo_of_positive; [exact Hne |].
    apply member_values_positive. intros kv m Hkv Hm.
    apply positive_fields. apply (Hpos kv m Hkv Hm). }
  split; [| exact Hcell].
  rewrite composite_rows. unfold xdropna. apply filter_In. split.
  - apply in_map_iff. exists t. split; [reflexivity | exact Ht].
  - cbn [snd]. unfold xbar_has_nan.
    pose proof (proj2 (Hcell FOpen)) as Ho. pose proof (proj2 (Hcell FHigh)) as Hh.
    pose proof (proj2 (Hcell FLow)) as Hl. pose proof (proj2 (Hcell FClose)) as Hc.
    cbn [field_of] in Ho, Hh, Hl, Hc. rewrite Ho, Hh, Hl, Hc. reflexivity.
Qed.

(** X21: the composite of well-formed bars is well-formed.  On a bar of
    the common index where every member has positive prices and opens and
    closes inside its range, the composite bar is kept, its four fields
    are finite, and it too opens and closes between its low and its
    high. *)
Theorem composite_of_well_formed_members (t : Z) :
  In t (resync_index (composite_data fetch_data)) ->
  (forall kv m, In kv (composite_data fetch_data) ->
                lookup t (snd kv) = Some m -> positive_bar m /\ well_formed_bar m) ->
  exists b,
    In (t, b) (build_yahoo_composite fetch_data) /\ xwell_formed_bar b.
Proof.
  intros Ht Hwf.
  assert (Hpos : forall kv m, In kv (composite_data fetch_data) ->
                              lookup t (snd kv) = Some m -> positive_bar m)
    by (intros kv m Hkv Hm; apply (Hwf kv m Hkv Hm)).
  destruct (composite_bar_of_positive t Ht Hpos) as [Hin Hcell].
  exists (geo_bar t (composite_data fetch_data)). split; [exact Hin |].
  assert (Hord : forall f g : Field,
             (forall m, positive_bar m /\ well_formed_bar m ->
                        field_of f m <= field_of g m) ->
             xle (field_of f (geo_bar t (composite_data fetch_data)))
                 (field_of g (geo_bar t (composite_data fetch_data)))).
  { intros f g Hfg.
    destruct (Hcell f) as [Hne Hf]. destruct (Hcell g) as [_ Hg].
    rewrite Hf, Hg. do 2 eexists. split; [reflexivity |]. split; [reflexivity |].
    apply exp_le_mono. apply log_mean_mono; [| exact Hne].
    intros kv m Hkv Hm. split.
    - apply positive_fields. apply (Hpos kv m Hkv Hm).
    - apply Hfg. apply (Hwf kv m Hkv Hm). }
  unfold xwell_formed_bar. repeat split.
  - apply (Hord FLow FOpen). intros m [_ Hm]. unfold well_formed_bar in Hm.
    cbn [field_of]. lra.
  - apply (Hord FOpen FHigh). intros m [_ Hm]. unfold well_formed_bar in Hm.
    cbn [field_of]. lra.
  - apply (Hord FLow FClose). intros m [_ Hm]. unfold well_formed_bar in Hm.
    cbn [field_of]. lra.
  - apply (Hord FClose FHigh). intros m [_ Hm]. unfold well_formed_bar in Hm.
    cbn [field_of]. lra.
Qed.

End CompositeBounds.

Section CompositeBoundsExamples.

Local Open Scope R_scope.

Lemma positive_members_at_one (kv : string * Frame R) (m : Bar R) :
  In kv (composite_data fetch_positive) -> lookup 1 (snd kv) = Some m ->
  m = mkBar 2 3 1 2.
Proof.
  intros Hkv Hm. simpl in Hkv.
  destruct Hkv as [<- | [<- | [<- | [<- | []]]]]; injection Hm as <-; reflexivity.
Qed.

Lemma composite_of_well_formed_members_witness :
  exists b,
    In (1%Z, b) (build_yahoo_composite fetch_positive) /\ xwell_formed_bar b.
Proof.
  apply (composite_of_well_formed_members fetch_positive 1%Z).
  - simpl. left. reflexivity.
  - intros kv m Hkv Hm. rewrite (positive_members_at_one kv m Hkv Hm).
    unfold positive_bar, well_formed_bar. simpl. repeat split; lra.
Defined.

End CompositeBoundsExamples.

Section SessionWindows.

Open Scope string_scope.

Variable infer_freq : list Z -> Inferred.
Variable utc_offset : string -> Z -> Z.

(** X23: the four session windows partition the bars by their local
    minute of the day: a bar is among the bars of a session exactly when
    that minute falls in the session's hour, so no bar feeds two snapshots
    and a bar outside 04:00-05:00, 09:00-10:00 and 12:00-14:00 local time
    feeds none. *)
Theorem session_windows_partition_bars (tz : string) (df : Frame Q) (t : Z)
    (b : Bar Q) (name start end_ : string) :
  In (name, (start, end_)) sessions ->
  (In (t, b) (session_frame utc_offset tz start end_ df)
   <-> In (t, b) df
       /\ session_at (local_minutes utc_offset tz t mod 1440) = Some name).
Proof.
  intros Hin. unfold session_frame. rewrite filter_In. cbn [fst].
  destruct (session_masks_minutes utc_offset tz t) as (Ha & Hl & Hn & Hp).
  cbv zeta in Ha, Hl, Hn, Hp.
  destruct (session_at_masks (local_minutes utc_offset tz t mod 1440))
    as (Ma & Ml & Mn & Mp).
  destruct Hin as [Heq | [Heq | [Heq | [Heq | []]]]];
    apply pair_equal_spec in Heq; destruct Heq as [<- Heq];
    apply pair_equal_spec in Heq; destruct Heq as [<- <-].
  - rewrite Ha, Ma. reflexivity.
  - rewrite Hl, Ml. reflexivity.
  - rewrite Hn, Mn. reflexivity.
  - rewrite Hp, Mp. reflexivity.
Qed.



End SessionWindows.

Section SessionWindowExamples.

Open Scope string_scope.

Lemma session_windows_partition_bars_witness :
  In (780%Z, mkBar 187 188 186 187)
     (session_frame offset_est "America/New_York" "09:00" "10:00" hourly_two_days)
  <-> In (780%Z, mkBar 187 188 186 187) hourly_two_days
      /\ session_at (local_minutes offset_est "America/New_York" 780 mod 1440)
         = Some "London".
Proof.
  apply (session_windows_partition_bars offset_est "America/New_York"
           hourly_two_days 780 (mkBar 187 188 186 187) "London" "09:00" "10:00").
  simpl. tauto.
Defined.


End SessionWindowExamples.

Section DashboardRatio.

(** X25: cutting both series to their common index before dividing them,
    as the dashboard does for the composite against the VIX, changes
    nothing: for series with unique timestamps the result is the ratio of
    the two series as they are, empty when they share no timestamp. *)
Theorem prealigned_ratio_is_the_ratio (custom_mkt vix : Frame Q) :
  NoDup (index custom_mkt) -> NoDup (index vix) ->
  comp_vs_vix custom_mkt vix = ohlc_divide custom_mkt vix.
Proof.
  intros Ha Hb. unfold comp_vs_vix. cbv zeta.
  rewrite (ohlc_divide_rows custom_mkt vix Ha Hb).
  set (idx := index_intersection (index custom_mkt) (index vix)).
  assert (Hin_a : forall t, In t idx -> In t (index custom_mkt))
    by (intros t Ht; apply in_index_intersection in Ht; apply Ht).
  assert (Hin_b : forall t, In t idx -> In t (index vix))
    by (intros t Ht; apply in_index_intersection in Ht; apply Ht).
  assert (Hnd : NoDup idx) by (apply NoDup_filter; exact Ha).
  destruct (Nat.ltb_spec 0 (length idx)) as [Hlen | Hlen].
  - rewrite (loc_by_lookup _ idx custom_mkt Ha), (loc_by_lookup _ idx vix Hb).
    pose proof (@align_index _ idx custom_mkt Hin_a) as Hia.
    pose proof (@align_index _ idx vix Hin_b) as Hib.
    rewrite ohlc_divide_rows by (rewrite ?Hia, ?Hib; exact Hnd).
    rewrite Hia, Hib, index_intersection_self.
    apply flat_map_ext_in. intros t Ht. unfold divisible.
    rewrite (@align_lookup _ idx custom_mkt t Hin_a Ht).
    rewrite (@align_lookup _ idx vix t Hin_b Ht). reflexivity.
  - destruct idx; [reflexivity | simpl in Hlen; lia].
Qed.

Lemma prealigned_ratio_is_the_ratio_witness :
  comp_vs_vix ratio_numer ratio_denom = ohlc_divide ratio_numer ratio_denom.
Proof.
  apply (prealigned_ratio_is_the_ratio ratio_numer ratio_denom).
  - exact (proj1 ratio_frames_unique).
  - exact (proj2 ratio_frames_unique).
Defined.

End DashboardRatio.
